(** * optimalrecon: the cut-sky reconstruction driver

    A shallow embedding of [scripts/recon_cutsky.py].  The script is glue
    code: it loads catalogs, converts coordinates, drives the object
    life cycle of the [pyrecon] library and writes the shifted catalogs.

    Everything the script calls outside of itself (astropy's [Table] I/O,
    [pyrecon], [cosmoprimo], [optimalrecon.io_tools], the logger, the
    file system) is an _external call_: the driver is a program over a
    signature of such calls, and a run is the list of the calls it made
    together with what each one answered.  Any call may raise, and the
    script catches nothing.  The theorems quantify over every behaviour
    of the outside world; the simulated world of module [Sim] runs the
    programs on concrete inputs.

    What is modelled of the libraries themselves:
    - an astropy table is the ordered list of its named columns; a
      boolean mask selects rows in order and must have one entry per
      row, but for the mask without entries, which selects no row;
      assigning a float array to a column replaces the column where it
      stands or adds it last; the array must have one entry per row,
      but for an array of one entry, which is broadcast to every row
      (in place for an existing column, which then keeps its dtype);
    - a callable ([distance], the object made by
      [utils.DistanceToRedshift]) is a handle that is passed on and
      called;
    - the object returned by [Reconstruction(...)] is an instance of the
      class called, so that [type(recon) is C] compares classes;
    - numbers are binary64 floats; the script computes with none of
      them, it passes them on. *)

From Stdlib Require Import String Ascii List Bool Arith ZArith Lia.
From Stdlib Require Import Floats.PrimFloat.
Import ListNotations.
Local Open Scope string_scope.
Local Open Scope list_scope.

Set Implicit Arguments.
Set Warnings "-inexact-float".

(* ===================================================================== *)
(** ** Python values used by the script                                   *)
(* ===================================================================== *)

(** Python floats and the entries of [f8] arrays are binary64 numbers. *)
Definition pyfloat := float.

(** A one-dimensional float array (a column of a catalog, a weight
    vector, a vector of distances). *)
Definition farray := list pyfloat.

(** An [(N, 3)] array of Cartesian positions. *)
Definition positions := list (pyfloat * pyfloat * pyfloat).

(** The triple [(ra, dec, z)] returned by the catalog reader and the
    triple [(dist, ra, dec)] returned by [utils.cartesian_to_sky]. *)
Definition triple := (farray * farray * farray)%type.

(** A file-name argument that is either one string or a list of strings
    ([randoms_fn], [randoms_rec_fn]). *)
Inductive str_or_list : Type :=
| PyStr (s : string)
| PyList (l : list string).

(** Iterating a Python string yields its characters as strings of
    length one; iterating a list yields its elements. *)
Fixpoint chars (s : string) : list string :=
  match s with
  | EmptyString => []
  | String c rest => String c EmptyString :: chars rest
  end.

Definition py_iter (x : str_or_list) : list string :=
  match x with
  | PyStr s => chars s
  | PyList l => l
  end.

(** [zip(a, b)] stops at the shorter argument. *)
Definition zip {A B : Type} (a : list A) (b : list B) : list (A * B) :=
  List.combine a b.

(** The messages the script logs, by their format string and the values
    formatted into it:
    ['Loading {}.'], ['Saving {}.'], ['Input directory is {}.'],
    ['Output directory is {}.'] and ['Running reconstruction in region
    {region} in redshift range {(zmin, zmax)} with f, bias = {(f, bias)}']. *)
Inductive log_message : Type :=
| Loading (fn : string)
| Saving (fn : string)
| InputDirectory (dir : string)
| OutputDirectory (dir : string)
| Running (region : string) (zrange : pyfloat * pyfloat) (f bias : pyfloat).

(* --------------------------------------------------------------------- *)
(** *** [os.path.dirname] (posixpath)                                     *)
(* --------------------------------------------------------------------- *)

Definition is_sep (c : ascii) : bool := Ascii.eqb c "/"%char.

Fixpoint has_sep (p : string) : bool :=
  match p with
  | EmptyString => false
  | String c rest => is_sep c || has_sep rest
  end.

(** [p[:p.rfind('/') + 1]]: everything up to and including the last
    separator, the empty string when there is none. *)
Fixpoint upto_last_sep (p : string) : string :=
  match p with
  | EmptyString => EmptyString
  | String c rest =>
      if has_sep p then String c (upto_last_sep rest) else EmptyString
  end.

Fixpoint all_sep (p : string) : bool :=
  match p with
  | EmptyString => true
  | String c rest => is_sep c && all_sep rest
  end.

(** [head.rstrip('/')]. *)
Fixpoint rstrip_sep (p : string) : string :=
  match p with
  | EmptyString => EmptyString
  | String c rest =>
      match rstrip_sep rest with
      | EmptyString => if is_sep c then EmptyString else String c EmptyString
      | r => String c r
      end
  end.

Definition dirname (p : string) : string :=
  let head := upto_last_sep p in
  if negb (String.eqb head "") && negb (all_sep head)
  then rstrip_sep head
  else head.

(* ===================================================================== *)
(** ** Default bias by tracer type                                        *)
(* ===================================================================== *)

(** [str.startswith]. *)
Definition startswith (s p : string) : bool := String.prefix p s.

(** [get_bias]: the default tracer bias for a target sample. *)
Definition get_bias (tracer : string) : pyfloat :=
  if startswith tracer "ELG" then 1.2%float
  else if startswith tracer "QSO" then 2.07%float
  else if startswith tracer "LRG" then 1.99%float
  else if startswith tracer "BGS" then 1.5%float
  else 1.2%float.

(* ===================================================================== *)
(** ** Results and exceptions                                             *)
(* ===================================================================== *)

(** A Python exception, by the name of its class. *)
Definition exn := string.

(** The outcome of a call: a value, or a raised exception. *)
Inductive result (A : Type) : Type :=
| Ok (a : A)
| Raised (e : exn).

Arguments Ok {A} a.
Arguments Raised {A} e.

Definition is_ok {A : Type} (r : result A) : bool :=
  match r with
  | Ok _ => true
  | Raised _ => false
  end.

(* ===================================================================== *)
(** ** Catalog tables                                                     *)
(* ===================================================================== *)

(** A column of an astropy table.  Catalogs carry float columns (sky
    coordinates, weights), integer columns (identifiers, bit masks),
    boolean and string columns.  A float column is an [f8] array.
    [FilledCol c v] is a column [c] of another dtype after [c[:] = v]
    for a float [v]: it keeps the dtype and the rows of [c], and every
    row holds [v] cast by numpy to that dtype. *)
Inductive column : Type :=
| FloatCol (v : list pyfloat)
| IntCol (v : list Z)
| BoolCol (v : list bool)
| StrCol (v : list string)
| FilledCol (c : column) (v : pyfloat).

(** A table is the ordered list of its named columns. *)
Definition table := list (string * column).

Fixpoint column_length (c : column) : nat :=
  match c with
  | FloatCol v => length v
  | IntCol v => length v
  | BoolCol v => length v
  | StrCol v => length v
  | FilledCol c' _ => column_length c'
  end.

Definition colnames (t : table) : list string := map fst t.

(** [len(t)]: the number of rows, that of the first column. *)
Definition nrows (t : table) : nat :=
  match t with
  | [] => 0
  | (_, c) :: _ => column_length c
  end.

(** [t[name]] as a lookup. *)
Fixpoint get_column (name : string) (t : table) : option column :=
  match t with
  | [] => None
  | (n, c) :: rest => if String.eqb n name then Some c else get_column name rest
  end.

(** Rows selected by a boolean mask, in their original order. *)
Fixpoint select {A : Type} (mask : list bool) (v : list A) : list A :=
  match mask, v with
  | b :: mask', x :: v' => if b then x :: select mask' v' else select mask' v'
  | _, _ => []
  end.

Fixpoint select_column (mask : list bool) (c : column) : column :=
  match c with
  | FloatCol v => FloatCol (select mask v)
  | IntCol v => IntCol (select mask v)
  | BoolCol v => BoolCol (select mask v)
  | StrCol v => StrCol (select mask v)
  | FilledCol c' v => FilledCol (select_column mask c') v
  end.

(** [t[mask]] for a boolean array [mask]: a new table with the selected
    rows of every column.  For an array without entries astropy returns
    the table without rows; otherwise numpy raises [IndexError] when the
    mask does not have one entry per row. *)
Definition table_getitem_mask (t : table) (mask : list bool) : result table :=
  if (length mask =? 0)%nat
     || forallb (fun nc => Nat.eqb (column_length (snd nc)) (length mask)) t
  then Ok (map (fun nc => (fst nc, select_column mask (snd nc))) t)
  else Raised "IndexError".

(** Replace the column called [name] where it stands. *)
Fixpoint replace_column (name : string) (c : column) (t : table) : table :=
  match t with
  | [] => []
  | (n, c0) :: rest =>
      if String.eqb n name then (n, c) :: rest
      else (n, c0) :: replace_column name c rest
  end.

(** [col[:] = [v]]: numpy stores [v] in every row of the column, cast
    to the dtype of the column. *)
Definition fill_column (c : column) (v : pyfloat) : column :=
  match c with
  | FloatCol l => FloatCol (repeat v (length l))
  | _ => FilledCol c v
  end.

(** What [add_column] makes of a float array for a table of [n] rows:
    an array of one entry is broadcast to the rows of a table that has
    rows. *)
Definition broadcast (n : nat) (values : farray) : farray :=
  match values with
  | [v] => if (0 <? n)%nat then repeat v n else values
  | _ => values
  end.

(** [t[name] = values] for a float array.

    A new column ([Table.add_column]) is added after the others, an
    array of one entry broadcast to the rows of the table; it must then
    have one entry per row, unless the table has no column, or astropy
    raises [ValueError].

    An existing column is first replaced ([Table.replace_column]): the
    array takes its place, and must have as many entries as the column
    unless that is the only column of the table.  When the replacement
    fails astropy catches the exception and assigns in place
    ([col[:] = values]): numpy broadcasts an array of one entry to every
    row of the column, which keeps its dtype, and raises [ValueError]
    for an array of another length. *)
Definition table_setitem (t : table) (name : string) (values : farray)
  : result table :=
  match get_column name t with
  | Some old =>
      if (length t <=? 1)%nat || Nat.eqb (length values) (column_length old)
      then Ok (replace_column name (FloatCol values) t)
      else
        match values with
        | [v] => Ok (replace_column name (fill_column old v) t)
        | _ => Raised "ValueError"
        end
  | None =>
      let col := broadcast (nrows t) values in
      if (length t =? 0)%nat || Nat.eqb (length col) (nrows t)
      then Ok (t ++ [(name, FloatCol col)])
      else Raised "ValueError"
  end.

(** [Table(data)] copies its argument; tables are values here, so the
    copy is the table itself. *)
Definition Table_copy (t : table) : table := t.

(* ===================================================================== *)
(** ** Arguments of the external calls                                    *)
(* ===================================================================== *)

(** A value passed through [**kwargs] to the catalog reader. *)
Inductive kwvalue : Type :=
| KwNone
| KwFloat (x : pyfloat)
| KwStr (s : string)
| KwPair (a b : pyfloat).

(** The keyword arguments [**kwargs], in call order. *)
Definition kwargs := list (string * kwvalue).

(** A callable object, as far as the script looks at it: it is passed
    on and called.  The parameter [distance] is one, and so is the
    object [utils.DistanceToRedshift(distance)]. *)
Inductive callable : Type := Callable (name : string).

(** The MPI communicator, as far as the script looks at it. *)
Record communicator : Type := Communicator { rank : Z }.

(** The reconstruction classes of [pyrecon] the script imports, and any
    other class a caller of [run_reconstruction] may pass. *)
Inductive reconstruction_class : Type :=
| MultiGridReconstruction
| IterativeFFTReconstruction
| IterativeFFTParticleReconstruction
| OtherReconstruction (name : string).

(** [type(recon) is IterativeFFTParticleReconstruction]. *)
Definition is_particle (cls : reconstruction_class) : bool :=
  match cls with
  | IterativeFFTParticleReconstruction => true
  | _ => false
  end.

(** [rec_kwargs]: [{'mpicomm': mpicomm, 'mpiroot': 0}] or
    [{'fft_engine': 'fftw', 'nthreads': nthreads}]. *)
Inductive rec_kwargs : Type :=
| MpiKwargs (mpicomm : communicator) (mpiroot : Z)
| FftKwargs (fft_engine : string) (nthreads : Z).

(** The keyword arguments of the constructor call
    [Reconstruction(f=..., bias=..., ..., **rec_kwargs)]. *)
Record constructor_args : Type := ConstructorArgs {
  ca_f : pyfloat;
  ca_bias : pyfloat;
  ca_boxsize : option pyfloat;
  ca_nmesh : option Z;
  ca_cellsize : pyfloat;
  ca_los : string;
  ca_positions : option positions;
  ca_boxpad : pyfloat;
  ca_dtype : string;
  ca_rec_kwargs : rec_kwargs
}.

(** The first argument of [recon.read_shifted_positions]: the tag
    ['data'] or an array of positions ([None] off the root rank). *)
Inductive shift_source : Type :=
| Tag (name : string)
| Array (p : option positions).

(** The keyword arguments of a [catalog_fn] call; [None] for a keyword
    the call does not pass. *)
Record catalog_fn_args : Type := CatalogFnArgs {
  cf_tracer : string;
  cf_mock_type : option string;
  cf_cat_dir : option string;
  cf_rec_type : option string;
  cf_name : option string;
  cf_region : option string;
  cf_nrandoms : option Z
}.

(* ===================================================================== *)
(** ** External calls                                                     *)
(* ===================================================================== *)

(** One constructor per call the script makes outside of itself, with
    the arguments the script passes. *)
Inductive call : Type :=
(* logger.info(msg) *)
| LoggerInfo (msg : log_message)
(* Table.read(fn) *)
| TableRead (fn : string)
(* read_positions_weights_cutsky(fn, return_mask=..., **kwargs) *)
| ReadPositionsWeightsCutsky (fn : string) (return_mask : bool) (kw : kwargs)
(* distance(z), for the callable [distance] *)
| Distance (distance : callable) (z : farray)
(* utils.sky_to_cartesian(dist, ra, dec, dtype=dtype) *)
| SkyToCartesian (dist ra dec : farray) (dtype : string)
(* Reconstruction(...) *)
| Construct (cls : reconstruction_class) (args : constructor_args)
(* recon.assign_data(positions, weights) *)
| AssignData (p : option positions) (w : option farray)
(* recon.assign_randoms(positions, weights) *)
| AssignRandoms (p : option positions) (w : option farray)
(* recon.set_density_contrast(smoothing_radius=...) *)
| SetDensityContrast (smoothing_radius : pyfloat)
(* recon.run() *)
| Run
(* recon.read_shifted_positions(src, field=field) *)
| ReadShiftedPositions (src : shift_source) (field : string)
(* utils.DistanceToRedshift(distance) *)
| MakeDistanceToRedshift (distance : callable)
(* distance_to_redshift(dist), for the object [distance_to_redshift] *)
| DistanceToRedshift (distance_to_redshift : callable) (dist : farray)
(* utils.cartesian_to_sky(positions) *)
| CartesianToSky (p : option positions)
(* utils.mkdir(dirname) *)
| Mkdir (dir : string)
(* catalog.write(fn, format=..., overwrite=...) *)
| TableWrite (catalog : table) (fn : string) (format : string) (overwrite : bool)
(* mpi.COMM_WORLD; None when the attribute is missing (AttributeError) *)
| MpiCommWorld
(* setup_logging() *)
| SetupLogging
(* get_z_cubicbox(tracer) *)
| GetZCubicbox (tracer : string)
(* float(s) *)
| ParseFloat (s : string)
(* get_z_cutsky(tracer) *)
| GetZCutsky (tracer : string)
(* DESI().comoving_radial_distance *)
| DesiComovingRadialDistance
(* get_f_reconstruction(zbox=..., zlim=..., mock_type=...) *)
| GetFReconstruction (zbox : pyfloat) (zlim : pyfloat * pyfloat)
    (mock_type : string)
(* catalog_fn(...) for a data catalog: one file name *)
| CatalogFn (a : catalog_fn_args)
(* catalog_fn(..., name='randoms', ...): one file name or a list *)
| CatalogFnRandoms (a : catalog_fn_args).

(** What each call returns when it does not raise. *)
Definition answer (c : call) : Type :=
  match c with
  | LoggerInfo _ => unit
  | TableRead _ => table
  | ReadPositionsWeightsCutsky _ true _ => (triple * farray * list bool)%type
  | ReadPositionsWeightsCutsky _ false _ => (triple * farray)%type
  | Distance _ _ => farray
  | SkyToCartesian _ _ _ _ => positions
  | Construct _ _ => unit
  | AssignData _ _ => unit
  | AssignRandoms _ _ => unit
  | SetDensityContrast _ => unit
  | Run => unit
  | ReadShiftedPositions _ _ => option positions
  | MakeDistanceToRedshift _ => callable
  | DistanceToRedshift _ _ => farray
  | CartesianToSky _ => triple
  | Mkdir _ => unit
  | TableWrite _ _ _ _ => unit
  | MpiCommWorld => option communicator
  | SetupLogging => unit
  | GetZCubicbox _ => pyfloat
  | ParseFloat _ => pyfloat
  | GetZCutsky _ => list pyfloat
  | DesiComovingRadialDistance => callable
  | GetFReconstruction _ _ _ => pyfloat
  | CatalogFn _ => string
  | CatalogFnRandoms _ => str_or_list
  end.

(** An event of a run: a call and its outcome. *)
Record event : Type := Event {
  ev_call : call;
  ev_outcome : result (answer ev_call)
}.

Definition trace := list event.

(* ===================================================================== *)
(** ** Programs over external calls                                       *)
(* ===================================================================== *)

(** A program returns, raises, or makes an external call and continues
    with its answer. *)
Inductive prog (A : Type) : Type :=
| Ret (a : A)
| Throw (e : exn)
| Do (c : call) (k : answer c -> prog A).

Arguments Ret {A} a.
Arguments Throw {A} e.
Arguments Do {A} c k.

Fixpoint bind {A B : Type} (m : prog A) (f : A -> prog B) : prog B :=
  match m with
  | Ret a => f a
  | Throw e => Throw e
  | Do c k => Do c (fun x => bind (k x) f)
  end.

Definition ext (c : call) : prog (answer c) := Do c Ret.

(** A pure Python operation that may raise. *)
Definition lift {A : Type} (r : result A) : prog A :=
  match r with
  | Ok a => Ret a
  | Raised e => Throw e
  end.

Declare Scope prog_scope.
Delimit Scope prog_scope with prog.
Notation "x <- m ;; k" := (bind m (fun x => k))
  (at level 61, m at next level, right associativity) : prog_scope.
Notation "' pat <- m ;; k" := (bind m (fun x => match x with pat => k end))
  (at level 61, pat pattern, m at next level, right associativity) : prog_scope.
Notation "m ;; k" := (bind m (fun _ => k))
  (at level 61, right associativity) : prog_scope.
Local Open Scope prog_scope.

(** A [for] loop whose body updates local variables [s]. *)
Fixpoint for_each {X S : Type} (body : X -> S -> prog S) (l : list X) (s : S)
  : prog S :=
  match l with
  | [] => Ret s
  | x :: rest => s' <- body x s ;; for_each body rest s'
  end.

(** [runs p tr r]: the program [p] can make exactly the calls of [tr],
    receive the outcomes recorded there, and end with [r].  A raising
    call ends the run with its exception: the script catches nothing. *)
Fixpoint runs {A : Type} (p : prog A) (tr : trace) (r : result A) : Prop :=
  match p with
  | Ret a => tr = [] /\ r = Ok a
  | Throw e => tr = [] /\ r = Raised e
  | Do c k =>
      (exists e, tr = [Event c (Raised e)] /\ r = Raised e) \/
      (exists a tr', tr = Event c (Ok a) :: tr' /\ runs (k a) tr' r)
  end.

(** Running a program against a world [W] that answers every call. *)
Section Interp.
Variable W : Type.
Variable world : forall c : call, W -> result (answer c) * W.

Fixpoint interp {A : Type} (p : prog A) (w : W) : result A * trace * W :=
  match p with
  | Ret a => (Ok a, [], w)
  | Throw e => (Raised e, [], w)
  | Do c k =>
      match world c w with
      | (Raised e, w') => (Raised e, [Event c (Raised e)], w')
      | (Ok a, w') =>
          let '(r, tr, w'') := interp (k a) w' in
          (r, Event c (Ok a) :: tr, w'')
      end
  end.
End Interp.

(** The external calls as the script spells them. *)
Definition logger_info (msg : log_message) : prog unit := ext (LoggerInfo msg).
Definition Table_read (fn : string) : prog table := ext (TableRead fn).
Definition read_positions_weights_cutsky (fn : string) (kw : kwargs)
  : prog (triple * farray) := ext (ReadPositionsWeightsCutsky fn false kw).
Definition read_positions_weights_cutsky_mask (fn : string) (kw : kwargs)
  : prog (triple * farray * list bool) :=
  ext (ReadPositionsWeightsCutsky fn true kw).
Definition call_distance (distance : callable) (z : farray) : prog farray :=
  ext (Distance distance z).
Definition sky_to_cartesian (dist ra dec : farray) (dtype : string)
  : prog positions := ext (SkyToCartesian dist ra dec dtype).
Definition recon_construct (cls : reconstruction_class)
    (args : constructor_args) : prog unit := ext (Construct cls args).
Definition recon_assign_data (p : option positions) (w : option farray)
  : prog unit := ext (AssignData p w).
Definition recon_assign_randoms (p : option positions) (w : option farray)
  : prog unit := ext (AssignRandoms p w).
Definition recon_set_density_contrast (smoothing_radius : pyfloat)
  : prog unit := ext (SetDensityContrast smoothing_radius).
Definition recon_run : prog unit := ext Run.
Definition recon_read_shifted_positions (src : shift_source) (field : string)
  : prog (option positions) := ext (ReadShiftedPositions src field).
Definition make_distance_to_redshift (distance : callable) : prog callable :=
  ext (MakeDistanceToRedshift distance).
Definition call_distance_to_redshift (distance_to_redshift : callable)
    (dist : farray) : prog farray :=
  ext (DistanceToRedshift distance_to_redshift dist).
Definition cartesian_to_sky (p : option positions) : prog triple :=
  ext (CartesianToSky p).
Definition mkdir (dir : string) : prog unit := ext (Mkdir dir).
Definition Table_write (catalog : table) (fn format : string) (overwrite : bool)
  : prog unit := ext (TableWrite catalog fn format overwrite).
Definition mpi_COMM_WORLD : prog (option communicator) := ext MpiCommWorld.
Definition setup_logging : prog unit := ext SetupLogging.
Definition get_z_cubicbox (tracer : string) : prog pyfloat :=
  ext (GetZCubicbox tracer).
Definition py_float (s : string) : prog pyfloat := ext (ParseFloat s).
Definition get_z_cutsky (tracer : string) : prog (list pyfloat) :=
  ext (GetZCutsky tracer).
Definition DESI_comoving_radial_distance : prog callable :=
  ext DesiComovingRadialDistance.
Definition get_f_reconstruction (zbox : pyfloat) (zlim : pyfloat * pyfloat)
    (mock_type : string) : prog pyfloat :=
  ext (GetFReconstruction zbox zlim mock_type).
Definition catalog_fn (a : catalog_fn_args) : prog string := ext (CatalogFn a).
Definition catalog_fn_randoms (a : catalog_fn_args) : prog str_or_list :=
  ext (CatalogFnRandoms a).

(* ===================================================================== *)
(** ** [run_reconstruction]                                               *)
(* ===================================================================== *)

(** Reading a local variable that no executed branch has assigned. *)
Definition bound {A : Type} (v : option A) : prog A :=
  match v with
  | Some a => Ret a
  | None => Throw "UnboundLocalError"
  end.

(** [root = mpicomm is None or mpicomm.rank == 0]. *)
Definition is_root (mpicomm : option communicator) : bool :=
  match mpicomm with
  | None => true
  | Some comm => (rank comm =? 0)%Z
  end.

(** [catalog['RA'], catalog['DEC'], catalog['Z'] = ra, dec, z]: the three
    assignments, left to right. *)
Definition set_sky_columns (catalog : table) (ra dec z : farray)
  : result table :=
  match table_setitem catalog "RA" ra with
  | Raised e => Raised e
  | Ok c1 =>
      match table_setitem c1 "DEC" dec with
      | Raised e => Raised e
      | Ok c2 => table_setitem c2 "Z" z
      end
  end.

(** The local variables the two loops over the random catalogs carry:
    [catalog] (unbound off the root rank), [randoms_positions] and
    [randoms_weights]. *)
Definition loop_locals :=
  (option table * option positions * option farray)%type.

Section RunReconstruction.
(** The parameters of [run_reconstruction].  [distance] is a callable
    of the caller: calling it is the external call [Distance].  The
    object [recon] is an instance of the class [Reconstruction]. *)
Variable Reconstruction : reconstruction_class.
Variable distance : callable.
Variables data_fn : string.
Variable randoms_fn : str_or_list.
Variable data_rec_fn : string.
Variable randoms_rec_fn : str_or_list.
Variables f bias : pyfloat.
Variable boxsize : option pyfloat.
Variable nmesh : option Z.
Variables cellsize smoothing_radius : pyfloat.
Variable nthreads : Z.
Variables convention dtype : string.
Variable mpicomm : option communicator.
Variable kw : kwargs.

Definition root : bool := is_root mpicomm.

(** [if np.ndim(randoms_fn) == 0: randoms_fn = [randoms_fn]]. *)
Definition randoms_fn_list : list string :=
  match randoms_fn with
  | PyStr s => [s]   (* np.ndim(randoms_fn) == 0 *)
  | PyList l => l
  end.

(** Lines 29-35: the data catalog is loaded on the root rank. *)
Definition load_data
  : prog (option table * option positions * option farray) :=
  if root then
    logger_info (Loading data_fn) ;;
    data <- Table_read data_fn ;;
    '(ra, dec, z, data_weights, mask) <-
      read_positions_weights_cutsky_mask data_fn kw ;;
    data <- lift (table_getitem_mask data mask) ;;
    dist <- call_distance distance z ;;
    data_positions <- sky_to_cartesian dist ra dec dtype ;;
    Ret (Some data, Some data_positions, Some data_weights)
  else Ret (None, None, None).

(** Lines 37-45: the constructor call. *)
Definition construct (data_positions : option positions) : prog unit :=
  let rec_kwargs :=
    match mpicomm with
    | Some comm => MpiKwargs comm 0
    | None => FftKwargs "fftw" nthreads
    end in
  recon_construct Reconstruction
         {| ca_f := f; ca_bias := bias; ca_boxsize := boxsize;
            ca_nmesh := nmesh; ca_cellsize := cellsize; ca_los := "local";
            ca_positions := data_positions; ca_boxpad := 1.2%float;
            ca_dtype := dtype; ca_rec_kwargs := rec_kwargs |}.

(** Lines 49-54: the body of the first loop over [randoms_fn]. *)
Definition assign_randoms_body (fn : string) (s : loop_locals)
  : prog loop_locals :=
  let '(catalog, randoms_positions, randoms_weights) := s in
  '(randoms_positions, randoms_weights) <-
    (if root then
       logger_info (Loading fn) ;;
       '(ra, dec, z, randoms_weights) <-
         read_positions_weights_cutsky fn kw ;;
       dist <- call_distance distance z ;;
       randoms_positions <- sky_to_cartesian dist ra dec dtype ;;
       Ret (Some randoms_positions, Some randoms_weights)
     else Ret (randoms_positions, randoms_weights)) ;;
  recon_assign_randoms randoms_positions randoms_weights ;;
  Ret (catalog, randoms_positions, randoms_weights).

(** Line 59. *)
Definition data_field : string :=
  if String.eqb convention "rsd" then "rsd" else "disp+rsd".

(** Line 75. *)
Definition randoms_field : string :=
  if String.eqb convention "recsym" then "disp+rsd" else "disp".

(** Lines 60-63. *)
Definition read_shifted_data (data_positions : option positions)
  : prog (option positions) :=
  if is_particle Reconstruction
  then recon_read_shifted_positions (Tag "data") data_field
  else recon_read_shifted_positions (Array data_positions) data_field.

(** Lines 66-72: the data catalog is written on the root rank. *)
Definition write_data (distance_to_redshift : callable) (data : option table)
    (data_positions_rec : option positions) : prog (option table) :=
  if root then
    data <- bound data ;;
    let catalog := Table_copy data in
    '(dist, ra, dec) <- cartesian_to_sky data_positions_rec ;;
    z <- call_distance_to_redshift distance_to_redshift dist ;;
    catalog <- lift (set_sky_columns catalog ra dec z) ;;
    logger_info (Saving data_rec_fn) ;;
    mkdir (dirname data_rec_fn) ;;
    Table_write catalog data_rec_fn "fits" true ;;
    Ret (Some catalog)
  else Ret None.

(** Lines 77-89: the body of the second loop, over
    [zip(randoms_fn, randoms_rec_fn)]. *)
Definition write_randoms_body (distance_to_redshift : callable)
    (item : string * string) (s : loop_locals) : prog loop_locals :=
  let '(fn, rec_fn) := item in
  let '(catalog, randoms_positions, randoms_weights) := s in
  '(catalog, randoms_positions, randoms_weights) <-
    (if root then
       catalog <- Table_read fn ;;
       '(ra, dec, z, randoms_weights, mask) <-
         read_positions_weights_cutsky_mask fn kw ;;
       catalog <- lift (table_getitem_mask catalog mask) ;;
       dist <- call_distance distance z ;;
       randoms_positions <- sky_to_cartesian dist ra dec dtype ;;
       Ret (Some catalog, Some randoms_positions, Some randoms_weights)
     else Ret (catalog, randoms_positions, randoms_weights)) ;;
  randoms_positions_rec <-
    recon_read_shifted_positions (Array randoms_positions) randoms_field ;;
  (if root then
     catalog <- bound catalog ;;
     '(dist, ra, dec) <- cartesian_to_sky randoms_positions_rec ;;
     z <- call_distance_to_redshift distance_to_redshift dist ;;
     catalog <- lift (set_sky_columns catalog ra dec z) ;;
     logger_info (Saving rec_fn) ;;
     mkdir (dirname rec_fn) ;;
     Table_write catalog rec_fn "fits" true ;;
     Ret (Some catalog, randoms_positions, randoms_weights)
   else Ret (catalog, randoms_positions, randoms_weights)).

(** Lines 74-89. *)
Definition write_randoms (distance_to_redshift : callable) (s : loop_locals)
  : prog unit :=
  if negb (String.eqb convention "rsd") then
    for_each (write_randoms_body distance_to_redshift)
      (zip randoms_fn_list (py_iter randoms_rec_fn)) s ;;
    Ret tt
  else Ret tt.

Definition run_reconstruction : prog unit :=
  '(data, data_positions, data_weights) <- load_data ;;
  construct data_positions ;;
  recon_assign_data data_positions data_weights ;;
  '(_, randoms_positions, randoms_weights) <-
    for_each assign_randoms_body randoms_fn_list (None, None, None) ;;
  recon_set_density_contrast smoothing_radius ;;
  recon_run ;;
  data_positions_rec <- read_shifted_data data_positions ;;
  distance_to_redshift <- make_distance_to_redshift distance ;;
  catalog <- write_data distance_to_redshift data data_positions_rec ;;
  write_randoms distance_to_redshift
    (catalog, randoms_positions, randoms_weights).
End RunReconstruction.

(* ===================================================================== *)
(** ** The command-line driver ([__main__])                               *)
(* ===================================================================== *)

(** The namespace returned by [parser.parse_args()]; an option that
    defaults to [None] is [None] when it is not supplied. *)
Record arguments : Type := ParsedArguments {
  arg_tracer : string;
  arg_indir : string;
  arg_region : list string;
  arg_zlim : option (list string);
  arg_weight_type : string;
  arg_nran : Z;
  arg_nthreads : Z;
  arg_outdir : string;
  arg_algorithm : string;
  arg_convention : string;
  arg_f : option pyfloat;
  arg_bias : option pyfloat;
  arg_boxsize : option pyfloat;
  arg_nmesh : option Z;
  arg_cellsize : pyfloat;
  arg_smoothing_radius : pyfloat;
  arg_abs_maglim : option pyfloat;
  arg_app_maglim : option pyfloat
}.

(** Lines 137-141: the dictionary from [--algorithm] to the class, and
    its lookup. *)
Definition reconstruction_of_algorithm (algorithm : string)
  : result reconstruction_class :=
  if String.eqb algorithm "MG" then Ok MultiGridReconstruction
  else if String.eqb algorithm "IFT" then Ok IterativeFFTReconstruction
  else if String.eqb algorithm "IFTP" then Ok IterativeFFTParticleReconstruction
  else Raised "KeyError".

(** Lines 148-151. *)
Definition resolve_bias (args : arguments) : pyfloat :=
  match arg_bias args with
  | Some b => b
  | None => get_bias (arg_tracer args)
  end.

(** A list comprehension whose element expression makes a call. *)
Fixpoint comprehension {X Y : Type} (f : X -> prog Y) (l : list X)
  : prog (list Y) :=
  match l with
  | [] => Ret []
  | x :: rest => y <- f x ;; ys <- comprehension f rest ;; Ret (y :: ys)
  end.

(** [[(zlims[0], zlims[-1])]]; indexing an empty list raises. *)
Definition first_and_last (zlims : list pyfloat)
  : result (list (pyfloat * pyfloat)) :=
  match zlims with
  | [] => Raised "IndexError"
  | z0 :: rest => Ok [(z0, last rest z0)]
  end.

(** Lines 156-160. *)
Definition resolve_zlims (args : arguments) : prog (list (pyfloat * pyfloat)) :=
  zlims <- match arg_zlim args with
           | Some l => comprehension py_float l
           | None => get_z_cutsky (arg_tracer args)
           end ;;
  lift (first_and_last zlims).

Definition opt_float (x : option pyfloat) : kwvalue :=
  match x with
  | Some v => KwFloat v
  | None => KwNone
  end.

(** The keywords lines 182-183 pass on to the catalog reader. *)
Definition reader_kwargs (args : arguments) (zmin zmax : pyfloat)
    (region : string) : kwargs :=
  [ ("zlim", KwPair zmin zmax);
    ("region", KwStr region);
    ("weight_type", KwStr (arg_weight_type args));
    ("abs_maglim", opt_float (arg_abs_maglim args));
    ("app_maglim", opt_float (arg_app_maglim args)) ].

(** Lines 169-184: one region of one redshift range. *)
Definition run_region (args : arguments) (mpicomm : option communicator)
    (Reconstruction : reconstruction_class) (distance : callable)
    (bias f zmin zmax : pyfloat) (region : string) : prog unit :=
  (if is_root mpicomm
   then logger_info (Running region (zmin, zmax) f bias)
   else Ret tt) ;;
  data_fn <- catalog_fn
    {| cf_tracer := arg_tracer args; cf_mock_type := Some "cutsky";
       cf_cat_dir := None; cf_rec_type := None; cf_name := None;
       cf_region := None; cf_nrandoms := None |} ;;
  randoms_fn <- catalog_fn_randoms
    {| cf_tracer := arg_tracer args; cf_mock_type := Some "cutsky";
       cf_cat_dir := None; cf_rec_type := None; cf_name := Some "randoms";
       cf_region := None; cf_nrandoms := Some (arg_nran args) |} ;;
  data_rec_fn <- catalog_fn
    {| cf_tracer := arg_tracer args; cf_mock_type := None;
       cf_cat_dir := Some (arg_outdir args);
       cf_rec_type := Some (arg_algorithm args ++ arg_convention args)%string;
       cf_name := Some "data"; cf_region := Some region;
       cf_nrandoms := Some (arg_nran args) |} ;;
  randoms_rec_fn <- catalog_fn_randoms
    {| cf_tracer := arg_tracer args; cf_mock_type := None;
       cf_cat_dir := Some (arg_outdir args);
       cf_rec_type := Some (arg_algorithm args ++ arg_convention args)%string;
       cf_name := Some "randoms"; cf_region := Some region;
       cf_nrandoms := Some (arg_nran args) |} ;;
  run_reconstruction Reconstruction distance data_fn randoms_fn data_rec_fn
    randoms_rec_fn f bias (arg_boxsize args) (arg_nmesh args)
    (arg_cellsize args) (arg_smoothing_radius args) (arg_nthreads args)
    (arg_convention args) "f8" mpicomm
    (reader_kwargs args zmin zmax region).

(** Lines 164-184: one redshift range. *)
Definition run_zlim (args : arguments) (mpicomm : option communicator)
    (Reconstruction : reconstruction_class) (distance : callable)
    (bias zbox : pyfloat) (zlim : pyfloat * pyfloat) : prog unit :=
  let '(zmin, zmax) := zlim in
  f <- match arg_f args with
       | Some f => Ret f
       | None => get_f_reconstruction zbox (zmin, zmax) "cutsky"
       end ;;
  for_each (fun region _ =>
              run_region args mpicomm Reconstruction distance bias f zmin zmax
                region)
    (arg_region args) tt.

Definition main (args : arguments) : prog unit :=
  mpicomm <- mpi_COMM_WORLD ;;
  let root := is_root mpicomm in
  setup_logging ;;
  Reconstruction <- lift (reconstruction_of_algorithm (arg_algorithm args)) ;;
  let cat_dir := arg_indir args in
  let out_dir := arg_outdir args in
  (if root then logger_info (InputDirectory cat_dir) else Ret tt) ;;
  (if root then logger_info (OutputDirectory out_dir) else Ret tt) ;;
  let bias := resolve_bias args in
  zbox <- get_z_cubicbox (arg_tracer args) ;;
  zlims <- resolve_zlims args ;;
  distance <- DESI_comoving_radial_distance ;;
  for_each (fun zlim _ =>
              run_zlim args mpicomm Reconstruction distance bias zbox zlim)
    zlims tt.

(* ===================================================================== *)
(** ** A small world to run the driver in                                 *)
(* ===================================================================== *)

(** A simulated outside world, for running the programs above on
    concrete inputs: files are tables kept by name, the catalog reader
    selects the rows flagged in a boolean column ["SEL"] (all rows when
    there is none), distances are twice the redshift, Cartesian
    positions are the triple [(dist, ra, dec)] itself, and the
    reconstruction adds [sim_shift] to the first coordinate of what it
    is asked to shift. *)
Module Sim.

Record state : Type := State {
  files : list (string * table);
  comm : option communicator;
  assigned_data : option positions;
  sim_shift : pyfloat
}.

Fixpoint lookup_file (fn : string) (fs : list (string * table))
  : option table :=
  match fs with
  | [] => None
  | (n, t) :: rest => if String.eqb n fn then Some t else lookup_file fn rest
  end.

Definition float_column (name : string) (t : table) : farray :=
  match get_column name t with
  | Some (FloatCol v) => v
  | _ => []
  end.

Definition row_mask (t : table) : list bool :=
  match get_column "SEL" t with
  | Some (BoolCol v) => v
  | _ => repeat true (nrows t)
  end.

Definition read_catalog (fn : string) (w : state)
  : result (triple * farray * list bool) :=
  match lookup_file fn (files w) with
  | None => Raised "FileNotFoundError"
  | Some t =>
      let mask := row_mask t in
      let col name := select mask (float_column name t) in
      Ok (col "RA", col "DEC", col "Z",
          repeat 1%float (length (col "RA")), mask)
  end.

Definition to_cartesian (dist ra dec : farray) : positions :=
  combine (combine dist ra) dec.

Definition to_sky (p : positions) : triple :=
  (map (fun x => fst (fst x)) p, map (fun x => snd (fst x)) p,
   map (fun x => snd x) p).

Definition shifted (w : state) (p : option positions) : option positions :=
  option_map
    (map (fun x => (PrimFloat.add (fst (fst x)) (sim_shift w),
                    snd (fst x), snd x))) p.

Definition parse_float (s : string) : result pyfloat :=
  if String.eqb s "0.4" then Ok 0.4%float
  else if String.eqb s "0.8" then Ok 0.8%float
  else if String.eqb s "1.1" then Ok 1.1%float
  else if String.eqb s "1.6" then Ok 1.6%float
  else Raised "ValueError".

(** [in/ELG_data.fits], [out/ELG_randoms_NGC_IFTreciso.fits], ... *)
Definition file_name (a : catalog_fn_args) : string :=
  (match cf_cat_dir a with Some d => d | None => "in/" end
   ++ cf_tracer a ++ "_"
   ++ match cf_name a with Some n => n | None => "data" end
   ++ match cf_region a with Some x => "_" ++ x | None => "" end
   ++ match cf_rec_type a with Some x => "_" ++ x | None => "" end)%string.

Definition with_files (w : state) (fs : list (string * table)) : state :=
  {| files := fs; comm := comm w; assigned_data := assigned_data w;
     sim_shift := sim_shift w |}.

Definition with_data (w : state) (p : option positions) : state :=
  {| files := files w; comm := comm w; assigned_data := p;
     sim_shift := sim_shift w |}.

Definition world (c : call) (w : state) : result (answer c) * state :=
  match c return result (answer c) * state with
  | LoggerInfo _ => (Ok tt, w)
  | TableRead fn =>
      match lookup_file fn (files w) with
      | Some t => (Ok t, w)
      | None => (Raised "FileNotFoundError", w)
      end
  | ReadPositionsWeightsCutsky fn true _ => (read_catalog fn w, w)
  | ReadPositionsWeightsCutsky fn false _ =>
      match read_catalog fn w with
      | Ok (pos, wts, _) => (Ok (pos, wts), w)
      | Raised e => (Raised e, w)
      end
  | Distance _ z => (Ok (map (PrimFloat.mul 2%float) z), w)
  | SkyToCartesian dist ra dec _ => (Ok (to_cartesian dist ra dec), w)
  | Construct _ _ => (Ok tt, w)
  | AssignData p _ => (Ok tt, with_data w p)
  | AssignRandoms _ _ => (Ok tt, w)
  | SetDensityContrast _ => (Ok tt, w)
  | Run => (Ok tt, w)
  | ReadShiftedPositions (Tag _) _ => (Ok (shifted w (assigned_data w)), w)
  | ReadShiftedPositions (Array p) _ => (Ok (shifted w p), w)
  | MakeDistanceToRedshift (Callable name) =>
      (Ok (Callable ("DistanceToRedshift(" ++ name ++ ")")), w)
  | DistanceToRedshift _ dist =>
      (Ok (map (fun d => PrimFloat.div d 2%float) dist), w)
  | CartesianToSky (Some p) => (Ok (to_sky p), w)
  | CartesianToSky None => (Raised "TypeError", w)
  | Mkdir _ => (Ok tt, w)
  | TableWrite t fn _ _ => (Ok tt, with_files w ((fn, t) :: files w))
  | MpiCommWorld => (Ok (comm w), w)
  | SetupLogging => (Ok tt, w)
  | GetZCubicbox _ => (Ok 0.8%float, w)
  | ParseFloat s => (parse_float s, w)
  | GetZCutsky _ => (Ok [0.8%float; 1.1%float; 1.6%float], w)
  | DesiComovingRadialDistance =>
      (Ok (Callable "DESI().comoving_radial_distance"), w)
  | GetFReconstruction _ _ _ => (Ok 0.9%float, w)
  | CatalogFn a => (Ok (file_name a ++ ".fits")%string, w)
  | CatalogFnRandoms a =>
      (Ok (PyList [(file_name a ++ "_0.fits")%string;
                   (file_name a ++ "_1.fits")%string]), w)
  end.

(** Two small catalogs. *)
Definition data_table : table :=
  [ ("RA", FloatCol [10%float; 20%float; 30%float]);
    ("DEC", FloatCol [1%float; 2%float; 3%float]);
    ("Z", FloatCol [0.5%float; 0.75%float; 1%float]);
    ("TARGETID", IntCol [7%Z; 8%Z; 9%Z]);
    ("SEL", BoolCol [true; false; true]) ].

Definition randoms_table : table :=
  [ ("RA", FloatCol [11%float; 21%float]);
    ("DEC", FloatCol [4%float; 5%float]);
    ("Z", FloatCol [0.25%float; 0.5%float]);
    ("TARGETID", IntCol [1%Z; 2%Z]) ].

Definition initial (c : option communicator) (shift : pyfloat) : state :=
  {| files := [ ("data.fits", data_table); ("ran0.fits", randoms_table);
                ("ran1.fits", randoms_table);
                ("in/ELG_data.fits", data_table);
                ("in/ELG_randoms_0.fits", randoms_table);
                ("in/ELG_randoms_1.fits", randoms_table) ];
     comm := c; assigned_data := None; sim_shift := shift |}.

(** A call of [run_reconstruction] on those files. *)
Definition kw : kwargs := [("zlim", KwPair 0.4%float 1.1%float)].

Definition distance : callable := Callable "distance".

Definition program (cls : reconstruction_class)
    (randoms_fn randoms_rec_fn : str_or_list) (convention : string)
    (c : option communicator) : prog unit :=
  run_reconstruction cls distance "data.fits" randoms_fn "out/data_rec.fits"
    randoms_rec_fn 0.9%float 1.2%float None None 4%float 15%float 64%Z
    convention "f8" c kw.

Definition run (cls : reconstruction_class)
    (randoms_fn randoms_rec_fn : str_or_list) (convention : string)
    (c : option communicator) (shift : pyfloat)
  : result unit * trace * state :=
  interp world (program cls randoms_fn randoms_rec_fn convention c)
    (initial c shift).

Definition two_randoms : str_or_list := PyList ["ran0.fits"; "ran1.fits"].
Definition two_outputs : str_or_list := PyList ["out/r0.fits"; "out/r1.fits"].

Definition cli (zlim : option (list string)) (bias : option pyfloat)
    (algorithm convention : string) : arguments :=
  {| arg_tracer := "ELG"; arg_indir := "in"; arg_region := ["NGC"];
     arg_zlim := zlim; arg_weight_type := "FKP"; arg_nran := 2%Z;
     arg_nthreads := 64%Z; arg_outdir := "out/";
     arg_algorithm := algorithm; arg_convention := convention;
     arg_f := None; arg_bias := bias; arg_boxsize := None;
     arg_nmesh := None; arg_cellsize := 7%float;
     arg_smoothing_radius := 15%float; arg_abs_maglim := None;
     arg_app_maglim := None |}.

Definition run_main (args : arguments) (c : option communicator)
  : result unit * trace * state :=
  interp world (main args) (initial c 0%float).

End Sim.

(* ===================================================================== *)
(** ** Vocabulary of the statements                                       *)
(* ===================================================================== *)

(** Every event of every run of [m] satisfies [P], and every value [m]
    returns satisfies [Q]. *)
Definition always {A : Type} (P : event -> Prop) (Q : A -> Prop) (m : prog A)
  : Prop :=
  forall tr r, runs m tr r ->
    Forall P tr /\ (forall a, r = Ok a -> Q a).

(** Every call of every run of [m] satisfies [P]. *)
Definition everywhere {A : Type} (P : call -> Prop) (m : prog A) : Prop :=
  always (fun e => P (ev_call e)) (fun _ => True) m.

(** The part of a run seen through [view], which keeps of each call
    what a statement is about. *)
Definition seen {X : Type} (view : call -> list X) (tr : trace) : list X :=
  flat_map (fun e => view (ev_call e)) tr.

(** [emits view m L]: seen through [view], every run of [m] makes the
    calls [L] in that order; a run that raises stops somewhere along
    [L]. *)
Definition emits {X A : Type} (view : call -> list X) (m : prog A)
    (L : list X) : Prop :=
  forall tr r, runs m tr r ->
    (exists rest, L = seen view tr ++ rest) /\
    (is_ok r = true -> seen view tr = L).

(** The steps of the life cycle of a reconstruction object, and the
    serialization of a catalog. *)
Inductive step : Type :=
| SConstruct
| SAssignData
| SAssignRandoms
| SSetDensityContrast
| SRun
| SReadShifted
| SSerialize.

Definition lifecycle_step (c : call) : list step :=
  match c with
  | Construct _ _ => [SConstruct]
  | AssignData _ _ => [SAssignData]
  | AssignRandoms _ _ => [SAssignRandoms]
  | SetDensityContrast _ => [SSetDensityContrast]
  | Run => [SRun]
  | ReadShiftedPositions _ _ => [SReadShifted]
  | TableWrite _ _ _ _ => [SSerialize]
  | _ => []
  end.

(** The number of random catalogs the second loop goes through. *)
Definition randoms_outputs (randoms_fn randoms_rec_fn : str_or_list)
    (convention : string) : nat :=
  if String.eqb convention "rsd" then 0
  else Nat.min (length (randoms_fn_list randoms_fn))
               (length (py_iter randoms_rec_fn)).

(** What a statement keeps of a read of shifted positions: the tag when
    the positions are named by a tag, [None] when an array is passed,
    and the field. *)
Definition read_view (c : call) : list (option string * string) :=
  match c with
  | ReadShiftedPositions (Tag name) field => [(Some name, field)]
  | ReadShiftedPositions (Array _) field => [(None, field)]
  | _ => []
  end.

(** The files written. *)
Definition write_view (c : call) : list string :=
  match c with
  | TableWrite _ fn _ _ => [fn]
  | _ => []
  end.

(** The catalogs read for output: [Table.read(fn)] and the reader called
    with [return_mask=True]. *)
Definition readback_view (c : call) : list string :=
  match c with
  | TableRead fn => [fn]
  | ReadPositionsWeightsCutsky fn true _ => [fn]
  | _ => []
  end.

(** What a rank other than the root may call: no catalog is read or
    written, no directory is made, and the reconstruction object is
    constructed and fed with [None] positions and weights. *)
Definition off_root_call (c : call) : Prop :=
  match c with
  | TableRead _ => False
  | ReadPositionsWeightsCutsky _ _ _ => False
  | TableWrite _ _ _ _ => False
  | Mkdir _ => False
  | Construct _ a => ca_positions a = None
  | AssignData p w => p = None /\ w = None
  | AssignRandoms p w => p = None /\ w = None
  | _ => True
  end.

(** The loop locals off the root rank: all unset. *)
Definition no_locals (s : loop_locals) : Prop := s = (None, None, None).

(** [each_after P before tr]: every event of [tr] satisfies [P], given
    the events before it ([before], then the earlier events of [tr]). *)
Fixpoint each_after (P : trace -> event -> Prop) (before tr : trace) : Prop :=
  match tr with
  | [] => True
  | e :: tr' => P before e /\ each_after P (before ++ [e]) tr'
  end.

(** Every row of the column holds [v]: a float column of [v]s, or a
    column of another dtype filled with [v]. *)
Definition every_row (v : pyfloat) (c : column) : Prop :=
  match c with
  | FloatCol l => l = repeat v (length l)
  | FilledCol _ v' => v' = v
  | _ => False
  end.

(** The column [c] holds the array [values] assigned to it: it is the
    float column [values], or [values] has one entry and every row of
    [c] holds it. *)
Definition holds (values : farray) (c : column) : Prop :=
  c = FloatCol values \/ exists v, values = [v] /\ every_row v c.

(** Every column of the table has [n] rows. *)
Definition rectangular (n : nat) (t : table) : Prop :=
  Forall (fun nc => column_length (snd nc) = n) t.

(** What a written catalog went through: the file and table it was read
    from, the sky coordinates, weights and mask the reader returned, the
    distances and Cartesian positions computed from them, the read of
    shifted positions and its answer, the object
    [utils.DistanceToRedshift(distance)] answered, and the sky
    coordinates and redshifts converted back. *)
Record conversion : Type := Conversion {
  cv_fn : string;
  cv_table : table;
  cv_ra : farray;
  cv_dec : farray;
  cv_z : farray;
  cv_weights : farray;
  cv_mask : list bool;
  cv_dist : farray;
  cv_positions : positions;
  cv_source : shift_source;
  cv_field : string;
  cv_shifted : option positions;
  cv_inverse : callable;
  cv_dist_rec : farray;
  cv_ra_rec : farray;
  cv_dec_rec : farray;
  cv_z_rec : farray
}.

(** The calls that load a catalog for output, with their answers. *)
Definition loading (distance : callable) (kw : kwargs) (dtype : string)
    (cv : conversion) : trace :=
  [ Event (TableRead (cv_fn cv)) (Ok (cv_table cv));
    Event (ReadPositionsWeightsCutsky (cv_fn cv) true kw)
      (Ok (cv_ra cv, cv_dec cv, cv_z cv, cv_weights cv, cv_mask cv));
    Event (Distance distance (cv_z cv)) (Ok (cv_dist cv));
    Event (SkyToCartesian (cv_dist cv) (cv_ra cv) (cv_dec cv) dtype)
      (Ok (cv_positions cv)) ].

(** The read of shifted positions. *)
Definition shifting (cv : conversion) : event :=
  Event (ReadShiftedPositions (cv_source cv) (cv_field cv)) (Ok (cv_shifted cv)).

(** The calls that convert shifted positions back and prepare the write
    of [out]. *)
Definition saving (cv : conversion) (out : string) : trace :=
  [ Event (CartesianToSky (cv_shifted cv))
      (Ok (cv_dist_rec cv, cv_ra_rec cv, cv_dec_rec cv));
    Event (DistanceToRedshift (cv_inverse cv) (cv_dist_rec cv))
      (Ok (cv_z_rec cv));
    Event (LoggerInfo (Saving out)) (Ok tt);
    Event (Mkdir (dirname out)) (Ok tt) ].

(** The events before the write of the data catalog: it is loaded, the
    reconstruction is constructed, fed ([mid] holds the loading and
    assignment of the randoms) and run, the data positions are read
    shifted, by tag or by array, the inverse of [distance] is made, and
    the positions are converted back. *)
Definition before_data_write (distance : callable) (kw : kwargs)
    (dtype : string) (cv : conversion) (out : string) (before : trace)
  : Prop :=
  exists cls args smoothing_radius mid,
    before =
      [Event (LoggerInfo (Loading (cv_fn cv))) (Ok tt)]
        ++ loading distance kw dtype cv
        ++ [Event (Construct cls args) (Ok tt);
            Event (AssignData (Some (cv_positions cv)) (Some (cv_weights cv)))
              (Ok tt)]
        ++ mid
        ++ [Event (SetDensityContrast smoothing_radius) (Ok tt);
            Event Run (Ok tt);
            shifting cv;
            Event (MakeDistanceToRedshift distance) (Ok (cv_inverse cv))]
        ++ saving cv out
    /\ (cv_source cv = Tag "data"
        \/ cv_source cv = Array (Some (cv_positions cv))).

(** The events before the write of a randoms catalog: the last ones are
    its loading, the read of its shifted positions and their conversion;
    the inverse of [distance] was made earlier. *)
Definition before_randoms_write (distance : callable) (kw : kwargs)
    (dtype : string) (cv : conversion) (out : string) (before : trace)
  : Prop :=
  exists earlier,
    before = earlier ++ loading distance kw dtype cv ++ [shifting cv]
               ++ saving cv out
    /\ In (Event (MakeDistanceToRedshift distance) (Ok (cv_inverse cv)))
         earlier
    /\ cv_source cv = Array (Some (cv_positions cv)).

(** The catalog [T] written to [out] after the events [before]: the
    table read, restricted to the mask of the reader, with the columns
    [RA], [DEC] and [Z] set to the coordinates converted back. *)
Definition written_from (distance : callable) (kw : kwargs) (dtype : string)
    (before : trace) (T : table) (out : string) (cv : conversion) : Prop :=
  (before_data_write distance kw dtype cv out before
   \/ before_randoms_write distance kw dtype cv out before)
  /\ exists selected,
       table_getitem_mask (cv_table cv) (cv_mask cv) = Ok selected
       /\ set_sky_columns selected (cv_ra_rec cv) (cv_dec_rec cv) (cv_z_rec cv)
          = Ok T.

Definition well_written (distance : callable) (kw : kwargs) (dtype : string)
    (before : trace) (e : event) : Prop :=
  match ev_call e with
  | TableWrite T out format overwrite =>
      format = "fits" /\ overwrite = true
      /\ exists cv, written_from distance kw dtype before T out cv
  | _ => True
  end.








(** The calls that resolve the redshift limits. *)
Definition resolve_view (c : call) : list call :=
  match c with
  | ParseFloat _ => [c]
  | GetZCutsky _ => [c]
  | _ => []
  end.

(** The values those calls answered, in order. *)
Definition resolved_by (e : event) : list pyfloat :=
  match e with
  | Event c o =>
      match c return result (answer c) -> list pyfloat with
      | ParseFloat _ => fun o => match o with Ok x => [x] | Raised _ => [] end
      | GetZCutsky _ => fun o => match o with Ok l => l | Raised _ => [] end
      | _ => fun _ => []
      end o
  end.

Definition resolved_values (tr : trace) : list pyfloat :=
  flat_map resolved_by tr.

(** The redshift range a call is made for: the growth-rate lookup, the
    message logged for a region, and the [zlim] keyword passed to the
    catalog reader. *)
Definition range_view (c : call) : list (pyfloat * pyfloat) :=
  match c with
  | GetFReconstruction _ zlim _ => [zlim]
  | LoggerInfo (Running _ zrange _ _) => [zrange]
  | ReadPositionsWeightsCutsky _ _ (("zlim", KwPair zmin zmax) :: _) =>
      [(zmin, zmax)]
  | _ => []
  end.

(** The growth-rate lookups, one per range processed when [--f] is not
    supplied. *)
Definition growth_view (c : call) : list (pyfloat * pyfloat) :=
  match c with
  | GetFReconstruction _ zlim _ => [zlim]
  | _ => []
  end.

(** Every call answered: the outside world raised nothing. *)
Definition answered (e : event) : bool := is_ok (ev_outcome e).





(** The class a constructor call is made on is the one looked up for
    [--algorithm]. *)
Definition selects_class (args : arguments) (c : call) : Prop :=
  match c with
  | Construct cls _ => reconstruction_of_algorithm (arg_algorithm args) = Ok cls
  | _ => True
  end.

(** Where the array [p] passed to a read of shifted positions comes
    from, given the events before the read.  On the root rank the first
    read of a call, the data's, passes the array passed to
    [assign_data], and a later read passes the positions
    [sky_to_cartesian] has just answered; on another rank the array is
    [None]. *)
Definition array_from (dtype : string) (on_root : bool) (before : trace)
    (p : option positions) : Prop :=
  if on_root then
    match seen read_view before with
    | [] => exists w, In (Event (AssignData p w) (Ok tt)) before
    | _ :: _ =>
        exists earlier dist ra dec q,
          before = earlier ++ [Event (SkyToCartesian dist ra dec dtype) (Ok q)]
          /\ p = Some q
    end
  else p = None.

Definition array_read_from (dtype : string) (on_root : bool)
    (before : trace) (e : event) : Prop :=
  match ev_call e with
  | ReadShiftedPositions (Array p) _ => array_from dtype on_root before p
  | _ => True
  end.

(** In the driver a read by tag is made under [--algorithm IFTP] only. *)
Definition tag_for_IFTP (args : arguments) (c : call) : Prop :=
  match c with
  | ReadShiftedPositions (Tag name) _ =>
      name = "data" /\ arg_algorithm args = "IFTP"
  | _ => True
  end.

(** The bias every constructor call of a run carries. *)
Definition constructs_with_bias (b : pyfloat) (c : call) : Prop :=
  match c with
  | Construct _ a => ca_bias a = b
  | _ => True
  end.

(* ===================================================================== *)
(** ** Vocabulary of the further properties                               *)
(* ===================================================================== *)

(* --------------------------------------------------------------------- *)
(** *** The catalog files a call of [run_reconstruction] goes through     *)
(* --------------------------------------------------------------------- *)

(** The accesses to catalog files: [Table.read(fn)], the catalog reader
    called on [fn] with its [return_mask] flag and keywords, and
    [catalog.write(fn, ...)]. *)
Inductive file_access : Type :=
| Opened (fn : string)
| Selected (fn : string) (return_mask : bool) (kw : kwargs)
| Written (fn : string).

Definition io_view (c : call) : list file_access :=
  match c with
  | TableRead fn => [Opened fn]
  | ReadPositionsWeightsCutsky fn return_mask kw => [Selected fn return_mask kw]
  | TableWrite _ fn _ _ => [Written fn]
  | _ => []
  end.

(** The accesses of a call on the root rank, in order: the data catalog
    is opened and selected with its mask; every random catalog is
    selected without mask; the data catalog is written; then, unless the
    convention is ['rsd'], every pair of [zip(randoms_fn, randoms_rec_fn)]
    has its first file opened and selected with its mask and its second
    file written. *)
Definition catalog_accesses (data_fn : string) (randoms_fn : str_or_list)
    (data_rec_fn : string) (randoms_rec_fn : str_or_list)
    (convention : string) (kw : kwargs) : list file_access :=
  [Opened data_fn; Selected data_fn true kw]
    ++ map (fun fn => Selected fn false kw)
         (randoms_fn_list randoms_fn)
    ++ [Written data_rec_fn]
    ++ (if String.eqb convention "rsd" then []
        else flat_map (fun p => [Opened (fst p); Selected (fst p) true kw;
                                 Written (snd p)])
               (zip (randoms_fn_list randoms_fn) (py_iter randoms_rec_fn))).

(** The files a call of [run_reconstruction] may touch: it reads from
    [inputs] only, and writes to, and makes the directory of, [outputs]
    only. *)
Definition touches (inputs outputs : list string) (c : call) : Prop :=
  match c with
  | TableRead fn => In fn inputs
  | ReadPositionsWeightsCutsky fn _ _ => In fn inputs
  | TableWrite _ fn _ _ => In fn outputs
  | Mkdir dir => exists fn, In fn outputs /\ dir = dirname fn
  | _ => True
  end.

(* --------------------------------------------------------------------- *)
(** *** What the reconstruction object is fed with                        *)
(* --------------------------------------------------------------------- *)

(** What is loaded of a catalog for the reconstruction: the sky
    coordinates and weights the reader returned, the distances and the
    Cartesian positions computed from them. *)
Record loaded : Type := Loaded {
  ld_ra : farray;
  ld_dec : farray;
  ld_z : farray;
  ld_weights : farray;
  ld_dist : farray;
  ld_positions : positions
}.

(** Lines 34-35 and 52-53, with their answers. *)
Definition converting (distance : callable) (dtype : string) (ld : loaded)
  : trace :=
  [ Event (Distance distance (ld_z ld)) (Ok (ld_dist ld));
    Event (SkyToCartesian (ld_dist ld) (ld_ra ld) (ld_dec ld) dtype)
      (Ok (ld_positions ld)) ].

(** Lines 30-35, with their answers. *)
Definition loading_data (distance : callable) (kw : kwargs)
    (dtype fn : string) (T : table) (mask : list bool) (ld : loaded) : trace :=
  [ Event (LoggerInfo (Loading fn)) (Ok tt);
    Event (TableRead fn) (Ok T);
    Event (ReadPositionsWeightsCutsky fn true kw)
      (Ok (ld_ra ld, ld_dec ld, ld_z ld, ld_weights ld, mask)) ]
    ++ converting distance dtype ld.

(** Lines 50-53, with their answers. *)
Definition loading_randoms (distance : callable) (kw : kwargs)
    (dtype fn : string) (ld : loaded) : trace :=
  [ Event (LoggerInfo (Loading fn)) (Ok tt);
    Event (ReadPositionsWeightsCutsky fn false kw)
      (Ok (ld_ra ld, ld_dec ld, ld_z ld, ld_weights ld)) ]
    ++ converting distance dtype ld.

(** The calls of [assign_randoms]. *)
Definition assign_view (c : call) : list unit :=
  match c with
  | AssignRandoms _ _ => [tt]
  | _ => []
  end.

(** The calls that feed the reconstruction object. *)
Definition feed_view (c : call) : list unit :=
  match c with
  | AssignData _ _ => [tt]
  | AssignRandoms _ _ => [tt]
  | _ => []
  end.

(** What [assign_data] is passed after the events [before]: the
    positions the object has just been constructed on.  On the root
    rank these are the positions loaded from the data catalog, passed
    with the weights the reader returned, and nothing has happened but
    the loading and the construction; on another rank both are [None]
    and nothing has happened but the construction. *)
Definition data_assigned_from (distance : callable) (kw : kwargs)
    (dtype data_fn : string) (cls : reconstruction_class) (on_root : bool)
    (before : trace) (p : option positions) (w : option farray) : Prop :=
  exists a,
    ca_positions a = p
    /\ if on_root then
         exists T mask ld,
           before = loading_data distance kw dtype data_fn T mask ld
                      ++ [Event (Construct cls a) (Ok tt)]
           /\ p = Some (ld_positions ld) /\ w = Some (ld_weights ld)
       else before = [Event (Construct cls a) (Ok tt)] /\ p = None /\ w = None.

(** What [assign_randoms] is passed on the root rank after the events
    [before]: the positions and weights just loaded from the catalog
    whose place in [randoms] is the number of [assign_randoms] calls
    made so far. *)
Definition randoms_assigned_from (distance : callable) (kw : kwargs)
    (dtype : string) (randoms : list string) (before : trace)
    (p : option positions) (w : option farray) : Prop :=
  exists fn earlier ld,
    nth_error randoms (length (seen assign_view before)) = Some fn
    /\ before = earlier ++ loading_randoms distance kw dtype fn ld
    /\ p = Some (ld_positions ld) /\ w = Some (ld_weights ld).

Definition fed_from (distance : callable) (kw : kwargs) (dtype data_fn : string)
    (randoms : list string) (cls : reconstruction_class) (on_root : bool)
    (before : trace) (e : event) : Prop :=
  match ev_call e with
  | AssignData p w =>
      data_assigned_from distance kw dtype data_fn cls on_root before p w
  | AssignRandoms p w =>
      on_root = true -> randoms_assigned_from distance kw dtype randoms before p w
  | _ => True
  end.

(* --------------------------------------------------------------------- *)
(** *** The calls every rank makes                                        *)
(* --------------------------------------------------------------------- *)

(** The calls on the reconstruction object, without the arrays passed
    to them. *)
Inductive collective : Type :=
| CConstruct (cls : reconstruction_class)
| CAssignData
| CAssignRandoms
| CSetDensityContrast (smoothing_radius : pyfloat)
| CRun
| CReadShifted (tag : option string) (field : string).

Definition collective_view (c : call) : list collective :=
  match c with
  | Construct cls _ => [CConstruct cls]
  | AssignData _ _ => [CAssignData]
  | AssignRandoms _ _ => [CAssignRandoms]
  | SetDensityContrast smoothing_radius => [CSetDensityContrast smoothing_radius]
  | Run => [CRun]
  | ReadShiftedPositions (Tag name) field => [CReadShifted (Some name) field]
  | ReadShiftedPositions (Array _) field => [CReadShifted None field]
  | _ => []
  end.

(** Those calls, in the order of a call of [run_reconstruction]. *)
Definition collective_calls (cls : reconstruction_class)
    (randoms_fn randoms_rec_fn : str_or_list) (smoothing_radius : pyfloat)
    (convention : string) : list collective :=
  [CConstruct cls; CAssignData]
    ++ repeat CAssignRandoms (length (randoms_fn_list randoms_fn))
    ++ [CSetDensityContrast smoothing_radius; CRun;
        CReadShifted (if is_particle cls then Some "data" else None)
          (if String.eqb convention "rsd" then "rsd" else "disp+rsd")]
    ++ repeat (CReadShifted None
                 (if String.eqb convention "recsym" then "disp+rsd" else "disp"))
         (randoms_outputs randoms_fn randoms_rec_fn convention).

(* --------------------------------------------------------------------- *)
(** *** Where an exception comes from                                     *)
(* --------------------------------------------------------------------- *)

(** Where an exception [e] that ends a run comes from: the last call
    raised it; or the run is on the root rank and stops after the
    reader has returned a mask ([catalog[mask]] raises [IndexError]); or
    it is on the root rank and stops after the redshifts have been
    computed (an assignment to a column raises [ValueError]). *)
Definition raised_where (on_root : bool) (tr : trace) (e : exn) : Prop :=
  (exists pre c, tr = pre ++ [Event c (Raised e)])
  \/ (on_root = true /\ e = "IndexError"
      /\ exists pre fn kw a,
           tr = pre ++ [Event (ReadPositionsWeightsCutsky fn true kw) (Ok a)])
  \/ (on_root = true /\ e = "ValueError"
      /\ exists pre distance_to_redshift dist z,
           tr = pre
                  ++ [Event (DistanceToRedshift distance_to_redshift dist)
                        (Ok z)]).

(* --------------------------------------------------------------------- *)
(** *** The driver                                                        *)
(* --------------------------------------------------------------------- *)

(** The communicator [mpi.COMM_WORLD] answered, when the run starts
    with that answer. *)
Definition world_communicator (tr : trace) : option (option communicator) :=
  match tr with
  | Event c o :: _ =>
      match c return result (answer c) -> option (option communicator) with
      | MpiCommWorld => fun o => match o with Ok a => Some a | Raised _ => None end
      | _ => fun _ => None
      end o
  | [] => None
  end.

(** What a rank other than the root does in the driver: it logs
    nothing, touches no catalog, converts no coordinates, and hands
    [None] to the reconstruction object wherever the root hands arrays. *)
Definition bystander_call (c : call) : Prop :=
  match c with
  | LoggerInfo _ => False
  | TableRead _ => False
  | ReadPositionsWeightsCutsky _ _ _ => False
  | Distance _ _ => False
  | SkyToCartesian _ _ _ _ => False
  | CartesianToSky _ => False
  | DistanceToRedshift _ _ => False
  | Mkdir _ => False
  | TableWrite _ _ _ _ => False
  | Construct _ a => ca_positions a = None
  | AssignData p w => p = None /\ w = None
  | AssignRandoms p w => p = None /\ w = None
  | ReadShiftedPositions (Array p) _ => p = None
  | _ => True
  end.

(** What the driver does for a region: it asks for the name of the
    output data catalog of the region, and later constructs a
    reconstruction object. *)
Inductive driver_step : Type :=
| Named (region : string)
| Constructed.

Definition driver_view (c : call) : list driver_step :=
  match c with
  | CatalogFn a =>
      match cf_region a with
      | Some region => [Named region]
      | None => []
      end
  | Construct _ _ => [Constructed]
  | _ => []
  end.

(** The fields a read of shifted positions may carry under a convention
    the command line accepts. *)
Definition reads_field_of (convention : string) (c : call) : Prop :=
  match c with
  | ReadShiftedPositions _ field =>
      field = "disp+rsd" \/ (field = "disp" /\ convention = "reciso")
  | _ => True
  end.

(** Where the growth rate [f] of a constructor call of the driver comes
    from, given the events before the call: [--f], or else the answer
    of a growth-rate lookup made for the redshift of the box that
    [get_z_cubicbox] answered. *)
Definition growth_rate_from (args : arguments) (before : trace) (f : pyfloat)
  : Prop :=
  match arg_f args with
  | Some supplied => f = supplied
  | None =>
      exists zbox zlim,
        In (Event (GetZCubicbox (arg_tracer args)) (Ok zbox)) before
        /\ In (Event (GetFReconstruction zbox zlim "cutsky") (Ok f)) before
  end.

Definition growth_rate_resolved (args : arguments) (before : trace)
    (e : event) : Prop :=
  match ev_call e with
  | Construct _ a => growth_rate_from args before (ca_f a)
  | GetFReconstruction _ _ _ => arg_f args = None
  | _ => True
  end.

(** A constructor call with growth rate [f]; no growth-rate lookup. *)
Definition constructs_with_f (f : pyfloat) (c : call) : Prop :=
  match c with
  | Construct _ a => ca_f a = f
  | GetFReconstruction _ _ _ => False
  | _ => True
  end.

(** The name [fn] was answered by [catalog_fn] before, for an input
    catalog: a call that passes no [cat_dir] and no [region]. *)
Definition named_input (args : arguments) (before : trace) (fn : string)
  : Prop :=
  exists a,
    cf_tracer a = arg_tracer args /\ cf_cat_dir a = None /\ cf_region a = None
    /\ (In (Event (CatalogFn a) (Ok fn)) before
        \/ exists names,
             In (Event (CatalogFnRandoms a) (Ok names)) before
             /\ In fn (randoms_fn_list names)).

(** The name [fn] was answered by [catalog_fn] before, for an output
    catalog: a call that passes [--outdir], a region of [--region] and
    the algorithm and convention as [rec_type]. *)
Definition named_output (args : arguments) (before : trace) (fn : string)
  : Prop :=
  exists a region,
    cf_tracer a = arg_tracer args /\ cf_cat_dir a = Some (arg_outdir args)
    /\ cf_region a = Some region /\ In region (arg_region args)
    /\ cf_rec_type a = Some (arg_algorithm args ++ arg_convention args)%string
    /\ (In (Event (CatalogFn a) (Ok fn)) before
        \/ exists names,
             In (Event (CatalogFnRandoms a) (Ok names)) before
             /\ In fn (py_iter names)).

(** Every file read was named as an input before; every file written,
    and every directory made, as an output. *)
Definition files_named (args : arguments) (before : trace) (e : event)
  : Prop :=
  match ev_call e with
  | TableRead fn => named_input args before fn
  | ReadPositionsWeightsCutsky fn _ _ => named_input args before fn
  | TableWrite _ fn _ _ => named_output args before fn
  | Mkdir dir => exists fn, named_output args before fn /\ dir = dirname fn
  | _ => True
  end.

(** The keywords the catalog reader is called with. *)
Definition selection_view (c : call) : list kwargs :=
  match c with
  | ReadPositionsWeightsCutsky _ _ kw => [kw]
  | _ => []
  end.

(** The keywords of the last call of the reader. *)
Definition last_selection (tr : trace) : option kwargs :=
  last (map Some (seen selection_view tr)) None.

(** The catalog written to [out] after the events [before] belongs to a
    region: [out] was answered by [catalog_fn] for that region, and the
    last selection made by the reader was made for it, with the
    keywords of the command line. *)
Definition written_for_region (args : arguments) (before : trace)
    (out : string) : Prop :=
  exists a region zmin zmax,
    cf_region a = Some region
    /\ (In (Event (CatalogFn a) (Ok out)) before
        \/ exists names,
             In (Event (CatalogFnRandoms a) (Ok names)) before
             /\ In out (py_iter names))
    /\ last_selection before
       = Some [ ("zlim", KwPair zmin zmax);
                ("region", KwStr region);
                ("weight_type", KwStr (arg_weight_type args));
                ("abs_maglim", opt_float (arg_abs_maglim args));
                ("app_maglim", opt_float (arg_app_maglim args)) ].

Definition selected_for_region (args : arguments) (before : trace)
    (e : event) : Prop :=
  match ev_call e with
  | TableWrite _ out _ _ => written_for_region args before out
  | _ => True
  end.

(** The parsed arguments with another [--nthreads], another [--indir],
    another [--region]. *)
Definition with_nthreads (n : Z) (args : arguments) : arguments :=
  {| arg_tracer := arg_tracer args; arg_indir := arg_indir args;
     arg_region := arg_region args; arg_zlim := arg_zlim args;
     arg_weight_type := arg_weight_type args; arg_nran := arg_nran args;
     arg_nthreads := n; arg_outdir := arg_outdir args;
     arg_algorithm := arg_algorithm args;
     arg_convention := arg_convention args; arg_f := arg_f args;
     arg_bias := arg_bias args; arg_boxsize := arg_boxsize args;
     arg_nmesh := arg_nmesh args; arg_cellsize := arg_cellsize args;
     arg_smoothing_radius := arg_smoothing_radius args;
     arg_abs_maglim := arg_abs_maglim args;
     arg_app_maglim := arg_app_maglim args |}.

Definition with_indir (dir : string) (args : arguments) : arguments :=
  {| arg_tracer := arg_tracer args; arg_indir := dir;
     arg_region := arg_region args; arg_zlim := arg_zlim args;
     arg_weight_type := arg_weight_type args; arg_nran := arg_nran args;
     arg_nthreads := arg_nthreads args; arg_outdir := arg_outdir args;
     arg_algorithm := arg_algorithm args;
     arg_convention := arg_convention args; arg_f := arg_f args;
     arg_bias := arg_bias args; arg_boxsize := arg_boxsize args;
     arg_nmesh := arg_nmesh args; arg_cellsize := arg_cellsize args;
     arg_smoothing_radius := arg_smoothing_radius args;
     arg_abs_maglim := arg_abs_maglim args;
     arg_app_maglim := arg_app_maglim args |}.

Definition with_region (regions : list string) (args : arguments)
  : arguments :=
  {| arg_tracer := arg_tracer args; arg_indir := arg_indir args;
     arg_region := regions; arg_zlim := arg_zlim args;
     arg_weight_type := arg_weight_type args; arg_nran := arg_nran args;
     arg_nthreads := arg_nthreads args; arg_outdir := arg_outdir args;
     arg_algorithm := arg_algorithm args;
     arg_convention := arg_convention args; arg_f := arg_f args;
     arg_bias := arg_bias args; arg_boxsize := arg_boxsize args;
     arg_nmesh := arg_nmesh args; arg_cellsize := arg_cellsize args;
     arg_smoothing_radius := arg_smoothing_radius args;
     arg_abs_maglim := arg_abs_maglim args;
     arg_app_maglim := arg_app_maglim args |}.

(** An event with the directory of the message
    ['Input directory is {}.'] replaced by [dir]; any other event is
    left as it is. *)
Definition relog (dir : string) (e : event) : event :=
  match e with
  | Event c o =>
      match c return result (answer c) -> event with
      | LoggerInfo (InputDirectory _) =>
          fun o => Event (LoggerInfo (InputDirectory dir)) o
      | c' => fun o => Event c' o
      end o
  end.

Definition logs_input_directory (c : call) : bool :=
  match c with
  | LoggerInfo (InputDirectory _) => true
  | _ => false
  end.

(* ===================================================================== *)
(** ** Reasoning about runs                                               *)
(* ===================================================================== *)

Lemma runs_ret_inv (A : Type) (a : A) tr r :
  runs (Ret a) tr r -> tr = [] /\ r = Ok a.
Proof. exact (fun H => H). Qed.

Lemma runs_ext_inv (c : call) tr r :
  runs (ext c) tr r ->
  (exists e, tr = [Event c (Raised e)] /\ r = Raised e) \/
  (exists a, tr = [Event c (Ok a)] /\ r = Ok a).
Proof.
  simpl. intros [H | (a & tr' & -> & -> & ->)]; [left | right]; eauto.
Qed.

Lemma runs_lift_inv (A : Type) (x : result A) tr r :
  runs (lift x) tr r -> tr = [] /\ r = x.
Proof. destruct x; simpl; intros [-> ->]; auto. Qed.

Lemma runs_do_inv (A : Type) (c : call) (k : answer c -> prog A) tr r :
  runs (Do c k) tr r ->
  (exists e, tr = [Event c (Raised e)] /\ r = Raised e) \/
  (exists a tr', tr = Event c (Ok a) :: tr' /\ runs (k a) tr' r).
Proof. exact (fun H => H). Qed.

Lemma runs_throw_inv (A : Type) (e : exn) tr (r : result A) :
  runs (Throw e) tr r -> tr = [] /\ r = Raised e.
Proof. exact (fun H => H). Qed.

(** A run of [m ;; k] is a raising run of [m], or a returning run of
    [m] followed by a run of [k]. *)
Lemma runs_bind_inv (A B : Type) (m : prog A) (k : A -> prog B) tr r :
  runs (bind m k) tr r ->
  (exists e, runs m tr (Raised e) /\ r = Raised e) \/
  (exists a tr1 tr2, runs m tr1 (Ok a) /\ runs (k a) tr2 r /\ tr = tr1 ++ tr2).
Proof.
  revert tr r. induction m as [a | e | c k' IH]; simpl; intros tr r H.
  - right. exists a, [], tr. auto.
  - destruct H as [-> ->]. left. eauto.
  - destruct H as [(e & -> & ->) | (a & tr' & -> & H)].
    + left. exists e. split; auto. left. eauto.
    + destruct (IH a _ _ H) as [(e & Hm & ->) | (b & tr1 & tr2 & Hm & Hk & ->)].
      * left. exists e. split; auto. right. eauto.
      * right. exists b, (Event c (Ok a) :: tr1), tr2.
        repeat split; auto. right. eauto.
Qed.

(** Every run against a world is a run. *)
Lemma interp_runs (W : Type) (world : forall c : call, W -> result (answer c) * W)
    (A : Type) (p : prog A) :
  forall w r tr w', interp world p w = (r, tr, w') -> runs p tr r.
Proof.
  induction p as [a | e | c k IH]; simpl; intros w r tr w' H.
  - injection H as <- <- _. auto.
  - injection H as <- <- _. auto.
  - destruct (world c w) as [[a | e] w1].
    + destruct (interp world (k a) w1) as [[r1 tr1] w2] eqn:E.
      injection H as <- <- _. right. exists a, tr1. split; auto.
      eapply IH; eauto.
    + injection H as <- <- _. left. eauto.
Qed.

Section Always.
Variable P : event -> Prop.

Lemma always_ret (A : Type) (Q : A -> Prop) (a : A) :
  Q a -> always P Q (Ret a).
Proof.
  intros HQ tr r [-> ->]. split; [constructor |].
  intros a' H. injection H as <-. exact HQ.
Qed.

Lemma always_throw (A : Type) (Q : A -> Prop) e : always P Q (Throw (A:=A) e).
Proof. intros tr r [-> ->]. split; [constructor | discriminate]. Qed.

Lemma always_lift (A : Type) (Q : A -> Prop) (x : result A) :
  (forall a, x = Ok a -> Q a) -> always P Q (lift x).
Proof.
  intros HQ tr r H. apply runs_lift_inv in H as [-> ->].
  split; [constructor | exact HQ].
Qed.

Lemma always_bound (A : Type) (v : option A) : always P (fun _ => True) (bound v).
Proof. destruct v; [apply always_ret; exact I | apply always_throw]. Qed.

Lemma always_ext (c : call) (Q : answer c -> Prop) :
  (forall o, P (Event c o)) -> (forall a, Q a) -> always P Q (ext c).
Proof.
  intros HP HQ tr r H.
  apply runs_ext_inv in H as [(e & -> & ->) | (a & -> & ->)].
  - split; [repeat constructor; apply HP | discriminate].
  - split; [repeat constructor; apply HP | intros; apply HQ].
Qed.

Lemma always_bind (A B : Type) (Q : A -> Prop) (Q' : B -> Prop)
    (m : prog A) (k : A -> prog B) :
  always P Q m -> (forall a, Q a -> always P Q' (k a)) ->
  always P Q' (bind m k).
Proof.
  intros Hm Hk tr r H.
  apply runs_bind_inv in H
    as [(e & H & ->) | (a & tr1 & tr2 & H1 & H2 & ->)].
  - destruct (Hm _ _ H) as [HF _]. split; [exact HF | discriminate].
  - destruct (Hm _ _ H1) as [HF1 HQ].
    destruct (Hk a (HQ a eq_refl) _ _ H2) as [HF2 HQ'].
    split; [apply Forall_app; auto | exact HQ'].
Qed.

Lemma always_for_each (X S : Type) (I : S -> Prop)
    (body : X -> S -> prog S) (l : list X) :
  (forall x s, In x l -> I s -> always P I (body x s)) ->
  forall s, I s -> always P I (for_each body l s).
Proof.
  induction l as [| x l IH]; simpl; intros Hb s Hs.
  - apply always_ret. exact Hs.
  - eapply always_bind.
    + apply Hb; auto.
    + intros s' Hs'. apply IH; auto.
Qed.

End Always.

(** *** The part of a run seen through a view [view] *)

Section Views.
Variable X : Type.
Variable view : call -> list X.


Lemma seen_app tr1 tr2 : seen view (tr1 ++ tr2) = seen view tr1 ++ seen view tr2.
Proof. apply flat_map_app. Qed.


Lemma emits_ret (A : Type) (a : A) : emits view (Ret a) [].
Proof. intros tr r [-> ->]. split; [exists []; reflexivity | reflexivity]. Qed.

Lemma emits_throw (A : Type) e L : emits view (Throw (A:=A) e) L.
Proof. intros tr r [-> ->]. split; [exists L; reflexivity | discriminate]. Qed.

Lemma emits_lift (A : Type) (x : result A) : emits view (lift x) [].
Proof. destruct x; [apply emits_ret | apply emits_throw]. Qed.

Lemma emits_bound (A : Type) (v : option A) : emits view (bound v) [].
Proof. destruct v; [apply emits_ret | apply emits_throw]. Qed.

Lemma emits_ext (c : call) : emits view (ext c) (view c).
Proof.
  intros tr r H.
  apply runs_ext_inv in H as [(e & -> & ->) | (a & -> & ->)];
    unfold seen; simpl; rewrite app_nil_r;
    (split; [exists []; rewrite app_nil_r |]; reflexivity).
Qed.

Lemma emits_bind (A B : Type) (m : prog A) (k : A -> prog B) L1 L2 :
  emits view m L1 -> (forall a, emits view (k a) L2) -> emits view (bind m k) (L1 ++ L2).
Proof.
  intros Hm Hk tr r H.
  apply runs_bind_inv in H
    as [(e & H & ->) | (a & tr1 & tr2 & H1 & H2 & ->)].
  - destruct (Hm _ _ H) as [(rest & ->) _]. split; [| discriminate].
    exists (rest ++ L2). rewrite app_assoc. reflexivity.
  - destruct (Hm _ _ H1) as [_ E1]. specialize (E1 eq_refl).
    destruct (Hk a _ _ H2) as [(rest & E2) E3].
    rewrite seen_app, E1. split.
    + exists rest. rewrite E2, app_assoc. reflexivity.
    + intros Hr. rewrite (E3 Hr). reflexivity.
Qed.

Lemma emits_for_each (Y S : Type) (body : Y -> S -> prog S) (Lb : Y -> list X)
    (l : list Y) :
  (forall y s, emits view (body y s) (Lb y)) ->
  forall s, emits view (for_each body l s) (flat_map Lb l).
Proof.
  intros Hb. induction l as [| y l IH]; simpl; intros s.
  - apply emits_ret.
  - apply emits_bind; auto.
Qed.

Lemma emits_eq (A : Type) (m : prog A) L L' :
  emits view m L -> L = L' -> emits view m L'.
Proof. intros H <-. exact H. Qed.
End Views.

(* --------------------------------------------------------------------- *)
(** *** Events and the events before them                                 *)
(* --------------------------------------------------------------------- *)

Section EachAfter.
Variable P : trace -> event -> Prop.

Lemma each_after_app (before tr1 tr2 : trace) :
  each_after P before tr1 -> each_after P (before ++ tr1) tr2 ->
  each_after P before (tr1 ++ tr2).
Proof.
  revert before. induction tr1 as [| e tr1 IH]; simpl; intros before H1 H2.
  - rewrite app_nil_r in H2. exact H2.
  - destruct H1 as [He H1]. split; [exact He |].
    apply IH; [exact H1 |]. rewrite <- app_assoc. exact H2.
Qed.

Lemma each_after_split (before tr pre post : trace) (e : event) :
  each_after P before tr -> tr = pre ++ e :: post -> P (before ++ pre) e.
Proof.
  intros H ->. revert before H.
  induction pre as [| x pre IH]; simpl; intros before [Hx H].
  - rewrite app_nil_r. exact Hx.
  - specialize (IH _ H). rewrite <- app_assoc in IH. exact IH.
Qed.

Lemma each_after_Forall (before tr : trace) :
  Forall (fun e => forall h, P h e) tr -> each_after P before tr.
Proof.
  intros H. revert before. induction H as [| e tr He _ IH]; simpl; auto.
Qed.
End EachAfter.

(** *** Every call of a run satisfies [P] *)


Section Everywhere.
Variable P : call -> Prop.

Lemma everywhere_ret (A : Type) (a : A) : everywhere P (Ret a).
Proof. apply always_ret. exact I. Qed.

Lemma everywhere_throw (A : Type) e : everywhere P (Throw (A:=A) e).
Proof. apply always_throw. Qed.

Lemma everywhere_lift (A : Type) (x : result A) : everywhere P (lift x).
Proof. apply always_lift. auto. Qed.

Lemma everywhere_bound (A : Type) (v : option A) : everywhere P (bound v).
Proof. apply always_bound. Qed.

Lemma everywhere_ext (c : call) : P c -> everywhere P (ext c).
Proof. intros H. apply always_ext; auto. Qed.

Lemma everywhere_bind (A B : Type) (m : prog A) (k : A -> prog B) :
  everywhere P m -> (forall a, everywhere P (k a)) -> everywhere P (bind m k).
Proof. intros Hm Hk. eapply always_bind; [exact Hm | intros a _; apply Hk]. Qed.

Lemma everywhere_for_each (X S : Type) (body : X -> S -> prog S) (l : list X) :
  (forall x s, everywhere P (body x s)) ->
  forall s, everywhere P (for_each body l s).
Proof.
  intros Hb s.
  apply always_for_each with (I := fun _ => True); auto.
  intros x s' _ _. apply Hb.
Qed.

Lemma everywhere_comprehension (X Y : Type) (f : X -> prog Y) (l : list X) :
  (forall x, everywhere P (f x)) -> everywhere P (comprehension f l).
Proof.
  intros Hf. induction l as [| x l IH]; simpl.
  - apply everywhere_ret.
  - apply everywhere_bind; [apply Hf | intros y].
    apply everywhere_bind; [exact IH | intros ys; apply everywhere_ret].
Qed.

Lemma everywhere_runs (A : Type) (m : prog A) tr r :
  everywhere P m -> runs m tr r -> Forall (fun e => P (ev_call e)) tr.
Proof. intros H Hr. exact (proj1 (H _ _ Hr)). Qed.
End Everywhere.

Ltac unfold_calls :=
  unfold logger_info, Table_read, read_positions_weights_cutsky,
    read_positions_weights_cutsky_mask, call_distance, sky_to_cartesian,
    recon_construct, recon_assign_data, recon_assign_randoms,
    recon_set_density_contrast, recon_run, recon_read_shifted_positions,
    make_distance_to_redshift, call_distance_to_redshift, cartesian_to_sky,
    mkdir, Table_write, mpi_COMM_WORLD, setup_logging, get_z_cubicbox,
    py_float, get_z_cutsky, DESI_comoving_radial_distance,
    get_f_reconstruction, catalog_fn, catalog_fn_randoms in *.

Ltac unfold_stages :=
  unfold run_reconstruction, load_data, construct, assign_randoms_body,
    read_shifted_data, write_data, write_randoms, write_randoms_body in *.

Ltac everywhere_step :=
  lazymatch goal with
  | |- everywhere _ (bind _ _) => apply everywhere_bind; [| intros ?]
  | |- everywhere _ (Ret _) => apply everywhere_ret
  | |- everywhere _ (Throw _) => apply everywhere_throw
  | |- everywhere _ (lift _) => apply everywhere_lift
  | |- everywhere _ (bound _) => apply everywhere_bound
  | |- everywhere ?P (ext ?c) =>
      refine (@everywhere_ext P c _); simpl; auto
  | |- everywhere _ (for_each _ _ _) => apply everywhere_for_each; intros ? ?
  | |- everywhere _ (comprehension _ _) => apply everywhere_comprehension; intros ?
  | |- everywhere _ (if ?b then _ else _) => destruct b
  | |- everywhere _ (match ?x with _ => _ end) => destruct x
  | |- everywhere _ (let '(_, _) := ?x in _) => destruct x
  end.

Ltac everywhere_auto := unfold_stages; unfold_calls; repeat everywhere_step.

(** A run in the simulated world is a run. *)
Lemma sim_runs (A : Type) (p : prog A) (w : Sim.state) :
  runs p (snd (fst (interp Sim.world p w))) (fst (fst (interp Sim.world p w))).
Proof.
  destruct (interp Sim.world p w) as [[r tr] w'] eqn:E. simpl.
  exact (interp_runs _ _ _ E).
Qed.

(* ===================================================================== *)
(** ** The pure helpers on concrete inputs                                *)
(* ===================================================================== *)

Example dirname_examples :
  dirname "out/NGC/data_rec.fits" = "out/NGC"
  /\ dirname "data_rec.fits" = ""
  /\ dirname "/data_rec.fits" = "/"
  /\ dirname "out//data_rec.fits" = "out".
Proof. repeat split. Qed.

Example get_bias_examples :
  get_bias "ELG_LOP" = 1.2%float
  /\ get_bias "QSO" = 2.07%float
  /\ get_bias "LRG_main" = 1.99%float
  /\ get_bias "BGS_BRIGHT" = 1.5%float
  /\ get_bias "lrg" = 1.2%float.
Proof. repeat split. Qed.

(** A scalar [randoms_fn] becomes a list of one name; [randoms_rec_fn]
    is iterated as it is. *)
Example zip_examples :
  zip (randoms_fn_list (PyStr "ran.fits")) (py_iter (PyList ["a.fits"; "b.fits"]))
  = [("ran.fits", "a.fits")]
  /\ zip (randoms_fn_list (PyList ["r0.fits"; "r1.fits"]))
         (py_iter (PyList ["a.fits"]))
     = [("r0.fits", "a.fits")].
Proof. repeat split. Qed.

(** Tables: a mask selects rows in order; a mask of another length
    raises, but for the mask without entries, which selects no row.  An
    array of one entry assigned to a column is broadcast to every row:
    in place for an existing column, which keeps its dtype, and in a new
    float column otherwise; an array of any other wrong length raises. *)
Example table_examples :
  table_getitem_mask Sim.randoms_table [true; false]
  = Ok [ ("RA", FloatCol [11%float]); ("DEC", FloatCol [4%float]);
         ("Z", FloatCol [0.25%float]); ("TARGETID", IntCol [1%Z]) ]
  /\ table_getitem_mask Sim.randoms_table [true] = Raised "IndexError"
  /\ table_getitem_mask Sim.randoms_table []
     = Ok [ ("RA", FloatCol []); ("DEC", FloatCol []); ("Z", FloatCol []);
            ("TARGETID", IntCol []) ]
  /\ table_setitem Sim.randoms_table "Z" [1%float; 2%float]
     = Ok [ ("RA", FloatCol [11%float; 21%float]);
            ("DEC", FloatCol [4%float; 5%float]);
            ("Z", FloatCol [1%float; 2%float]);
            ("TARGETID", IntCol [1%Z; 2%Z]) ]
  /\ table_setitem Sim.randoms_table "Z" [1%float]
     = Ok [ ("RA", FloatCol [11%float; 21%float]);
            ("DEC", FloatCol [4%float; 5%float]);
            ("Z", FloatCol [1%float; 1%float]);
            ("TARGETID", IntCol [1%Z; 2%Z]) ]
  /\ table_setitem Sim.randoms_table "TARGETID" [1%float]
     = Ok [ ("RA", FloatCol [11%float; 21%float]);
            ("DEC", FloatCol [4%float; 5%float]);
            ("Z", FloatCol [0.25%float; 0.5%float]);
            ("TARGETID", FilledCol (IntCol [1%Z; 2%Z]) 1%float) ]
  /\ table_setitem Sim.randoms_table "W" [1%float]
     = Ok [ ("RA", FloatCol [11%float; 21%float]);
            ("DEC", FloatCol [4%float; 5%float]);
            ("Z", FloatCol [0.25%float; 0.5%float]);
            ("TARGETID", IntCol [1%Z; 2%Z]);
            ("W", FloatCol [1%float; 1%float]) ]
  /\ table_setitem Sim.randoms_table "Z" [1%float; 2%float; 3%float]
     = Raised "ValueError"
  /\ table_setitem Sim.randoms_table "W" [] = Raised "ValueError"
  /\ table_setitem [("Z", FloatCol [1%float; 2%float])] "Z" [3%float]
     = Ok [("Z", FloatCol [3%float])]
  /\ table_setitem [] "Z" [3%float] = Ok [("Z", FloatCol [3%float])].
Proof. repeat split. Qed.

(* ===================================================================== *)
(** ** Tables                                                             *)
(* ===================================================================== *)

Lemma get_column_replace_same (name : string) (c old : column) (t : table) :
  get_column name t = Some old ->
  get_column name (replace_column name c t) = Some c.
Proof.
  induction t as [| [n c0] t IH]; simpl; [discriminate |].
  destruct (String.eqb n name) eqn:E; simpl; rewrite E; auto.
Qed.

Lemma get_column_replace_other (name name' : string) (c : column) (t : table) :
  name' <> name ->
  get_column name' (replace_column name c t) = get_column name' t.
Proof.
  intros Hne. induction t as [| [n c0] t IH]; simpl; [reflexivity |].
  destruct (String.eqb n name) eqn:E; simpl.
  - apply String.eqb_eq in E. subst n.
    apply String.eqb_neq in Hne. rewrite String.eqb_sym, Hne. reflexivity.
  - rewrite IH. reflexivity.
Qed.

Lemma colnames_replace (name : string) (c : column) (t : table) :
  colnames (replace_column name c t) = colnames t.
Proof.
  unfold colnames. induction t as [| [n c0] t IH]; simpl; [reflexivity |].
  destruct (String.eqb n name); simpl; [| rewrite IH]; reflexivity.
Qed.

Lemma get_column_app (name : string) (t1 t2 : table) :
  get_column name (t1 ++ t2)
  = match get_column name t1 with
    | Some c => Some c
    | None => get_column name t2
    end.
Proof.
  induction t1 as [| [n c0] t1 IH]; simpl; [reflexivity |].
  destruct (String.eqb n name); auto.
Qed.

Lemma get_column_In (name : string) (c : column) (t : table) :
  get_column name t = Some c -> In (name, c) t.
Proof.
  induction t as [| [n c0] t IH]; simpl; [discriminate |].
  destruct (String.eqb_spec n name) as [-> |].
  - intros E. injection E as ->. left. reflexivity.
  - intros E. right. exact (IH E).
Qed.

Lemma fill_column_every_row (c : column) (v : pyfloat) :
  every_row v (fill_column c v).
Proof.
  destruct c; simpl; try reflexivity.
  rewrite repeat_length. reflexivity.
Qed.

Lemma fill_column_length (c : column) (v : pyfloat) :
  column_length (fill_column c v) = column_length c.
Proof. destruct c; simpl; try reflexivity. apply repeat_length. Qed.

Lemma broadcast_holds (n : nat) (values : farray) :
  holds values (FloatCol (broadcast n values)).
Proof.
  unfold broadcast.
  destruct values as [| v [| w rest]]; try (left; reflexivity).
  destruct (0 <? n)%nat; [| left; reflexivity].
  right. exists v. split; [reflexivity |].
  simpl. rewrite repeat_length. reflexivity.
Qed.

Lemma broadcast_rows (n : nat) (values : farray) :
  length values = n -> broadcast n values = values.
Proof.
  unfold broadcast. destruct values as [| v [| w rest]]; auto.
  simpl. intros <-. reflexivity.
Qed.

(** After [t[name] = values] the column [name] holds [values], the
    other columns are the ones of [t], and the columns of [t] keep their
    places. *)
Lemma table_setitem_spec (t t' : table) (name : string) (values : farray) :
  table_setitem t name values = Ok t' ->
  (exists c, get_column name t' = Some c /\ holds values c)
  /\ (forall name', name' <> name -> get_column name' t' = get_column name' t)
  /\ exists added, colnames t' = colnames t ++ added.
Proof.
  unfold table_setitem. destruct (get_column name t) as [old |] eqn:Hold.
  - assert (Hframe : forall c,
              (forall name', name' <> name ->
                 get_column name' (replace_column name c t)
                 = get_column name' t)
              /\ exists added,
                   colnames (replace_column name c t) = colnames t ++ added).
    { intros c.
      split; [intros; apply get_column_replace_other; assumption |].
      exists []. rewrite colnames_replace, app_nil_r. reflexivity. }
    destruct (_ || _).
    + intros H. injection H as <-. split; [| apply Hframe].
      exists (FloatCol values).
      split; [eapply get_column_replace_same; exact Hold | left; reflexivity].
    + destruct values as [| v [| w rest]]; try discriminate.
      intros H. injection H as <-. split; [| apply Hframe].
      exists (fill_column old v).
      split; [eapply get_column_replace_same; exact Hold |].
      right. exists v. split; [reflexivity | apply fill_column_every_row].
  - destruct (_ || _); [| discriminate]. intros H. injection H as <-.
    split.
    + exists (FloatCol (broadcast (nrows t) values)).
      split; [| apply broadcast_holds].
      rewrite get_column_app, Hold. simpl.
      rewrite String.eqb_refl. reflexivity.
    + split.
      * intros name' Hne. rewrite get_column_app.
        destruct (get_column name' t); [reflexivity |]. simpl.
        apply String.eqb_neq in Hne. rewrite String.eqb_sym, Hne. reflexivity.
      * exists [name]. unfold colnames. rewrite map_app. reflexivity.
Qed.

Lemma rectangular_nrows (n : nat) (t : table) :
  rectangular n t -> t <> [] -> nrows t = n.
Proof.
  intros H Hne. destruct t as [| [n0 c] t]; [contradiction |].
  inversion H; subst. reflexivity.
Qed.

Lemma rectangular_replace (n : nat) (name : string) (c : column) (t : table) :
  rectangular n t -> column_length c = n ->
  rectangular n (replace_column name c t).
Proof.
  intros H Hc. induction H as [| [n0 c0] t H0 Ht IH]; simpl; [constructor |].
  destruct (String.eqb n0 name); constructor; simpl; auto.
Qed.

(** When the table has [n] rows in every column and [values] has [n]
    entries, [t[name] = values] leaves the column [name] holding
    [values] as they are, in a table of [n] rows. *)
Lemma table_setitem_rows (n : nat) (t t' : table) (name : string)
    (values : farray) :
  rectangular n t -> length values = n ->
  table_setitem t name values = Ok t' ->
  get_column name t' = Some (FloatCol values) /\ rectangular n t'.
Proof.
  intros Hrect Hlen. unfold table_setitem.
  destruct (get_column name t) as [old |] eqn:Hold.
  - assert (Hlo : column_length old = n).
    { apply get_column_In in Hold. unfold rectangular in Hrect.
      rewrite Forall_forall in Hrect. exact (Hrect _ Hold). }
    rewrite Hlen, Hlo, Nat.eqb_refl, orb_true_r.
    intros H. injection H as <-.
    split; [eapply get_column_replace_same; exact Hold |].
    apply rectangular_replace; assumption.
  - assert (Hb : broadcast (nrows t) values = values).
    { destruct t as [| [n0 c0] t0].
      - destruct values as [| v [| w rest]]; reflexivity.
      - apply broadcast_rows.
        rewrite (rectangular_nrows Hrect); [exact Hlen | discriminate]. }
    rewrite Hb.
    destruct (_ || _); [| discriminate]. intros H. injection H as <-.
    split.
    + rewrite get_column_app, Hold. simpl. rewrite String.eqb_refl.
      reflexivity.
    + apply Forall_app. split; [exact Hrect |]. constructor; [| constructor].
      exact Hlen.
Qed.

(** The three assignments leave [RA], [DEC] and [Z] holding the arrays
    assigned and every other column as it was. *)
Lemma set_sky_columns_spec (t t' : table) (ra dec z : farray) :
  set_sky_columns t ra dec z = Ok t' ->
  (exists c, get_column "RA" t' = Some c /\ holds ra c)
  /\ (exists c, get_column "DEC" t' = Some c /\ holds dec c)
  /\ (exists c, get_column "Z" t' = Some c /\ holds z c)
  /\ (forall name, name <> "RA" -> name <> "DEC" -> name <> "Z" ->
                   get_column name t' = get_column name t)
  /\ exists added, colnames t' = colnames t ++ added.
Proof.
  unfold set_sky_columns.
  destruct (table_setitem t "RA" ra) as [t1 |] eqn:E1; [| discriminate].
  destruct (table_setitem t1 "DEC" dec) as [t2 |] eqn:E2; [| discriminate].
  intros E3.
  apply table_setitem_spec in E1 as (G1 & O1 & a1 & N1).
  apply table_setitem_spec in E2 as (G2 & O2 & a2 & N2).
  apply table_setitem_spec in E3 as (G3 & O3 & a3 & N3).
  split; [rewrite O3, O2 by discriminate; exact G1 |].
  split; [rewrite O3 by discriminate; exact G2 |].
  split; [exact G3 |].
  split.
  - intros name H1 H2 H3. rewrite O3, O2, O1 by assumption. reflexivity.
  - exists (a1 ++ a2 ++ a3). rewrite N3, N2, N1, <- !app_assoc. reflexivity.
Qed.

(** With one value per row the three columns hold the arrays as they
    are. *)
Lemma set_sky_columns_rows (n : nat) (t t' : table) (ra dec z : farray) :
  rectangular n t ->
  length ra = n -> length dec = n -> length z = n ->
  set_sky_columns t ra dec z = Ok t' ->
  get_column "RA" t' = Some (FloatCol ra)
  /\ get_column "DEC" t' = Some (FloatCol dec)
  /\ get_column "Z" t' = Some (FloatCol z).
Proof.
  intros Hrect Hra Hdec Hz. unfold set_sky_columns.
  destruct (table_setitem t "RA" ra) as [t1 |] eqn:E1; [| discriminate].
  destruct (table_setitem t1 "DEC" dec) as [t2 |] eqn:E2; [| discriminate].
  intros E3.
  destruct (@table_setitem_rows _ _ _ _ _ Hrect Hra E1) as [G1 R1].
  destruct (@table_setitem_rows _ _ _ _ _ R1 Hdec E2) as [G2 R2].
  destruct (@table_setitem_rows _ _ _ _ _ R2 Hz E3) as [G3 _].
  apply table_setitem_spec in E2 as (_ & O2 & _).
  apply table_setitem_spec in E3 as (_ & O3 & _).
  split; [rewrite O3, O2 by discriminate; exact G1 |].
  split; [rewrite O3 by discriminate; exact G2 | exact G3].
Qed.

Lemma select_nil (X : Type) (v : list X) : select [] v = [].
Proof. reflexivity. Qed.

Lemma select_length (X : Type) (mask : list bool) (v : list X) :
  length v = length mask ->
  length (select mask v) = length (filter (fun b => b) mask).
Proof.
  revert v. induction mask as [| b mask IH]; intros [| x v]; simpl;
    try discriminate; [reflexivity |].
  intros E. injection E as E. destruct b; simpl; rewrite IH; auto.
Qed.

Lemma select_column_length (mask : list bool) (c : column) :
  column_length c = length mask ->
  column_length (select_column mask c)
  = length (filter (fun b => b) mask).
Proof.
  induction c; simpl; try apply select_length. exact IHc.
Qed.

Lemma select_column_nil (c : column) :
  column_length (select_column [] c) = 0.
Proof. induction c; simpl; auto. Qed.

(** [t[mask]] keeps the columns of [t], each with its selected rows,
    and every column has one row per selected entry of the mask. *)
Lemma table_getitem_mask_spec (t t' : table) (mask : list bool) :
  table_getitem_mask t mask = Ok t' ->
  colnames t' = colnames t
  /\ (forall name,
        get_column name t' = option_map (select_column mask) (get_column name t))
  /\ rectangular (length (filter (fun b => b) mask)) t'.
Proof.
  unfold table_getitem_mask.
  destruct (length mask =? 0)%nat eqn:Hm; cbn [orb].
  - intros H. injection H as <-. split; [| split].
    + unfold colnames. rewrite map_map. reflexivity.
    + intros name. induction t as [| [n c] t IH]; simpl; [reflexivity |].
      destruct (String.eqb n name); auto.
    + apply Nat.eqb_eq in Hm. destruct mask; [| discriminate].
      unfold rectangular. rewrite Forall_map. apply Forall_forall.
      intros [n c] _. apply select_column_nil.
  - destruct (forallb _ t) eqn:Hall; [| discriminate].
    intros H. injection H as <-. split; [| split].
    + unfold colnames. rewrite map_map. reflexivity.
    + intros name. induction t as [| [n c] t IH]; simpl; [reflexivity |].
      simpl in Hall. apply andb_prop in Hall as [_ Hall].
      destruct (String.eqb n name); auto.
    + unfold rectangular. rewrite Forall_map. apply Forall_forall.
      intros [n c] Hin. rewrite forallb_forall in Hall.
      apply Hall in Hin. apply Nat.eqb_eq in Hin.
      apply select_column_length. exact Hin.
Qed.

(* ===================================================================== *)
(** ** The default bias                                                   *)
(* ===================================================================== *)

Lemma startswith_substring (p t : string) :
  String.length p = 3 ->
  startswith (substring 0 3 t) p = startswith t p.
Proof.
  unfold startswith.
  destruct p as [| p1 [| p2 [| p3 [| p4 p]]]]; simpl; try discriminate.
  intros _.
  destruct t as [| t1 [| t2 [| t3 t]]]; simpl; try reflexivity.
  destruct (ascii_dec p1 t1), (ascii_dec p2 t2), (ascii_dec p3 t3);
    try reflexivity.
  destruct t; reflexivity.
Qed.

Lemma get_bias_substring (t : string) :
  get_bias (substring 0 3 t) = get_bias t.
Proof.
  unfold get_bias. rewrite !startswith_substring by reflexivity. reflexivity.
Qed.

(** C9.  [get_bias] is a total function on strings: for a tracer that
    starts with none of ['ELG'], ['QSO'], ['LRG'], ['BGS'] it returns the
    fallback 1.2, the value it returns for ELG tracers. *)
Theorem get_bias_fallback (tracer : string) :
  startswith tracer "ELG" = false ->
  startswith tracer "QSO" = false ->
  startswith tracer "LRG" = false ->
  startswith tracer "BGS" = false ->
  get_bias tracer = 1.2%float /\ get_bias tracer = get_bias "ELG".
Proof.
  intros H1 H2 H3 H4. unfold get_bias. rewrite H1, H2, H3, H4.
  split; reflexivity.
Qed.

Lemma get_bias_fallback_witness :
  get_bias "XYZ_main" = 1.2%float /\ get_bias "XYZ_main" = get_bias "ELG".
Proof. apply (get_bias_fallback "XYZ_main"); reflexivity. Defined.

(** C3.  The bias every reconstruction of the driver is constructed with
    is [--bias] when supplied and [get_bias] of the tracer otherwise;
    [get_bias] returns 1.2, 2.07, 1.99 and 1.5 for tracers starting with
    ['ELG'], ['QSO'], ['LRG'] and ['BGS'], and depends only on the first
    three characters of the tracer name. *)
Theorem main_bias_resolution (args : arguments) (tr : trace) (r : result unit) :
  runs (main args) tr r ->
  Forall (fun e =>
            constructs_with_bias
              match arg_bias args with
              | Some b => b
              | None => get_bias (arg_tracer args)
              end (ev_call e)) tr
  /\ (forall s, get_bias ("ELG" ++ s) = 1.2%float)
  /\ (forall s, get_bias ("QSO" ++ s) = 2.07%float)
  /\ (forall s, get_bias ("LRG" ++ s) = 1.99%float)
  /\ (forall s, get_bias ("BGS" ++ s) = 1.5%float)
  /\ (forall t1 t2, substring 0 3 t1 = substring 0 3 t2 ->
                    get_bias t1 = get_bias t2).
Proof.
  intros H. split; [| split; [| split; [| split; [| split]]]];
    try (intros s; destruct s; reflexivity).
  - revert H. apply everywhere_runs.
    unfold main, resolve_zlims, run_zlim, run_region.
    everywhere_auto; reflexivity.
  - intros t1 t2 E.
    rewrite <- (get_bias_substring t1), <- (get_bias_substring t2), E.
    reflexivity.
Qed.

Lemma main_bias_resolution_witness :
  let args := Sim.cli None None "IFT" "reciso" in
  let out := Sim.run_main args None in
  Forall (fun e => constructs_with_bias 1.2%float (ev_call e)) (snd (fst out))
  /\ In (Construct IterativeFFTReconstruction
           {| ca_f := 0.9%float; ca_bias := 1.2%float; ca_boxsize := None;
              ca_nmesh := None; ca_cellsize := 7%float; ca_los := "local";
              ca_positions :=
                Some [(1%float, 10%float, 1%float); (2%float, 30%float, 3%float)];
              ca_boxpad := 1.2%float; ca_dtype := "f8";
              ca_rec_kwargs := FftKwargs "fftw" 64 |})
        (map ev_call (snd (fst out))).
Proof.
  intros args out. split.
  - exact (proj1 (main_bias_resolution (sim_runs (main args) _))).
  - vm_compute. tauto.
Defined.

Lemma emits_for_each_pair (X Y1 Y2 S : Type) (view : call -> list X)
    (body : Y1 * Y2 -> S -> prog S) (Lb : Y1 -> Y2 -> list X)
    (l : list (Y1 * Y2)) :
  (forall a b s, emits view (body (a, b) s) (Lb a b)) ->
  forall s,
    emits view (for_each body l s) (flat_map (fun y => Lb (fst y) (snd y)) l).
Proof.
  intros Hb. apply emits_for_each. intros [a b] s. apply Hb.
Qed.

Lemma flat_map_const (X Y : Type) (L : list X) (l : list Y) :
  flat_map (fun _ => L) l = concat (repeat L (length l)).
Proof. induction l as [| y l IH]; simpl; [| rewrite IH]; reflexivity. Qed.

Lemma flat_map_singleton (X Y : Type) (g : Y -> X) (l : list Y) :
  flat_map (fun y => [g y]) l = map g l.
Proof. induction l as [| y l IH]; simpl; [| rewrite IH]; reflexivity. Qed.

Lemma concat_repeat_singleton (X : Type) (x : X) (n : nat) :
  concat (repeat [x] n) = repeat x n.
Proof. induction n; simpl; [reflexivity | rewrite IHn; reflexivity]. Qed.

Lemma concat_repeat_nil (X : Type) (n : nat) :
  concat (repeat (@nil X) n) = [].
Proof. induction n; simpl; auto. Qed.

Lemma length_zip (A B : Type) (a : list A) (b : list B) :
  length (zip a b) = Nat.min (length a) (length b).
Proof. apply length_combine. Qed.

Lemma in_concat_repeat (X : Type) (x : X) (L : list X) (k : nat) :
  In x (concat (repeat L k)) -> In x L.
Proof.
  induction k as [| k IH]; simpl; [tauto |].
  intros H. apply in_app_or in H as [H | H]; auto.
Qed.

(** A list splits in one way only around an element it has once. *)
Lemma split_at_unique (X : Type) (x : X) (l1 l2 l1' l2' : list X) :
  ~ In x l1 -> ~ In x l2 ->
  l1 ++ x :: l2 = l1' ++ x :: l2' -> l1 = l1' /\ l2 = l2'.
Proof.
  revert l1'. induction l1 as [| a l1 IH]; intros [| b l1'] H1 H2 E;
    simpl in *.
  - injection E as <-. auto.
  - injection E as <- ->. exfalso. apply H2, in_or_app. right. left. auto.
  - injection E as -> _. exfalso. apply H1. left. auto.
  - injection E as <- E. destruct (IH l1') as [-> ->]; auto.
Qed.

Lemma step_eq_dec (a b : step) : {a = b} + {a <> b}.
Proof. decide equality. Defined.

(** In the order of the life cycle, [set_density_contrast] comes after
    exactly [n] calls of [assign_randoms] and before none. *)
Lemma set_density_contrast_after_randoms (n : nat) (serialize : list step)
    (k : nat) (before after rest : list step) :
  ~ In SAssignRandoms serialize -> ~ In SSetDensityContrast serialize ->
  [SConstruct; SAssignData] ++ repeat SAssignRandoms n
    ++ [SSetDensityContrast; SRun; SReadShifted] ++ serialize
    ++ concat (repeat (SReadShifted :: serialize) k)
  = (before ++ SSetDensityContrast :: after) ++ rest ->
  count_occ step_eq_dec before SAssignRandoms = n
  /\ ~ In SAssignRandoms after.
Proof.
  intros Hs1 Hs2 E.
  assert (Htail : forall x, x = SAssignRandoms \/ x = SSetDensityContrast ->
            ~ In x ([SRun; SReadShifted] ++ serialize
                      ++ concat (repeat (SReadShifted :: serialize) k))).
  { intros x Hx Hin. simpl in Hin.
    destruct Hin as [Hin | [Hin | Hin]];
      [destruct Hx; congruence | destruct Hx; congruence |].
    apply in_app_or in Hin as [Hin | Hin].
    - destruct Hx; subst; auto.
    - apply in_concat_repeat in Hin. simpl in Hin.
      destruct Hin as [Hin | Hin]; destruct Hx; subst; auto; congruence. }
  rewrite <- app_assoc in E. simpl in E.
  change (SConstruct :: SAssignData :: repeat SAssignRandoms n
            ++ SSetDensityContrast :: SRun :: SReadShifted :: serialize
            ++ concat (repeat (SReadShifted :: serialize) k))
    with (([SConstruct; SAssignData] ++ repeat SAssignRandoms n)
            ++ SSetDensityContrast
            :: ([SRun; SReadShifted] ++ serialize
                  ++ concat (repeat (SReadShifted :: serialize) k))) in E.
  apply split_at_unique in E as [<- E].
  - split.
    + simpl. apply count_occ_repeat_eq. reflexivity.
    + intros Hin. apply (Htail SAssignRandoms); [auto |].
      rewrite E. apply in_or_app. auto.
  - simpl. intros [H | [H | H]]; try congruence.
    apply repeat_spec in H. congruence.
  - apply Htail. auto.
Qed.

Ltac emits_step :=
  lazymatch goal with
  | |- emits _ (bind _ _) _ => eapply emits_bind; [| intros ?]
  | |- emits _ (Ret _) _ => apply emits_ret
  | |- emits _ (Throw _) _ => apply emits_throw
  | |- emits _ (lift _) _ => apply emits_lift
  | |- emits _ (bound _) _ => apply emits_bound
  | |- emits ?v (ext ?c) _ => refine (@emits_ext _ v c)
  | |- emits _ (for_each _ (zip _ _) _) _ =>
      eapply emits_for_each_pair; intros ? ? ?
  | |- emits _ (for_each _ _ _) _ => eapply emits_for_each; intros ? ?
  | |- emits _ (match ?x with _ => _ end) _ => destruct x
  end.

(** The calls of [run_reconstruction] seen through a view, by cases on
    the rank, the convention and the class; what is left to prove is
    that the list collected is the list stated. *)
Ltac emits_run_reconstruction mpicomm convention Reconstruction :=
  unfold run_reconstruction, write_randoms, root;
  destruct (is_root mpicomm) eqn:?Hroot;
  destruct (String.eqb convention "rsd") eqn:?Hconv;
  destruct (is_particle Reconstruction) eqn:?Hcls;
  try match goal with
      | H : String.eqb _ _ = _ |- _ => solve [cbv in H; discriminate H]
      end;
  unfold load_data, construct, assign_randoms_body, read_shifted_data,
    write_data, write_randoms_body, root;
  repeat match goal with
         | H : is_root _ = _ |- _ => rewrite !H
         | H : is_particle _ = _ |- _ => rewrite !H
         end;
  simpl negb; cbv iota;
  unfold_calls;
  (eapply emits_eq; [repeat emits_step |]).

(* ===================================================================== *)
(** ** The class selected by the driver                                   *)
(* ===================================================================== *)

Lemma main_constructs_selected_class (args : arguments) :
  everywhere (selects_class args) (main args).
Proof.
  unfold selects_class, main.
  destruct (reconstruction_of_algorithm (arg_algorithm args)) eqn:E;
    cbn [lift bind]; unfold resolve_zlims, run_zlim, run_region;
    everywhere_auto; reflexivity.
Qed.

(* ===================================================================== *)
(** ** Facts about every call of [run_reconstruction]                     *)
(* ===================================================================== *)

Section RunFacts.
Variable Reconstruction : reconstruction_class.
Variable distance : callable.
Variables data_fn : string.
Variable randoms_fn : str_or_list.
Variable data_rec_fn : string.
Variable randoms_rec_fn : str_or_list.
Variables f bias : pyfloat.
Variable boxsize : option pyfloat.
Variable nmesh : option Z.
Variables cellsize smoothing_radius : pyfloat.
Variable nthreads : Z.
Variables convention dtype : string.
Variable mpicomm : option communicator.
Variable kw : kwargs.

Let program : prog unit :=
  run_reconstruction Reconstruction distance data_fn randoms_fn data_rec_fn
    randoms_rec_fn f bias boxsize nmesh cellsize smoothing_radius nthreads
    convention dtype mpicomm kw.

Let serialize : list step := if is_root mpicomm then [SSerialize] else [].

(* --------------------------------------------------------------------- *)
(** *** The order of the life cycle                                       *)
(* --------------------------------------------------------------------- *)

Lemma lifecycle_emits :
  emits lifecycle_step program
    ([SConstruct; SAssignData]
       ++ repeat SAssignRandoms (length (randoms_fn_list randoms_fn))
       ++ [SSetDensityContrast; SRun; SReadShifted] ++ serialize
       ++ concat (repeat (SReadShifted :: serialize)
                    (randoms_outputs randoms_fn randoms_rec_fn convention))).
Proof.
  unfold program, serialize, randoms_outputs.
  emits_run_reconstruction mpicomm convention Reconstruction;
    simpl;
    rewrite ?flat_map_const, ?concat_repeat_singleton, ?length_zip, ?app_nil_r;
    reflexivity.
Qed.

(** C1.  Every call of [run_reconstruction] drives the life cycle in one
    order: the constructor, [assign_data] once, [assign_randoms] once per
    entry of [randoms_fn], [set_density_contrast], [run], then the reads
    of shifted positions, each followed on the root rank by the write of
    its catalog.  A run that raises stops along that order, so
    [set_density_contrast] never comes before the last [assign_randoms]. *)
Theorem run_reconstruction_lifecycle_order (tr : trace) (r : result unit) :
  runs program tr r ->
  let n := length (randoms_fn_list randoms_fn) in
  let order :=
    [SConstruct; SAssignData] ++ repeat SAssignRandoms n
      ++ [SSetDensityContrast; SRun; SReadShifted] ++ serialize
      ++ concat (repeat (SReadShifted :: serialize)
                   (randoms_outputs randoms_fn randoms_rec_fn convention)) in
  (exists rest, order = seen lifecycle_step tr ++ rest)
  /\ (r = Ok tt -> seen lifecycle_step tr = order)
  /\ (forall before after,
        seen lifecycle_step tr = before ++ SSetDensityContrast :: after ->
        count_occ step_eq_dec before SAssignRandoms = n
        /\ ~ In SAssignRandoms after).
Proof.
  intros H n order.
  destruct (lifecycle_emits _ _ H) as [[rest Hrest] Hok].
  fold n in Hrest, Hok. fold order in Hrest, Hok.
  split; [exists rest; exact Hrest |].
  split; [intros ->; apply Hok; reflexivity |].
  intros before after E.
  apply (set_density_contrast_after_randoms n serialize
           (randoms_outputs randoms_fn randoms_rec_fn convention)
           before after rest).
  - unfold serialize. destruct (is_root mpicomm); simpl; intuition congruence.
  - unfold serialize. destruct (is_root mpicomm); simpl; intuition congruence.
  - fold n. fold order. rewrite Hrest, E. reflexivity.
Qed.

(* --------------------------------------------------------------------- *)
(** *** The reads of shifted positions                                    *)
(* --------------------------------------------------------------------- *)

(** The first read is the data's; the others are the randoms'. *)
Lemma reads_emits :
  emits read_view program
    ((if is_particle Reconstruction then Some "data" else None,
      if String.eqb convention "rsd" then "rsd" else "disp+rsd")
       :: repeat (None,
                  if String.eqb convention "recsym" then "disp+rsd" else "disp")
            (randoms_outputs randoms_fn randoms_rec_fn convention)).
Proof.
  unfold program, randoms_outputs.
  emits_run_reconstruction mpicomm convention Reconstruction;
    simpl; unfold data_field, randoms_field;
    rewrite ?Hconv, ?flat_map_const, ?concat_repeat_nil,
      ?concat_repeat_singleton, ?length_zip, ?app_nil_r;
    reflexivity.
Qed.

Lemma nth_error_prefix (X : Type) (l rest : list X) (i : nat) (x : X) :
  nth_error l i = Some x -> nth_error (l ++ rest) i = Some x.
Proof.
  intros H. rewrite nth_error_app1; auto.
  apply nth_error_Some. congruence.
Qed.

Lemma nth_error_repeat_inv (X : Type) (y x : X) (n i : nat) :
  nth_error (repeat y n) i = Some x -> x = y /\ i < n.
Proof.
  intros H. split.
  - apply nth_error_In in H. apply repeat_spec in H. exact H.
  - rewrite <- (repeat_length y n). apply nth_error_Some. congruence.
Qed.

(** C2.  The data positions (the first read of a run) are read with field
    ['disp+rsd'], unless the convention is ['rsd']; the randoms positions
    (the later reads) are read with ['disp+rsd'] when the convention is
    ['recsym'] and with ['disp'] when it is ['reciso']. *)
Theorem run_reconstruction_fields (tr : trace) (r : result unit)
    (i : nat) (src : option string) (field : string) :
  runs program tr r ->
  nth_error (seen read_view tr) i = Some (src, field) ->
  (i = 0 -> convention <> "rsd" -> field = "disp+rsd")
  /\ (i = 0 -> convention = "rsd" -> field = "rsd")
  /\ (0 < i -> convention = "recsym" -> field = "disp+rsd")
  /\ (0 < i -> convention = "reciso" -> field = "disp")
  /\ (0 < i -> convention <> "rsd").
Proof.
  intros H Hi.
  destruct (reads_emits _ _ H) as [[rest Hrest] _].
  apply nth_error_prefix with (rest := rest) in Hi. rewrite <- Hrest in Hi.
  destruct i as [| i]; simpl in Hi.
  - injection Hi as _ <-.
    split; [| split; [| split; [| split]]]; try (intros; lia).
    + intros _ Hc. apply String.eqb_neq in Hc. rewrite Hc. reflexivity.
    + intros _ ->. reflexivity.
  - apply nth_error_repeat_inv in Hi as [Hi Hlt]. injection Hi as _ ->.
    split; [| split; [| split; [| split]]]; try (intros; lia).
    + intros _ ->. reflexivity.
    + intros _ ->. reflexivity.
    + intros _ ->. unfold randoms_outputs in Hlt. simpl in Hlt. lia.
Qed.

(** C10.  With the convention ['rsd'] the stage that writes the randoms is
    skipped: the only read of shifted positions is the data's, with field
    ['rsd']; no catalog but the data's is read for output, and no file but
    the data's is written.  A run that returns has read the data
    positions with ['rsd'] and, on the root rank, written the data
    catalog. *)
Theorem rsd_skips_randoms_output (tr : trace) (r : result unit) :
  convention = "rsd" ->
  runs program tr r ->
  let data_read :=
    [(if is_particle Reconstruction then Some "data" else None, "rsd")] in
  (exists rest, data_read = seen read_view tr ++ rest)
  /\ (exists rest,
        (if is_root mpicomm then [data_fn; data_fn] else [])
        = seen readback_view tr ++ rest)
  /\ (exists rest,
        (if is_root mpicomm then [data_rec_fn] else [])
        = seen write_view tr ++ rest)
  /\ (r = Ok tt ->
      seen read_view tr = data_read
      /\ seen write_view tr = if is_root mpicomm then [data_rec_fn] else []).
Proof.
  intros Hc H data_read.
  assert (Hreads : emits read_view program data_read).
  { eapply emits_eq; [apply reads_emits |].
    unfold data_read, randoms_outputs. rewrite Hc. reflexivity. }
  assert (Hback : emits readback_view program
                    (if is_root mpicomm then [data_fn; data_fn] else [])).
  { unfold program. subst convention.
    emits_run_reconstruction mpicomm "rsd" Reconstruction;
      simpl; rewrite ?flat_map_const, ?concat_repeat_nil; reflexivity. }
  assert (Hwrites : emits write_view program
                      (if is_root mpicomm then [data_rec_fn] else [])).
  { unfold program. subst convention.
    emits_run_reconstruction mpicomm "rsd" Reconstruction;
      simpl; rewrite ?flat_map_const, ?concat_repeat_nil; reflexivity. }
  destruct (Hreads _ _ H) as [Hr1 Hr2].
  destruct (Hback _ _ H) as [Hb1 _].
  destruct (Hwrites _ _ H) as [Hw1 Hw2].
  split; [exact Hr1 |]. split; [exact Hb1 |]. split; [exact Hw1 |].
  intros ->. split; [apply Hr2 | apply Hw2]; reflexivity.
Qed.

(* --------------------------------------------------------------------- *)
(** *** Ranks other than the root                                         *)
(* --------------------------------------------------------------------- *)

Lemma always_do (A : Type) (P : event -> Prop) (Q : A -> Prop) (c : call)
    (k : answer c -> prog A) :
  (forall o, P (Event c o)) -> (forall a, always P Q (k a)) ->
  always P Q (Do c k).
Proof.
  intros HP Hk tr r [(e & -> & ->) | (a & tr' & -> & H)].
  - split; [repeat constructor; apply HP | discriminate].
  - destruct (Hk a _ _ H) as [HF HQ]. split; [constructor; auto | exact HQ].
Qed.

Lemma assign_randoms_body_off_root (fn : string) (s : loop_locals) :
  is_root mpicomm = false -> no_locals s ->
  always (fun e => off_root_call (ev_call e)) no_locals
    (assign_randoms_body distance dtype mpicomm kw fn s).
Proof.
  intros Hroot ->. unfold assign_randoms_body, root. rewrite Hroot.
  unfold_calls. simpl.
  apply always_do; [simpl; auto | intros _].
  apply always_ret. reflexivity.
Qed.

Lemma write_randoms_body_off_root (d2z : callable) (item : string * string)
    (s : loop_locals) :
  is_root mpicomm = false -> no_locals s ->
  always (fun e => off_root_call (ev_call e)) no_locals
    (write_randoms_body distance convention dtype mpicomm kw d2z item s).
Proof.
  intros Hroot ->. destruct item as [fn rec_fn].
  unfold write_randoms_body, root. rewrite Hroot.
  unfold_calls. simpl.
  apply always_do; [simpl; auto | intros _].
  apply always_ret. reflexivity.
Qed.

Lemma off_root_always :
  is_root mpicomm = false ->
  always (fun e => off_root_call (ev_call e)) (fun _ => True) program.
Proof.
  intros Hroot.
  unfold program, run_reconstruction, load_data, construct,
    read_shifted_data, write_data, write_randoms, root.
  rewrite Hroot. unfold_calls. simpl.
  apply always_do; [simpl; auto | intros _].
  apply always_do; [simpl; auto | intros _].
  eapply always_bind.
  { apply always_for_each with (I := no_locals); [| reflexivity].
    intros fn s _ Hs. apply assign_randoms_body_off_root; assumption. }
  intros s Hs. rewrite Hs. cbv beta iota.
  apply always_do; [simpl; auto | intros _].
  apply always_do; [simpl; auto | intros _].
  eapply always_bind with (Q := fun _ => True).
  { destruct (is_particle Reconstruction);
      (apply always_do; [simpl; auto | intros ?; apply always_ret; exact I]). }
  intros data_positions_rec _.
  apply always_do; [simpl; auto | intros distance_to_redshift].
  destruct (negb (String.eqb convention "rsd")).
  - eapply always_bind; [| intros ? _; apply always_ret; exact I].
    apply always_for_each with (I := no_locals); [| reflexivity].
    intros item s' _ Hs'. apply write_randoms_body_off_root; assumption.
  - apply always_ret. exact I.
Qed.

(** C6.  Under an MPI communicator, a rank other than 0 does no catalog
    file I/O: it reads no catalog, makes no directory and writes no file;
    it constructs the reconstruction object with [None] positions and
    passes [None] positions and weights to [assign_data] and to every
    [assign_randoms]. *)
Theorem off_root_no_catalog_io (comm : communicator)
    (tr : trace) (r : result unit) :
  mpicomm = Some comm ->
  rank comm <> 0%Z ->
  runs program tr r ->
  Forall (fun e => off_root_call (ev_call e)) tr.
Proof.
  intros Hcomm Hrank H.
  assert (Hroot : is_root mpicomm = false).
  { rewrite Hcomm. simpl. apply Z.eqb_neq. exact Hrank. }
  exact (proj1 (off_root_always Hroot _ _ H)).
Qed.

(* --------------------------------------------------------------------- *)
(** *** What is written                                                   *)
(* --------------------------------------------------------------------- *)

Lemma well_written_other (c : call) (o : result (answer c)) (h : trace) :
  write_view c = [] -> well_written distance kw dtype h (Event c o).
Proof. destruct c; simpl; intros H; try exact I. discriminate. Qed.

Lemma well_written_off_root (tr : trace) (r : result unit) (h : trace) :
  is_root mpicomm = false -> runs program tr r ->
  each_after (well_written distance kw dtype) h tr.
Proof.
  intros Hroot H. apply each_after_Forall.
  eapply Forall_impl; [| exact (proj1 (off_root_always Hroot _ _ H))].
  intros [c o] Hc h'. apply well_written_other.
  destruct c; simpl in *; try reflexivity. contradiction.
Qed.

Lemma assign_randoms_not_written (l : list string) (s : loop_locals)
    (tr : trace) (r : result loop_locals) (h : trace) :
  runs (for_each (assign_randoms_body distance dtype mpicomm kw) l s) tr r ->
  each_after (well_written distance kw dtype) h tr.
Proof.
  intros H. apply each_after_Forall.
  assert (E : everywhere (fun c => write_view c = [])
                (for_each (assign_randoms_body distance dtype mpicomm kw) l s)).
  { everywhere_auto. }
  eapply Forall_impl; [| exact (everywhere_runs _ _ E H)].
  intros [c o] Hc h'. apply well_written_other. exact Hc.
Qed.

(** One step of a run: the next call raises or answers.  The events
    that are not writes are dealt with on the way. *)
Ltac run_step H :=
  lazymatch type of H with
  | runs (Do _ _) _ _ =>
      let e := fresh "e" in
      let a := fresh "a" in
      let tr := fresh "tr" in
      apply runs_do_inv in H as [(e & -> & ->) | (a & tr & -> & H)];
      cbn [each_after];
      [split; [try (apply well_written_other; reflexivity) | exact I]
      |split; [try (apply well_written_other; reflexivity) |]]
  | runs (Ret _) _ _ => apply runs_ret_inv in H as [-> ->]; exact I
  | runs (Throw _) _ _ => apply runs_throw_inv in H as [-> ->]; exact I
  | runs (match ?x with _ => _ end) _ _ => destruct x; cbn [bind] in H
  | runs (bind (match ?x with _ => _ end) _) _ _ => destruct x; cbn [bind] in H
  | runs ?p _ _ =>
      match p with
      | context [lift ?x] => destruct x eqn:?; cbn [lift bind] in H
      | context [bound (Some _)] => cbn [bound bind] in H
      | context [bound None] => cbn [bound bind] in H
      | context [bound ?x] => destruct x; cbn [bound bind] in H
      end
  end.

Ltac destruct_units :=
  repeat match goal with
         | x : ?T |- _ =>
             let T' := eval cbn in T in
             match T' with unit => destruct x end
         end.

(** A write event: its format and flag, then where its catalog comes
    from, which leaves the events before it and the two table
    operations to account for. *)
Ltac write_event :=
  destruct_units;
  rewrite <- ?app_assoc; cbn [app];
  unfold well_written; cbn [ev_call];
  split; [reflexivity | split; [reflexivity |]];
  eexists (Conversion _ _ _ _ _ _ _ _ _ _ _ _ _ _ _ _ _);
  unfold written_from; split.

Ltac table_operations := eexists; split; cbn; eassumption.

Ltac same_events :=
  unfold loading, shifting, saving; cbn; reflexivity.

(** An event of the history, found among those listed. *)
Ltac in_history :=
  rewrite ?in_app_iff; cbn [In];
  let rec go :=
    solve [assumption | reflexivity | left; go | right; go] in
  go.

Lemma write_randoms_body_written (d2z : callable) (item : string * string)
    (s : loop_locals) (before tr : trace) (r : result loop_locals) :
  is_root mpicomm = true ->
  In (Event (MakeDistanceToRedshift distance) (Ok d2z)) before ->
  runs (write_randoms_body distance convention dtype mpicomm kw d2z item s) tr r ->
  each_after (well_written distance kw dtype) before tr.
Proof.
  intros Hroot Hmade H. destruct item as [fn rec_fn].
  unfold write_randoms_body, root in H. rewrite Hroot in H.
  destruct s as [[catalog rp] rw]. unfold_calls. unfold ext in H.
  cbn [bind] in H.
  repeat run_step H;
    (write_event;
     [ right; unfold before_randoms_write; eexists;
       split; [same_events | split; [exact Hmade | reflexivity]]
     | table_operations ]).
Qed.

Lemma write_randoms_loop_written (d2z : callable)
    (items : list (string * string)) (s : loop_locals) (before tr : trace)
    (r : result loop_locals) :
  is_root mpicomm = true ->
  In (Event (MakeDistanceToRedshift distance) (Ok d2z)) before ->
  runs (for_each
          (write_randoms_body distance convention dtype mpicomm kw d2z)
          items s) tr r ->
  each_after (well_written distance kw dtype) before tr.
Proof.
  intros Hroot. revert s before tr r.
  induction items as [| item items IH]; cbn [for_each];
    intros s before tr r Hmade H.
  - apply runs_ret_inv in H as [-> _]. exact I.
  - apply runs_bind_inv in H
      as [(e & H & _) | (s' & tr1 & tr2 & H1 & H2 & ->)].
    + eapply write_randoms_body_written; eassumption.
    + apply each_after_app.
      * eapply write_randoms_body_written; eassumption.
      * eapply IH; [| eassumption]. apply in_or_app. left. exact Hmade.
Qed.

Lemma well_written_on_root (tr : trace) (r : result unit) :
  is_root mpicomm = true -> runs program tr r ->
  each_after (well_written distance kw dtype) [] tr.
Proof.
  intros Hroot H.
  unfold program, run_reconstruction, load_data, construct,
    read_shifted_data, write_data, write_randoms, root in H.
  rewrite Hroot in H. unfold_calls. unfold ext in H.
  destruct (is_particle Reconstruction) eqn:Hcls; cbn [bind] in H.
  all: repeat run_step H.
  all: apply runs_bind_inv in H
         as [(e & H & _) | (s' & tr1 & tr2 & H1 & H & ->)];
       [eapply assign_randoms_not_written; eassumption |].
  all: apply each_after_app;
       [eapply assign_randoms_not_written; eassumption |].
  all: destruct s' as [[catalog rp] rw].
  all: repeat run_step H.
  all: lazymatch goal with
       | |- well_written _ _ _ _ _ =>
           write_event;
           [ left; unfold before_data_write; do 4 eexists;
             split; [same_events | cbn; auto]
           | table_operations ]
       | |- each_after _ _ _ =>
           apply runs_bind_inv in H
             as [(e' & H & _) | (s' & tr3 & tr4 & H2 & H & ->)];
           [ eapply write_randoms_loop_written;
             [eassumption | | eassumption]; in_history
           | apply each_after_app;
             [ eapply write_randoms_loop_written;
               [eassumption | | eassumption]; in_history
             | apply runs_ret_inv in H as [-> _]; exact I ] ]
       end.
Qed.

(** Every write of every run is a well-formed write of a catalog that
    went through the conversions. *)
Lemma run_reconstruction_well_written (tr : trace) (r : result unit) :
  runs program tr r -> each_after (well_written distance kw dtype) [] tr.
Proof.
  intros H. destruct (is_root mpicomm) eqn:Hroot.
  - apply well_written_on_root with (r := r); assumption.
  - apply well_written_off_root with (r := r); assumption.
Qed.

(** The files written, in order: the data's, then the randoms'. *)
Lemma writes_emits :
  emits write_view program
    (if is_root mpicomm
     then data_rec_fn
            :: (if String.eqb convention "rsd" then []
                else map snd (zip (randoms_fn_list randoms_fn)
                                (py_iter randoms_rec_fn)))
     else []).
Proof.
  unfold program.
  emits_run_reconstruction mpicomm convention Reconstruction;
    simpl;
    rewrite ?flat_map_const, ?concat_repeat_nil, ?flat_map_singleton,
      ?app_nil_r;
    reflexivity.
Qed.


Lemma ends_with_app (X : Type) (x : X) (l l' : list X) :
  (exists e, l' = e ++ [x]) -> exists e, l ++ l' = e ++ [x].
Proof. intros [e ->]. exists (l ++ e). apply app_assoc. Qed.

(** C4.  Every catalog written by [run_reconstruction] is written in
    FITS format with overwrite enabled, right after the directory of
    the output file has been made.  It is the table read from the input
    file, restricted to the mask of the reader, with the columns [RA],
    [DEC] and [Z] set to the shifted sky coordinates: each of the three
    holds the array converted back, as it is when it has one value per
    selected row, and in any case as it is or, for an array of one
    value, that value in every row; every other column is the
    mask-selected input column, and the input columns keep their order.
    The files written are the data's and then, when the convention is
    not ['rsd'], one per pair of [zip(randoms_fn, randoms_rec_fn)], on
    the root rank only; a call that returns has written them all. *)
Theorem written_catalog_frame (tr : trace) (r : result unit)
    (pre post : trace) (T : table) (out format : string) (overwrite : bool)
    (o : result unit) :
  runs program tr r ->
  tr = pre ++ Event (TableWrite T out format overwrite) o :: post ->
  format = "fits" /\ overwrite = true
  /\ (exists earlier, pre = earlier ++ [Event (Mkdir (dirname out)) (Ok tt)])
  /\ (exists cv selected,
        written_from distance kw dtype pre T out cv
        /\ table_getitem_mask (cv_table cv) (cv_mask cv) = Ok selected
        /\ (exists c, get_column "RA" T = Some c /\ holds (cv_ra_rec cv) c)
        /\ (exists c, get_column "DEC" T = Some c /\ holds (cv_dec_rec cv) c)
        /\ (exists c, get_column "Z" T = Some c /\ holds (cv_z_rec cv) c)
        /\ (length (cv_ra_rec cv) = length (filter (fun b => b) (cv_mask cv)) ->
            length (cv_dec_rec cv) = length (filter (fun b => b) (cv_mask cv)) ->
            length (cv_z_rec cv) = length (filter (fun b => b) (cv_mask cv)) ->
            get_column "RA" T = Some (FloatCol (cv_ra_rec cv))
            /\ get_column "DEC" T = Some (FloatCol (cv_dec_rec cv))
            /\ get_column "Z" T = Some (FloatCol (cv_z_rec cv)))
        /\ (forall name, name <> "RA" -> name <> "DEC" -> name <> "Z" ->
              get_column name T
              = option_map (select_column (cv_mask cv))
                  (get_column name (cv_table cv)))
        /\ exists added, colnames T = colnames (cv_table cv) ++ added)
  /\ (exists rest,
        (if is_root mpicomm
         then data_rec_fn
                :: (if String.eqb convention "rsd" then []
                    else map snd (zip (randoms_fn_list randoms_fn)
                                    (py_iter randoms_rec_fn)))
         else [])
        = seen write_view tr ++ rest)
  /\ (r = Ok tt ->
      seen write_view tr
      = if is_root mpicomm
        then data_rec_fn
               :: (if String.eqb convention "rsd" then []
                   else map snd (zip (randoms_fn_list randoms_fn)
                                   (py_iter randoms_rec_fn)))
        else []).
Proof.
  intros H E.
  pose proof H as Hw. apply run_reconstruction_well_written in Hw.
  apply each_after_split with (1 := Hw) in E as Hw'. clear Hw.
  rename Hw' into Hw.
  cbn [app] in Hw. unfold well_written in Hw. cbn [ev_call] in Hw.
  destruct Hw as (Hf & Ho & cv & Hfrom).
  split; [exact Hf |]. split; [exact Ho |]. split; [| split; [| split]].
  - destruct Hfrom as [[(cls & args & sr & mid & -> & _) | (earlier & -> & _)] _];
      unfold saving; repeat apply ends_with_app;
      eexists [_; _; _]; reflexivity.
  - pose proof Hfrom as (_ & selected & Hsel & Hset).
    exists cv, selected. split; [exact Hfrom |]. split; [exact Hsel |].
    pose proof Hset as Hrows.
    apply set_sky_columns_spec in Hset as (Hra & Hdec & Hz & Hother & a & Hn).
    apply table_getitem_mask_spec in Hsel as (Hn0 & Hcols & Hrect).
    split; [exact Hra |]. split; [exact Hdec |]. split; [exact Hz |].
    split; [| split].
    + intros L1 L2 L3.
      exact (@set_sky_columns_rows _ _ _ _ _ _ Hrect L1 L2 L3 Hrows).
    + intros name H1 H2 H3. rewrite Hother by assumption. apply Hcols.
    + exists a. rewrite Hn, Hn0. reflexivity.
  - exact (proj1 (writes_emits _ _ H)).
  - intros ->. exact (proj2 (writes_emits _ _ H) eq_refl).
Qed.



End RunFacts.

(* ===================================================================== *)
(** ** The redshift limits                                                *)
(* ===================================================================== *)


Lemma resolved_values_cons (e : event) (tr : trace) :
  resolved_values (e :: tr) = resolved_by e ++ resolved_values tr.
Proof. reflexivity. Qed.

Lemma seen_cons (X : Type) (view : call -> list X) (e : event) (tr : trace) :
  seen view (e :: tr) = view (ev_call e) ++ seen view tr.
Proof. reflexivity. Qed.



Lemma seen_quiet (X : Type) (view : call -> list X) (tr : trace) :
  Forall (fun e => view (ev_call e) = []) tr -> seen view tr = [].
Proof.
  induction 1 as [| e tr He _ IH]; [reflexivity |].
  unfold seen in *. simpl. rewrite IH, He. reflexivity.
Qed.

Lemma seen_all (X : Type) (view : call -> list X) (P : X -> Prop) (tr : trace) :
  Forall (fun e => Forall P (view (ev_call e))) tr -> Forall P (seen view tr).
Proof.
  induction 1 as [| e tr He _ IH]; [constructor |].
  unfold seen in *. simpl. apply Forall_app. auto.
Qed.

(** The list comprehension [[float(zlim) for zlim in args.zlim]]. *)
Lemma comprehension_py_float (l : list string) (tr : trace)
    (r : result (list pyfloat)) :
  runs (comprehension py_float l) tr r ->
  Forall (fun e => range_view (ev_call e) = []
                   /\ growth_view (ev_call e) = []) tr
  /\ (exists rest, map ParseFloat l = seen resolve_view tr ++ rest)
  /\ (forall ys, r = Ok ys ->
        resolved_values tr = ys /\ seen resolve_view tr = map ParseFloat l).
Proof.
  revert tr r. induction l as [| x l IH]; cbn [comprehension]; intros tr r H.
  - apply runs_ret_inv in H as [-> ->].
    split; [constructor |]. split; [exists []; reflexivity |].
    intros ys E. injection E as <-. split; reflexivity.
  - unfold py_float, ext in H. cbn [bind] in H.
    apply runs_do_inv in H as [(e & -> & ->) | (a & tr' & -> & H)].
    + split; [repeat constructor |].
      split; [eexists; reflexivity | discriminate].
    + apply runs_bind_inv in H
        as [(e & H & ->) | (ys & tr1 & tr2 & H1 & H2 & ->)].
      * destruct (IH _ _ H) as (Hq & [rest Hp] & _).
        split; [constructor; [split; reflexivity | exact Hq] |].
        split; [| discriminate].
        exists rest. rewrite seen_cons. cbn [map]. rewrite Hp. reflexivity.
      * apply runs_ret_inv in H2 as [-> ->]. rewrite app_nil_r.
        destruct (IH _ _ H1) as (Hq & _ & Hok).
        destruct (Hok ys eq_refl) as [Hv Hs].
        split; [constructor; [split; reflexivity | exact Hq] |].
        split; [exists []; rewrite seen_cons, Hs, app_nil_r; reflexivity |].
        intros ys' E. injection E as <-.
        split; [rewrite resolved_values_cons, Hv
               | rewrite seen_cons, Hs]; reflexivity.
Qed.

(** Lines 156-160: the values resolved and the one range made of them. *)
Lemma resolve_zlims_runs (args : arguments) (tr : trace)
    (r : result (list (pyfloat * pyfloat))) :
  runs (resolve_zlims args) tr r ->
  Forall (fun e => range_view (ev_call e) = []
                   /\ growth_view (ev_call e) = []) tr
  /\ (exists rest,
        match arg_zlim args with
        | Some l => map ParseFloat l
        | None => [GetZCutsky (arg_tracer args)]
        end = seen resolve_view tr ++ rest)
  /\ (forall zlims, r = Ok zlims ->
        exists v vs, resolved_values tr = v :: vs
                     /\ zlims = [(v, last vs v)]).
Proof.
  unfold resolve_zlims. intros H.
  apply runs_bind_inv in H
    as [(e & H & ->) | (ys & tr1 & tr2 & H1 & H2 & ->)].
  - destruct (arg_zlim args) as [l |].
    + destruct (comprehension_py_float _ _ _ H) as (Hq & Hp & _).
      split; [exact Hq |]. split; [exact Hp | discriminate].
    + apply runs_ext_inv in H as [(e' & -> & _) | (a & _ & E)];
        [| discriminate].
      split; [repeat constructor |].
      split; [exists []; reflexivity | discriminate].
  - apply runs_lift_inv in H2 as [-> ->]. rewrite app_nil_r.
    assert (Hys : resolved_values tr1 = ys
                  /\ Forall (fun e => range_view (ev_call e) = []
                                      /\ growth_view (ev_call e) = []) tr1
                  /\ exists rest,
                       match arg_zlim args with
                       | Some l => map ParseFloat l
                       | None => [GetZCutsky (arg_tracer args)]
                       end = seen resolve_view tr1 ++ rest).
    { destruct (arg_zlim args) as [l |].
      - destruct (comprehension_py_float _ _ _ H1) as (Hq & Hp & Hok).
        destruct (Hok ys eq_refl) as [Hv _]. auto.
      - apply runs_ext_inv in H1 as [(e' & _ & E) | (a & -> & E)];
          [discriminate |].
        injection E as <-.
        split; [cbn; apply app_nil_r |].
        split; [repeat constructor | exists []; reflexivity]. }
    destruct Hys as (Hv & Hq & Hp).
    split; [exact Hq |]. split; [exact Hp |].
    intros zlims E. destruct ys as [| v vs]; [discriminate |].
    injection E as <-. exists v, vs. auto.
Qed.




Lemma emits_quiet (X A : Type) (view : call -> list X) (m : prog A) :
  everywhere (fun c => view c = []) m -> emits view m [].
Proof.
  intros E tr r H. rewrite (seen_quiet view (everywhere_runs _ _ E H)).
  split; [exists []; reflexivity | reflexivity].
Qed.



Section Limits.
Variable args : arguments.



End Limits.








(* ===================================================================== *)
(** ** Further facts about runs                                           *)
(* ===================================================================== *)

(* --------------------------------------------------------------------- *)
(** *** Lists, and more ways to reason about runs                         *)
(* --------------------------------------------------------------------- *)

Lemma map_snd_zip (A B : Type) (a : list A) (b : list B) :
  map snd (zip a b) = firstn (length a) b.
Proof.
  revert b. induction a as [| x a IH]; intros [| y b]; simpl; auto.
  rewrite <- IH. reflexivity.
Qed.

Lemma Forall_firstn_of (X : Type) (P : X -> Prop) (n : nat) (l : list X) :
  Forall P l -> Forall P (firstn n l).
Proof.
  intros H. revert n. induction H as [| x l Hx _ IH]; intros [| n]; simpl;
    constructor; auto.
Qed.

Lemma chars_length (s : string) :
  Forall (fun c => String.length c = 1) (chars s).
Proof. induction s; simpl; constructor; auto. Qed.

Lemma app_cons_snoc (X : Type) (h : list X) (x : X) (t : list X) :
  h ++ x :: t = (h ++ [x]) ++ t.
Proof. rewrite <- app_assoc. reflexivity. Qed.

(** [emits_bind] when what [m] returns is known to satisfy [Q]. *)
Lemma emits_bind_when (X A B : Type) (view : call -> list X) (Q : A -> Prop)
    (m : prog A) (k : A -> prog B) (L1 L2 : list X) :
  (forall tr a, runs m tr (Ok a) -> Q a) ->
  emits view m L1 -> (forall a, Q a -> emits view (k a) L2) ->
  emits view (bind m k) (L1 ++ L2).
Proof.
  intros HQ Hm Hk tr r H.
  apply runs_bind_inv in H
    as [(e & H & ->) | (a & tr1 & tr2 & H1 & H2 & ->)].
  - destruct (Hm _ _ H) as [(rest & ->) _]. split; [| discriminate].
    exists (rest ++ L2). rewrite app_assoc. reflexivity.
  - destruct (Hm _ _ H1) as [_ E1]. specialize (E1 eq_refl).
    destruct (Hk a (HQ _ _ H1) _ _ H2) as [(rest & E2) E3].
    rewrite seen_app, E1. split.
    + exists rest. rewrite E2, app_assoc. reflexivity.
    + intros Hr. rewrite (E3 Hr). reflexivity.
Qed.

Lemma everywhere_do (A : Type) (P : call -> Prop) (c : call)
    (k : answer c -> prog A) :
  P c -> (forall a, everywhere P (k a)) -> everywhere P (Do c k).
Proof.
  intros Hc Hk tr r [(e & -> & ->) | (a & tr' & -> & H)].
  - split; [repeat constructor; exact Hc | discriminate].
  - destruct (Hk a _ _ H) as [HF HQ]. split; [constructor; auto | exact HQ].
Qed.

Lemma everywhere_for_each_in (P : call -> Prop) (X S : Type)
    (body : X -> S -> prog S) (l : list X) :
  (forall x s, In x l -> everywhere P (body x s)) ->
  forall s, everywhere P (for_each body l s).
Proof.
  intros Hb s.
  apply always_for_each with (I := fun _ => True); auto.
  intros x s' Hx _. apply Hb. exact Hx.
Qed.

(** Events that satisfy [Q] satisfy [P] after [before], when [Q] gives
    [P] after any history that starts with [before]. *)
Lemma each_after_from (P : trace -> event -> Prop) (Q : event -> Prop)
    (tr : trace) :
  forall before,
    (forall h e, Q e -> P (before ++ h) e) ->
    Forall Q tr -> each_after P before tr.
Proof.
  induction tr as [| e tr IH]; intros before HP HQ; [exact I |].
  inversion HQ as [| ? ? He Htr]; subst. cbn [each_after]. split.
  - rewrite <- (app_nil_r before). apply HP. exact He.
  - apply IH; [| exact Htr].
    intros h e' He'. rewrite <- app_assoc. apply HP. exact He'.
Qed.

Lemma each_after_of_split (P : trace -> event -> Prop) (tr : trace) :
  forall before,
    (forall pre e post, tr = pre ++ e :: post -> P (before ++ pre) e) ->
    each_after P before tr.
Proof.
  induction tr as [| e tr IH]; intros before H; [exact I |].
  cbn [each_after]. split.
  - rewrite <- (app_nil_r before). apply (H [] e tr). reflexivity.
  - apply IH. intros pre e' post ->. rewrite <- app_assoc.
    apply (H (e :: pre) e' post). reflexivity.
Qed.

Lemma last_some (X : Type) (x : X) (l : list X) :
  l <> [] -> Forall (fun y => y = x) l -> last (map Some l) None = Some x.
Proof.
  intros Hne H. induction H as [| y l -> _ IH]; [contradiction |].
  destruct l as [| z l]; [reflexivity |].
  change (last (map Some (x :: z :: l)) None)
    with (last (map Some (z :: l)) None).
  apply IH. discriminate.
Qed.

Lemma last_some_app (X : Type) (x : X) (l0 l : list X) :
  l <> [] -> Forall (fun y => y = x) l ->
  last (map Some (l0 ++ l)) None = Some x.
Proof.
  intros Hne H. induction l0 as [| y l0 IH]; [apply last_some; assumption |].
  cbn [app map]. destruct (l0 ++ l) as [| z t] eqn:E.
  - apply app_eq_nil in E as [_ E]. contradiction.
  - exact IH.
Qed.

(** The selections of a run are those among its catalog accesses. *)
Lemma selection_of_accesses (tr : trace) :
  seen selection_view tr
  = flat_map (fun a => match a with
                       | Selected _ _ kw => [kw]
                       | _ => []
                       end) (seen io_view tr).
Proof.
  induction tr as [| [c o] tr IH]; [reflexivity |].
  rewrite !seen_cons, flat_map_app, <- IH. cbn [ev_call].
  destruct c; reflexivity.
Qed.

(** A run of [mpi.COMM_WORLD ;; k] that starts with the answer
    [mpicomm] goes on as [k mpicomm]. *)
Lemma world_communicator_do (A : Type) (k : option communicator -> prog A)
    (mpicomm : option communicator) (tr : trace) (r : result A) :
  runs (Do MpiCommWorld k) tr r ->
  world_communicator tr = Some mpicomm ->
  exists tr', tr = Event MpiCommWorld (Ok mpicomm) :: tr' /\ runs (k mpicomm) tr' r.
Proof.
  intros H Hc.
  apply runs_do_inv in H as [(e & -> & ->) | (a & tr' & -> & H)].
  - discriminate Hc.
  - injection Hc as <-. exists tr'. auto.
Qed.

(** One step of a run: the next call raises or answers.  The events a
    statement says nothing about are dealt with on the way. *)
Ltac trace_step H :=
  lazymatch type of H with
  | runs (Do _ _) _ _ =>
      let e := fresh "e" in
      let a := fresh "a" in
      let tr := fresh "tr" in
      apply runs_do_inv in H as [(e & -> & ->) | (a & tr & -> & H)];
      cbn [each_after];
      [split; [try exact I | exact I] | split; [try exact I |]]
  | runs (Ret _) _ _ => apply runs_ret_inv in H as [-> ->]; exact I
  | runs (Throw _) _ _ => apply runs_throw_inv in H as [-> ->]; exact I
  | runs (match ?x with _ => _ end) _ _ => destruct x; cbn [bind] in H
  | runs (bind (match ?x with _ => _ end) _) _ _ => destruct x; cbn [bind] in H
  | runs ?p _ _ =>
      match p with
      | context [lift ?x] => destruct x eqn:?; cbn [lift bind] in H
      | context [bound (Some _)] => cbn [bound bind] in H
      | context [bound None] => cbn [bound bind] in H
      | context [bound ?x] => destruct x; cbn [bound bind] in H
      end
  end.

Ltac destruct_unit_answers :=
  repeat match goal with
         | x : ?T |- _ =>
             let T' := eval cbn in T in
             match T' with unit => destruct x end
         end.

Ltac everywhere_calls :=
  repeat first [apply everywhere_do; [try reflexivity | intros ?]
               | everywhere_step].

Ltac everywhere_in_step :=
  lazymatch goal with
  | |- everywhere _ (for_each _ _ _) =>
      apply everywhere_for_each_in; intros ? ? ?
  | |- everywhere ?P (ext ?c) => refine (@everywhere_ext P c _)
  | _ => everywhere_step
  end.

(** A part of a program that a view sees nothing of. *)
Ltac quiet_then :=
  apply emits_bind with (L1 := []);
  [apply emits_quiet; everywhere_auto | intros ?].

(** One step of a run that ends with an exception; the goal is about
    the events so far followed by the rest of the run. *)
Ltac raise_step H :=
  lazymatch type of H with
  | runs (Do _ _) _ (Raised _) =>
      let e := fresh "e" in
      let a := fresh "a" in
      let tr := fresh "tr" in
      let E := fresh "E" in
      apply runs_do_inv in H as [(e & -> & E) | (a & tr & -> & H)];
      [injection E as <-; left; eexists _, _; reflexivity
      |rewrite app_cons_snoc]
  | runs (Ret _) _ (Raised _) =>
      let E := fresh "E" in destruct H as [_ E]; discriminate E
  | runs (Throw _) _ (Raised _) =>
      let E := fresh "E" in
      apply runs_throw_inv in H as [-> E]; injection E as <-;
      rewrite app_nil_r
  | runs (match ?x with _ => _ end) _ _ => destruct x; cbn [bind] in H
  | runs (bind (match ?x with _ => _ end) _) _ _ => destruct x; cbn [bind] in H
  | runs ?p _ _ =>
      match p with
      | context [lift ?x] => destruct x eqn:?; cbn [lift bind] in H
      | context [bound (Some _)] => cbn [bound bind] in H
      | context [bound None] => cbn [bound bind] in H
      | context [bound ?x] => destruct x; cbn [bound bind] in H
      end
  end.

(* --------------------------------------------------------------------- *)
(** *** The exceptions of the table operations                            *)
(* --------------------------------------------------------------------- *)

Lemma table_getitem_mask_raises (t : table) (mask : list bool) (e : exn) :
  table_getitem_mask t mask = Raised e -> e = "IndexError".
Proof.
  unfold table_getitem_mask. destruct (_ || _); [discriminate |].
  intros H. injection H as <-. reflexivity.
Qed.

Lemma table_setitem_raises (t : table) (name : string) (values : farray)
    (e : exn) :
  table_setitem t name values = Raised e -> e = "ValueError".
Proof.
  unfold table_setitem.
  destruct (get_column name t); destruct (_ || _); try discriminate.
  - destruct values as [| v [| w rest]]; try discriminate;
      intros H; injection H as <-; reflexivity.
  - intros H; injection H as <-; reflexivity.
Qed.

Lemma set_sky_columns_raises (t : table) (ra dec z : farray) (e : exn) :
  set_sky_columns t ra dec z = Raised e -> e = "ValueError".
Proof.
  unfold set_sky_columns.
  destruct (table_setitem t "RA" ra) as [t1 | e1] eqn:E1.
  - destruct (table_setitem t1 "DEC" dec) as [t2 | e2] eqn:E2.
    + apply table_setitem_raises.
    + intros H. injection H as <-. exact (table_setitem_raises _ _ _ E2).
  - intros H. injection H as <-. exact (table_setitem_raises _ _ _ E1).
Qed.

(** An exception of a table operation, after the call it follows. *)
Ltac raised_by_table :=
  right;
  first
    [ left; split; [reflexivity |];
      split; [eapply table_getitem_mask_raises; eassumption |];
      eexists _, _, _, _; reflexivity
    | right; split; [reflexivity |];
      split; [eapply set_sky_columns_raises; eassumption |];
      eexists _, _, _, _; reflexivity ].

Lemma for_each_raised_where (on_root : bool) (X S : Type)
    (body : X -> S -> prog S) :
  (forall x s h tr e, runs (body x s) tr (Raised e) ->
                      raised_where on_root (h ++ tr) e) ->
  forall l s h tr e,
    runs (for_each body l s) tr (Raised e) ->
    raised_where on_root (h ++ tr) e.
Proof.
  intros Hb. induction l as [| x l IH]; cbn [for_each]; intros s h tr e H.
  - destruct H as [_ E]. discriminate E.
  - apply runs_bind_inv in H
      as [(e' & H & E) | (s' & tr1 & tr2 & H1 & H2 & ->)].
    + injection E as <-. apply Hb with (1 := H).
    + rewrite app_assoc. apply IH with (1 := H2).
Qed.

(* --------------------------------------------------------------------- *)
(** *** [os.path.dirname] of a joined path                                *)
(* --------------------------------------------------------------------- *)

Lemma upto_last_sep_no_sep (p : string) :
  has_sep p = false -> upto_last_sep p = "".
Proof.
  destruct p as [| c p]; [reflexivity |].
  cbn [upto_last_sep]. intros ->. reflexivity.
Qed.

Lemma has_sep_joined (d base : string) :
  has_sep (d ++ String "/" base) = true.
Proof.
  induction d as [| c d IH]; [reflexivity |].
  cbn [append has_sep]. rewrite IH. apply orb_true_r.
Qed.

Lemma upto_last_sep_joined (d base : string) :
  has_sep base = false ->
  upto_last_sep (d ++ String "/" base) = (d ++ "/")%string.
Proof.
  intros Hb. induction d as [| c d IH].
  - cbn. rewrite (upto_last_sep_no_sep _ Hb). reflexivity.
  - cbn [append upto_last_sep has_sep].
    rewrite has_sep_joined, orb_true_r, IH. reflexivity.
Qed.

Lemma all_sep_snoc (d : string) : all_sep (d ++ "/") = all_sep d.
Proof.
  induction d as [| c d IH]; [reflexivity |].
  cbn [append all_sep]. rewrite IH. reflexivity.
Qed.

Lemma rstrip_sep_snoc (d : string) : rstrip_sep (d ++ "/") = rstrip_sep d.
Proof.
  induction d as [| c d IH]; [reflexivity |].
  cbn [append rstrip_sep]. rewrite IH. reflexivity.
Qed.

Lemma snoc_not_empty (d : string) : String.eqb (d ++ "/") "" = false.
Proof. destruct d; reflexivity. Qed.

(** A name without separator has the empty directory. *)
Lemma dirname_bare (base : string) : has_sep base = false -> dirname base = "".
Proof.
  intros Hb. unfold dirname. rewrite (upto_last_sep_no_sep _ Hb). reflexivity.
Qed.

(** The directory of [d/base] is [d] without its trailing separators,
    unless [d] is made of separators only. *)
Lemma dirname_joined (d base : string) :
  has_sep base = false ->
  dirname (d ++ "/" ++ base)
  = if all_sep d then (d ++ "/")%string else rstrip_sep d.
Proof.
  intros Hb. unfold dirname.
  change (d ++ "/" ++ base)%string with (d ++ String "/" base)%string.
  rewrite (upto_last_sep_joined d base Hb), snoc_not_empty, all_sep_snoc,
    rstrip_sep_snoc.
  destruct (all_sep d); reflexivity.
Qed.

(* ===================================================================== *)
(** ** Further facts about every call of [run_reconstruction]             *)
(* ===================================================================== *)

Section CallFacts.
Variable Reconstruction : reconstruction_class.
Variable distance : callable.
Variables data_fn : string.
Variable randoms_fn : str_or_list.
Variable data_rec_fn : string.
Variable randoms_rec_fn : str_or_list.
Variables f bias : pyfloat.
Variable boxsize : option pyfloat.
Variable nmesh : option Z.
Variables cellsize smoothing_radius : pyfloat.
Variable nthreads : Z.
Variables convention dtype : string.
Variable mpicomm : option communicator.
Variable kw : kwargs.

Let program : prog unit :=
  run_reconstruction Reconstruction distance data_fn randoms_fn data_rec_fn
    randoms_rec_fn f bias boxsize nmesh cellsize smoothing_radius nthreads
    convention dtype mpicomm kw.

(** The same call on another rank, and under another convention. *)
Let on_rank (comm : option communicator) : prog unit :=
  run_reconstruction Reconstruction distance data_fn randoms_fn data_rec_fn
    randoms_rec_fn f bias boxsize nmesh cellsize smoothing_radius nthreads
    convention dtype comm kw.

Let under (conv : string) : prog unit :=
  run_reconstruction Reconstruction distance data_fn randoms_fn data_rec_fn
    randoms_rec_fn f bias boxsize nmesh cellsize smoothing_radius nthreads
    conv dtype mpicomm kw.

(* --------------------------------------------------------------------- *)
(** *** The catalog files, in order                                       *)
(* --------------------------------------------------------------------- *)

Lemma io_emits :
  emits io_view program
    (if is_root mpicomm
     then catalog_accesses data_fn randoms_fn data_rec_fn randoms_rec_fn
            convention kw
     else []).
Proof.
  unfold program, catalog_accesses.
  emits_run_reconstruction mpicomm convention Reconstruction;
    simpl;
    rewrite ?flat_map_const, ?concat_repeat_nil, ?flat_map_singleton,
      ?app_nil_r;
    reflexivity.
Qed.

(** X1.  On the root rank the catalog files are gone through in one
    order: the data catalog is opened and selected with its mask; every
    file of [randoms_fn] is selected without mask, for assignment; the
    data catalog is written; then, unless the convention is ['rsd'],
    for every pair of [zip(randoms_fn, randoms_rec_fn)] the first file is
    opened and selected again, with its mask, and the second is written.
    Every selection passes the same keywords.  A run that raises stops
    along that order. *)
Theorem catalog_accesses_in_order (tr : trace) (r : result unit) :
  is_root mpicomm = true ->
  runs program tr r ->
  (exists rest,
     catalog_accesses data_fn randoms_fn data_rec_fn randoms_rec_fn
       convention kw
     = seen io_view tr ++ rest)
  /\ (r = Ok tt ->
      seen io_view tr
      = catalog_accesses data_fn randoms_fn data_rec_fn randoms_rec_fn
          convention kw).
Proof.
  intros Hroot H.
  destruct (io_emits _ _ H) as [Hpre Hok].
  rewrite Hroot in Hpre, Hok.
  split; [exact Hpre |]. intros ->. apply Hok. reflexivity.
Qed.

(** X2.  Only [randoms_fn] is made a list when it is one name.  When
    [randoms_rec_fn] is one name, [zip] iterates it by character: the
    random catalogs are written to files named by its first characters,
    one character each, as many as there are entries in [randoms_fn];
    with one name for each, the output goes to the file named by the
    first character of [randoms_rec_fn]. *)
Theorem scalar_randoms_rec_fn_by_character (name : string) (tr : trace) :
  is_root mpicomm = true ->
  convention <> "rsd" ->
  randoms_rec_fn = PyStr name ->
  runs program tr (Ok tt) ->
  seen write_view tr
  = data_rec_fn :: firstn (length (randoms_fn_list randoms_fn)) (chars name)
  /\ Forall (fun fn => String.length fn = 1) (tl (seen write_view tr))
  /\ (forall s, randoms_fn = PyStr s ->
        seen write_view tr = data_rec_fn :: firstn 1 (chars name)).
Proof.
  intros Hroot Hc Hrec H.
  destruct (writes_emits Reconstruction distance data_fn randoms_fn data_rec_fn
              randoms_rec_fn f bias boxsize nmesh cellsize smoothing_radius
              nthreads convention dtype mpicomm kw _ _ H) as [_ Hok].
  specialize (Hok eq_refl). apply String.eqb_neq in Hc.
  rewrite Hroot, Hc, Hrec, map_snd_zip in Hok. cbn [py_iter] in Hok.
  split; [exact Hok |]. split.
  - rewrite Hok. cbn [tl]. apply Forall_firstn_of, chars_length.
  - intros s Hs. rewrite Hok, Hs. reflexivity.
Qed.

(* --------------------------------------------------------------------- *)
(** *** The same calls on every rank                                      *)
(* --------------------------------------------------------------------- *)

Lemma collective_emits (comm : option communicator) :
  emits collective_view (on_rank comm)
    (collective_calls Reconstruction randoms_fn randoms_rec_fn
       smoothing_radius convention).
Proof.
  unfold on_rank, collective_calls, randoms_outputs.
  emits_run_reconstruction comm convention Reconstruction;
    simpl; unfold data_field, randoms_field;
    rewrite ?Hconv, ?flat_map_const, ?concat_repeat_nil,
      ?concat_repeat_singleton, ?length_zip, ?app_nil_r;
    reflexivity.
Qed.

(** X3.  The calls on the reconstruction object do not depend on the
    rank: when the call returns on one rank, the calls made on any other
    rank (the methods, the class, the smoothing radius, the tags and the
    fields, in order) are the first of the calls made on that rank, and
    all of them when the call returns there too. *)
Theorem ranks_stay_in_step (comm1 comm2 : option communicator)
    (tr1 tr2 : trace) (r1 r2 : result unit) :
  runs (on_rank comm1) tr1 r1 ->
  runs (on_rank comm2) tr2 r2 ->
  r1 = Ok tt ->
  (exists rest, seen collective_view tr1 = seen collective_view tr2 ++ rest)
  /\ (r2 = Ok tt -> seen collective_view tr1 = seen collective_view tr2).
Proof.
  intros H1 H2 ->.
  destruct (collective_emits comm1 _ _ H1) as [_ E1]. specialize (E1 eq_refl).
  destruct (collective_emits comm2 _ _ H2) as [[rest E2] E2'].
  split.
  - exists rest. rewrite E1. exact E2.
  - intros ->. rewrite E1. symmetry. apply E2'. reflexivity.
Qed.

(** X4.  [run_reconstruction] does not check its [convention]: any
    string other than ['rsd'] and ['recsym'] makes it run as under
    ['reciso']. *)
Theorem unknown_convention_is_reciso (conv : string) (tr : trace)
    (r : result unit) :
  conv <> "rsd" -> conv <> "recsym" ->
  runs (under conv) tr r <-> runs (under "reciso") tr r.
Proof.
  intros H1 H2. apply String.eqb_neq in H1, H2.
  assert (E : under conv = under "reciso").
  { unfold under, run_reconstruction, read_shifted_data, write_randoms,
      write_randoms_body, data_field, randoms_field.
    rewrite H1, H2. reflexivity. }
  rewrite E. reflexivity.
Qed.

(* --------------------------------------------------------------------- *)
(** *** What the reconstruction object is fed with                        *)
(* --------------------------------------------------------------------- *)

Let fed (on_root : bool) (before : trace) (e : event) : Prop :=
  fed_from distance kw dtype data_fn (randoms_fn_list randoms_fn) Reconstruction
    on_root before e.

Lemma assign_randoms_body_emits (fn : string) (s : loop_locals) :
  emits assign_view (assign_randoms_body distance dtype mpicomm kw fn s) [tt].
Proof.
  unfold assign_randoms_body, root. destruct s as [[catalog rp] rw].
  destruct (is_root mpicomm); unfold_calls;
    (eapply emits_eq; [repeat emits_step | reflexivity]).
Qed.

Lemma assign_randoms_body_fed (on_root : bool) (fn : string) (s : loop_locals)
    (before tr : trace) (r : result loop_locals) :
  is_root mpicomm = on_root ->
  nth_error (randoms_fn_list randoms_fn) (length (seen assign_view before))
  = Some fn ->
  runs (assign_randoms_body distance dtype mpicomm kw fn s) tr r ->
  each_after (fed on_root) before tr.
Proof.
  intros Hroot Hfn H. unfold assign_randoms_body, root in H.
  rewrite Hroot in H. destruct s as [[catalog rp] rw].
  destruct on_root; unfold_calls; unfold ext in H; cbn [bind] in H.
  - repeat trace_step H.
    all: unfold fed, fed_from; cbn [ev_call]; intros _.
    all: destruct_unit_answers.
    all: eexists fn, before, (Loaded _ _ _ _ _ _).
    all: split; [| split; [| split; reflexivity]].
    all: try (rewrite <- !app_assoc; reflexivity).
    all: rewrite !seen_app; cbn; rewrite !app_nil_r; exact Hfn.
  - repeat trace_step H.
    all: unfold fed, fed_from; cbn [ev_call]; discriminate.
Qed.

Lemma assign_randoms_loop_fed (on_root : bool) (l : list string) :
  is_root mpicomm = on_root ->
  forall (done : list string) (s : loop_locals) (before tr : trace)
         (r : result loop_locals),
    randoms_fn_list randoms_fn = done ++ l ->
    length (seen assign_view before) = length done ->
    runs (for_each (assign_randoms_body distance dtype mpicomm kw) l s) tr r ->
    each_after (fed on_root) before tr.
Proof.
  intros Hroot.
  induction l as [| fn l IH]; cbn [for_each]; intros done s before tr r E Hn H.
  - apply runs_ret_inv in H as [-> _]. exact I.
  - assert (Hfn : nth_error (randoms_fn_list randoms_fn)
                    (length (seen assign_view before)) = Some fn).
    { rewrite E, Hn, nth_error_app2, Nat.sub_diag by lia. reflexivity. }
    apply runs_bind_inv in H
      as [(e & H & _) | (s' & tr1 & tr2 & H1 & H2 & ->)].
    + eapply assign_randoms_body_fed; eassumption.
    + apply each_after_app; [eapply assign_randoms_body_fed; eassumption |].
      apply IH with (done := done ++ [fn]) (s := s') (r := r);
        [rewrite <- app_assoc; exact E | | exact H2].
      rewrite seen_app, !length_app, Hn.
      rewrite (proj2 (assign_randoms_body_emits fn s _ _ H1) eq_refl).
      reflexivity.
Qed.

Lemma run_reconstruction_fed (tr : trace) (r : result unit) :
  runs program tr r -> each_after (fed (is_root mpicomm)) [] tr.
Proof.
  intros H.
  unfold program, run_reconstruction, load_data, construct, root in H.
  destruct (is_root mpicomm) eqn:Hroot; unfold_calls; unfold ext in H;
    cbn [bind] in H.
  all: repeat trace_step H.
  all: try (unfold fed, fed_from, data_assigned_from; cbn [ev_call];
            destruct_unit_answers; eexists; split;
            [| first [ eexists _, _, (Loaded _ _ _ _ _ _);
                       split; [cbn; reflexivity | split; reflexivity]
                     | split; [cbn; reflexivity | split; reflexivity] ]];
            reflexivity).
  all: apply runs_bind_inv in H
         as [(e & H & _) | (s' & tr1 & tr2 & H1 & H & ->)];
       [eapply assign_randoms_loop_fed with (done := []);
        [exact Hroot | reflexivity | reflexivity | exact H] |].
  all: apply each_after_app;
       [eapply assign_randoms_loop_fed with (done := []);
        [exact Hroot | reflexivity | reflexivity | exact H1] |].
  all: apply each_after_Forall.
  all: match type of H with
       | runs ?m _ _ =>
           assert (Hq : everywhere (fun c => feed_view c = []) m)
       end.
  all: try (eapply Forall_impl; [| exact (everywhere_runs _ _ Hq H)];
            intros [c o] Hc h; destruct c; try exact I; discriminate Hc).
  all: destruct s' as [[catalog rp] rw];
       unfold read_shifted_data, write_data, write_randoms,
         write_randoms_body, root;
       everywhere_calls.
Qed.

(** X5.  [assign_data] is passed the positions the reconstruction object
    has just been constructed on, and is called right after the
    constructor.  On the root rank these are the Cartesian positions
    converted from what the reader returned for the data catalog, with
    the weights it returned, and nothing but that loading comes before
    the constructor; on any other rank positions and weights are [None]
    and the constructor is the first call. *)
Theorem assign_data_gets_constructor_positions (tr : trace) (r : result unit)
    (pre post : trace) (p : option positions) (w : option farray)
    (o : result unit) :
  runs program tr r ->
  tr = pre ++ Event (AssignData p w) o :: post ->
  data_assigned_from distance kw dtype data_fn Reconstruction
    (is_root mpicomm) pre p w.
Proof.
  intros H E. apply run_reconstruction_fed in H.
  exact (each_after_split _ _ _ _ _ H E).
Qed.

(** X6.  On the root rank every [assign_randoms] is passed the positions
    and weights loaded just before it from one file of [randoms_fn]: the
    file whose place in the list is the number of [assign_randoms]
    calls made before, read without mask and converted with the
    distance model and [sky_to_cartesian]. *)
Theorem assign_randoms_gets_file_positions (tr : trace) (r : result unit)
    (pre post : trace) (p : option positions) (w : option farray)
    (o : result unit) :
  is_root mpicomm = true ->
  runs program tr r ->
  tr = pre ++ Event (AssignRandoms p w) o :: post ->
  randoms_assigned_from distance kw dtype (randoms_fn_list randoms_fn) pre p w.
Proof.
  intros Hroot H E. apply run_reconstruction_fed in H.
  exact (each_after_split _ _ _ _ _ H E Hroot).
Qed.

(* --------------------------------------------------------------------- *)
(** *** Where exceptions come from                                        *)
(* --------------------------------------------------------------------- *)

Lemma assign_randoms_body_raised_where (on_root : bool) (fn : string)
    (s : loop_locals) (h tr : trace) (e : exn) :
  runs (assign_randoms_body distance dtype mpicomm kw fn s) tr (Raised e) ->
  raised_where on_root (h ++ tr) e.
Proof.
  intros H. unfold assign_randoms_body, root in H.
  destruct s as [[catalog rp] rw].
  destruct (is_root mpicomm); unfold_calls; unfold ext in H; cbn [bind] in H;
    repeat raise_step H.
Qed.

Lemma write_randoms_body_raised_where (d2z : callable)
    (item : string * string)
    (s : loop_locals) (h tr : trace) (e : exn) :
  runs (write_randoms_body distance convention dtype mpicomm kw d2z item s)
    tr (Raised e) ->
  raised_where (is_root mpicomm) (h ++ tr) e.
Proof.
  intros H. destruct item as [fn rec_fn].
  unfold write_randoms_body, root in H.
  destruct s as [[catalog rp] rw].
  destruct (is_root mpicomm); unfold_calls; unfold ext in H; cbn [bind] in H;
    repeat raise_step H; raised_by_table.
Qed.

(** X7.  An exception that ends a call of [run_reconstruction] was raised
    by the last call made, with two exceptions, both on the root rank:
    an [IndexError] right after the reader has returned a mask, and a
    [ValueError] right after the redshifts have been computed.  No local
    variable is read before it is assigned, and a rank other than the
    root raises nothing of its own. *)
Theorem exceptions_come_from_calls_or_tables (tr : trace) (e : exn) :
  runs program tr (Raised e) ->
  raised_where (is_root mpicomm) tr e.
Proof.
  intros H. change tr with ([] ++ tr). generalize (@nil event) as h.
  unfold program, run_reconstruction, load_data, construct,
    read_shifted_data, write_data, write_randoms, root in H.
  pose proof (@write_randoms_body_raised_where) as Hwrite.
  destruct (is_root mpicomm); unfold_calls; unfold ext in H; cbn [bind] in H.
  all: intros h.
  all: repeat raise_step H; try raised_by_table.
  all: apply runs_bind_inv in H
         as [(e' & H & E) | (s' & tr1 & tr2 & H1 & H & ->)];
       [injection E as <-;
        apply for_each_raised_where with (2 := H);
        intros; eapply assign_randoms_body_raised_where; eassumption |].
  all: rewrite app_assoc; destruct s' as [[catalog rp] rw].
  all: repeat raise_step H; try raised_by_table.
  all: try (apply runs_bind_inv in H
              as [(e' & H & E) | (s'' & tr3 & tr4 & H2 & H & ->)];
            [injection E as <-;
             apply for_each_raised_where with (2 := H);
             intros; eapply Hwrite; eassumption
            |destruct H as [_ E]; discriminate E]).
Qed.

(* --------------------------------------------------------------------- *)
(** *** The directory made for an output file                             *)
(* --------------------------------------------------------------------- *)

Lemma write_follows_mkdir (tr : trace) (r : result unit) (pre post : trace)
    (T : table) (out format : string) (overwrite : bool) (o : result unit) :
  runs program tr r ->
  tr = pre ++ Event (TableWrite T out format overwrite) o :: post ->
  exists earlier, pre = earlier ++ [Event (Mkdir (dirname out)) (Ok tt)].
Proof.
  intros H E. unfold program in H.
  apply run_reconstruction_well_written in H.
  apply each_after_split with (1 := H) in E as Hw.
  cbn [app] in Hw. unfold well_written in Hw. cbn [ev_call] in Hw.
  destruct Hw as (_ & _ & cv & Hfrom).
  destruct Hfrom as [[(cls & args & sr & mid & -> & _) | (earlier & -> & _)] _];
    unfold saving; repeat apply ends_with_app;
    eexists [_; _; _]; reflexivity.
Qed.

(** X8.  The directory made right before a catalog is written: for an
    output name without ['/'] it is the empty string; for a name
    [dir/base], where [base] has no ['/'], it is [dir] without its
    trailing ['/'], unless [dir] is empty or made of ['/'] only, in which
    case it is [dir] followed by ['/']. *)
Theorem directory_made_for_output (tr : trace) (r : result unit)
    (pre post : trace) (T : table) (out format : string) (overwrite : bool)
    (o : result unit) :
  runs program tr r ->
  tr = pre ++ Event (TableWrite T out format overwrite) o :: post ->
  (has_sep out = false ->
   exists earlier, pre = earlier ++ [Event (Mkdir "") (Ok tt)])
  /\ (forall dir base,
        out = (dir ++ "/" ++ base)%string -> has_sep base = false ->
        exists earlier,
          pre = earlier
                  ++ [Event (Mkdir (if all_sep dir then (dir ++ "/")%string
                                    else rstrip_sep dir)) (Ok tt)]).
Proof.
  intros H E.
  destruct (@write_follows_mkdir tr r pre post T out format overwrite o H E)
    as [earlier ->].
  split.
  - intros Hs. exists earlier. rewrite (dirname_bare _ Hs). reflexivity.
  - intros dir base -> Hb. exists earlier.
    rewrite (dirname_joined dir base Hb). reflexivity.
Qed.

(* --------------------------------------------------------------------- *)
(** *** What the driver relies on                                         *)
(* --------------------------------------------------------------------- *)

Let bystander (e : event) : Prop := bystander_call (ev_call e).

Lemma assign_randoms_body_bystander (fn : string) (s : loop_locals) :
  is_root mpicomm = false -> no_locals s ->
  always bystander no_locals (assign_randoms_body distance dtype mpicomm kw fn s).
Proof.
  intros Hroot ->. unfold assign_randoms_body, root. rewrite Hroot.
  unfold_calls. simpl.
  apply always_do; [intros o; split; reflexivity | intros _].
  apply always_ret. reflexivity.
Qed.

Lemma write_randoms_body_bystander (d2z : callable) (item : string * string)
    (s : loop_locals) :
  is_root mpicomm = false -> no_locals s ->
  always bystander no_locals
    (write_randoms_body distance convention dtype mpicomm kw d2z item s).
Proof.
  intros Hroot ->. destruct item as [fn rec_fn].
  unfold write_randoms_body, root. rewrite Hroot.
  unfold_calls. simpl.
  apply always_do; [intros o; reflexivity | intros _].
  apply always_ret. reflexivity.
Qed.

Lemma run_reconstruction_bystander :
  is_root mpicomm = false -> everywhere bystander_call program.
Proof.
  intros Hroot. unfold everywhere.
  change (fun e : event => bystander_call (ev_call e)) with bystander.
  unfold program, run_reconstruction, load_data, construct,
    read_shifted_data, write_data, write_randoms, root.
  rewrite Hroot. unfold_calls. simpl.
  apply always_do; [intros o; reflexivity | intros _].
  apply always_do; [intros o; split; reflexivity | intros _].
  eapply always_bind.
  { apply always_for_each with (I := no_locals); [| reflexivity].
    intros fn s _ Hs. apply assign_randoms_body_bystander; assumption. }
  intros s Hs. rewrite Hs. cbv beta iota.
  apply always_do; [intros o; exact I | intros _].
  apply always_do; [intros o; exact I | intros _].
  eapply always_bind with (Q := fun _ => True).
  { destruct (is_particle Reconstruction);
      (apply always_do;
       [intros o; try exact I; reflexivity
       | intros ?; apply always_ret; exact I]). }
  intros data_positions_rec _.
  apply always_do; [intros o; exact I | intros distance_to_redshift].
  destruct (negb (String.eqb convention "rsd")).
  - eapply always_bind; [| intros ? _; apply always_ret; exact I].
    apply always_for_each with (I := no_locals); [| reflexivity].
    intros item s' _ Hs'. apply write_randoms_body_bystander; assumption.
  - apply always_ret. exact I.
Qed.

Lemma run_reconstruction_constructs_once :
  emits driver_view program [Constructed].
Proof.
  unfold program.
  emits_run_reconstruction mpicomm convention Reconstruction;
    simpl; rewrite ?flat_map_const, ?concat_repeat_nil, ?app_nil_r;
    reflexivity.
Qed.

Lemma run_reconstruction_reads_field :
  In convention ["reciso"; "recsym"] ->
  everywhere (reads_field_of convention) program.
Proof.
  unfold program.
  intros [<- | [<- | []]]; unfold data_field, randoms_field;
    everywhere_auto; cbn; auto.
Qed.

Lemma run_reconstruction_touches :
  everywhere
    (touches (data_fn :: randoms_fn_list randoms_fn)
       (data_rec_fn :: py_iter randoms_rec_fn))
    program.
Proof.
  unfold program. unfold_stages. unfold_calls. repeat everywhere_in_step.
  all: cbn [touches]; try exact I.
  all: try (left; reflexivity).
  all: try (right; assumption).
  all: try (eexists; split; [left; reflexivity | reflexivity]).
  all: try match goal with
           | H : In (_, _) (zip _ _) |- _ =>
               pose proof (in_combine_l _ _ _ _ H);
               pose proof (in_combine_r _ _ _ _ H)
           end.
  all: try (right; assumption).
  all: eexists; split; [right; eassumption | reflexivity].
Qed.
Lemma run_reconstruction_selects_with :
  everywhere (fun c => Forall (fun k => k = kw) (selection_view c)) program.
Proof. unfold program. everywhere_auto; repeat constructor. Qed.

(** A catalog is written after the reader has made a selection, and
    every selection is made with the keywords of the call. *)
Lemma write_after_selection (tr : trace) (r : result unit) (pre post : trace)
    (T : table) (out format : string) (overwrite : bool) (o : result unit)
    (h : trace) :
  runs program tr r ->
  tr = pre ++ Event (TableWrite T out format overwrite) o :: post ->
  last_selection (h ++ pre) = Some kw.
Proof.
  intros H E.
  assert (Hall : Forall (fun k => k = kw) (seen selection_view pre)).
  { apply seen_all.
    pose proof (everywhere_runs _ _ run_reconstruction_selects_with H) as Hf.
    rewrite E in Hf. apply Forall_app in Hf as [Hf _]. exact Hf. }
  assert (Hne : seen selection_view pre <> []).
  { destruct (io_emits _ _ H) as [[rest Hpre] _].
    rewrite E, seen_app, seen_cons in Hpre. cbn [ev_call io_view] in Hpre.
    rewrite selection_of_accesses.
    destruct (is_root mpicomm).
    - unfold catalog_accesses in Hpre. cbn [app] in Hpre.
      destruct (seen io_view pre) as [| a1 [| a2 l]]; cbn [app] in Hpre.
      + discriminate Hpre.
      + injection Hpre as _ Hpre. discriminate Hpre.
      + injection Hpre as <- <- _. cbn. discriminate.
    - destruct (seen io_view pre); discriminate Hpre. }
  unfold last_selection. rewrite seen_app.
  apply last_some_app; assumption.
Qed.
End CallFacts.

(* --------------------------------------------------------------------- *)
(** *** The class of the driver and the read of the data                  *)
(* --------------------------------------------------------------------- *)

Lemma main_tag_for_IFTP (args : arguments) :
  everywhere (tag_for_IFTP args) (main args).
Proof.
  unfold main, reconstruction_of_algorithm.
  destruct (String.eqb (arg_algorithm args) "MG") eqn:E1;
    [| destruct (String.eqb (arg_algorithm args) "IFT") eqn:E2;
       [| destruct (String.eqb_spec (arg_algorithm args) "IFTP") as [E3 | E3]]];
    cbn [lift bind]; unfold resolve_zlims, run_zlim, run_region;
    unfold_stages; cbn [is_particle];
    everywhere_auto; try exact I; split; auto.
Qed.

Section DataRead.
Variable Reconstruction : reconstruction_class.
Variable distance : callable.
Variables data_fn : string.
Variable randoms_fn : str_or_list.
Variable data_rec_fn : string.
Variable randoms_rec_fn : str_or_list.
Variables f bias : pyfloat.
Variable boxsize : option pyfloat.
Variable nmesh : option Z.
Variables cellsize smoothing_radius : pyfloat.
Variable nthreads : Z.
Variables convention dtype : string.
Variable mpicomm : option communicator.
Variable kw : kwargs.

Let program : prog unit :=
  run_reconstruction Reconstruction distance data_fn randoms_fn data_rec_fn
    randoms_rec_fn f bias boxsize nmesh cellsize smoothing_radius nthreads
    convention dtype mpicomm kw.

Ltac found_before :=
  solve [reflexivity | left; found_before | right; found_before].

Lemma seen_read_more (before tr : trace) :
  seen read_view before <> [] -> seen read_view (before ++ tr) <> [].
Proof.
  intros H E. rewrite seen_app in E. apply app_eq_nil in E as [E _]. auto.
Qed.

Lemma array_read_from_quiet (on_root : bool) (c : call)
    (o : result (answer c)) (h : trace) :
  read_view c = [] -> array_read_from dtype on_root h (Event c o).
Proof.
  unfold array_read_from. cbn [ev_call].
  destruct c; try (intros; exact I). destruct src; discriminate.
Qed.

Lemma write_randoms_body_array_read (d2z : callable) (item : string * string)
    (s : loop_locals) (before tr : trace) (r : result loop_locals) :
  is_root mpicomm = true ->
  seen read_view before <> [] ->
  runs (write_randoms_body distance convention dtype mpicomm kw d2z item s)
    tr r ->
  each_after (array_read_from dtype true) before tr.
Proof.
  intros Hroot Hread H. destruct item as [fn rec_fn].
  unfold write_randoms_body, root in H. rewrite Hroot in H.
  destruct s as [[catalog rp] rw]. unfold_calls. unfold ext in H.
  cbn [bind] in H.
  repeat trace_step H.
  all: unfold array_read_from, array_from; cbn [ev_call].
  all: match goal with
       | |- match seen read_view ?b with _ => _ end =>
           destruct (seen read_view b) eqn:Eb;
           [exfalso; revert Eb; rewrite <- ?app_assoc; apply seen_read_more;
            exact Hread |]
       end.
  all: eexists _, _, _, _, _; split; reflexivity.
Qed.

Lemma write_randoms_loop_array_read (d2z : callable)
    (items : list (string * string)) (s : loop_locals) (before tr : trace)
    (r : result loop_locals) :
  is_root mpicomm = true ->
  seen read_view before <> [] ->
  runs (for_each
          (write_randoms_body distance convention dtype mpicomm kw d2z)
          items s) tr r ->
  each_after (array_read_from dtype true) before tr.
Proof.
  intros Hroot. revert s before tr r.
  induction items as [| item items IH]; cbn [for_each];
    intros s before tr r Hread H.
  - apply runs_ret_inv in H as [-> _]. exact I.
  - apply runs_bind_inv in H
      as [(e & H & _) | (s' & tr1 & tr2 & H1 & H2 & ->)].
    + eapply write_randoms_body_array_read; eassumption.
    + apply each_after_app.
      * eapply write_randoms_body_array_read; eassumption.
      * eapply IH; [| eassumption]. apply seen_read_more. exact Hread.
Qed.

Lemma run_reconstruction_array_read (tr : trace) (r : result unit) :
  runs program tr r ->
  each_after (array_read_from dtype (is_root mpicomm)) [] tr.
Proof.
  intros H. destruct (is_root mpicomm) eqn:Hroot.
  2: { assert (Hb : everywhere bystander_call program)
         by (apply run_reconstruction_bystander; exact Hroot).
       apply each_after_Forall.
       eapply Forall_impl; [| exact (everywhere_runs _ _ Hb H)].
       intros [c o] Hc h. unfold array_read_from, array_from.
       cbn [ev_call] in *.
       destruct c; try exact I. destruct src; [exact I | exact Hc]. }
  unfold program, run_reconstruction, load_data, construct,
    read_shifted_data, write_data, write_randoms, root in H.
  rewrite Hroot in H. unfold_calls. unfold ext in H.
  destruct (is_particle Reconstruction) eqn:Hcls; cbn [bind] in H.
  all: repeat trace_step H.
  all: match type of H with
       | runs (bind (for_each ?body ?l ?s) _) _ _ =>
           assert (Hq : everywhere (fun c => read_view c = [])
                          (for_each body l s))
             by (unfold assign_randoms_body; everywhere_auto)
       end.
  all: apply runs_bind_inv in H
         as [(e & H & _) | (s' & tr1 & tr2 & H1 & H & ->)];
       [apply each_after_Forall;
        eapply Forall_impl; [| exact (everywhere_runs _ _ Hq H)];
        intros [c o] Hc h; apply array_read_from_quiet; exact Hc |].
  all: apply each_after_app;
       [apply each_after_Forall;
        eapply Forall_impl; [| exact (everywhere_runs _ _ Hq H1)];
        intros [c o] Hc h; apply array_read_from_quiet; exact Hc |].
  all: pose proof (seen_quiet read_view (everywhere_runs _ _ Hq H1)) as Hs1.
  all: destruct s' as [[catalog rp] rw].
  all: repeat trace_step H.
  all: try (unfold array_read_from, array_from; cbn [ev_call];
            rewrite !seen_app, Hs1; cbn;
            destruct_unit_answers; eexists;
            rewrite !in_app_iff; cbn [In]; found_before).
  all: try (apply runs_bind_inv in H
              as [(e' & H & _) | (s' & tr3 & tr4 & H2 & H & ->)];
            [ eapply write_randoms_loop_array_read;
              [exact Hroot | | exact H]
            | apply each_after_app;
              [ eapply write_randoms_loop_array_read;
                [exact Hroot | | exact H2]
              | apply runs_ret_inv in H as [-> _]; exact I ] ];
            rewrite !seen_app; cbn;
            intros E; repeat (apply app_eq_nil in E as [E ?]);
            discriminate).
Qed.

(** C8.  The dictionary of the driver maps ['MG'] to
    [MultiGridReconstruction], ['IFT'] to [IterativeFFTReconstruction]
    and ['IFTP'] to [IterativeFFTParticleReconstruction], and has no
    other key; every reconstruction object of the driver is constructed
    from the class looked up for [--algorithm], and the driver reads by
    tag under [--algorithm IFTP] only.  In [run_reconstruction] the
    first read of shifted positions is the data's: it names the
    positions by the tag ['data'] when the class is the particle
    variant, and passes an array otherwise; every later read passes an
    array; a call that returns has made these reads.  The array the
    data's read passes is the data position array, the one passed to
    [assign_data]; a later read passes the positions just converted
    for its random catalog; off the root rank the array is [None]. *)
Theorem algorithm_selects_class_and_data_tag (tr : trace) (r : result unit) :
  runs program tr r ->
  reconstruction_of_algorithm "MG" = Ok MultiGridReconstruction
  /\ reconstruction_of_algorithm "IFT" = Ok IterativeFFTReconstruction
  /\ reconstruction_of_algorithm "IFTP"
     = Ok IterativeFFTParticleReconstruction
  /\ (forall algorithm,
        algorithm <> "MG" -> algorithm <> "IFT" -> algorithm <> "IFTP" ->
        reconstruction_of_algorithm algorithm = Raised "KeyError")
  /\ (forall args tr' r',
        runs (main args) tr' r' ->
        Forall (fun e => selects_class args (ev_call e)
                         /\ tag_for_IFTP args (ev_call e)) tr')
  /\ (exists rest,
        (if is_particle Reconstruction then Some "data" else None,
         data_field convention)
          :: repeat (None, randoms_field convention)
               (randoms_outputs randoms_fn randoms_rec_fn convention)
        = seen read_view tr ++ rest)
  /\ (r = Ok tt ->
      seen read_view tr
      = (if is_particle Reconstruction then Some "data" else None,
         data_field convention)
          :: repeat (None, randoms_field convention)
               (randoms_outputs randoms_fn randoms_rec_fn convention))
  /\ (forall i src field,
        nth_error (seen read_view tr) i = Some (src, field) ->
        (src = Some "data"
         <-> i = 0 /\ Reconstruction = IterativeFFTParticleReconstruction)
        /\ (src <> Some "data" -> src = None))
  /\ (forall pre post p field o,
        tr = pre ++ Event (ReadShiftedPositions (Array p) field) o :: post ->
        array_from dtype (is_root mpicomm) pre p).
Proof.
  intros H.
  split; [reflexivity |]. split; [reflexivity |]. split; [reflexivity |].
  split.
  { intros algorithm H1 H2 H3. unfold reconstruction_of_algorithm.
    apply String.eqb_neq in H1, H2, H3. rewrite H1, H2, H3. reflexivity. }
  split.
  { intros args tr' r' Hrun. apply Forall_forall. intros e He.
    pose proof (proj1 (main_constructs_selected_class Hrun)) as Hc.
    pose proof (proj1 (main_tag_for_IFTP Hrun)) as Ht.
    rewrite Forall_forall in Hc, Ht. auto. }
  destruct (reads_emits Reconstruction distance data_fn randoms_fn data_rec_fn
              randoms_rec_fn f bias boxsize nmesh cellsize smoothing_radius
              nthreads convention dtype mpicomm kw _ _ H) as [Hpre Hok].
  split; [exact Hpre |].
  split; [intros ->; apply Hok; reflexivity |].
  split.
  - intros i src field Hi. destruct Hpre as [rest Hrest].
    apply nth_error_prefix with (rest := rest) in Hi. rewrite <- Hrest in Hi.
    destruct i as [| i]; simpl in Hi.
    + injection Hi as <- _.
      destruct Reconstruction; simpl;
        (split; [split; [intros E; try discriminate E; auto
                        | intros [_ E]; try discriminate E; auto]
                | intros E; try reflexivity; congruence]).
    + apply nth_error_repeat_inv in Hi as [Hi _]. injection Hi as -> _.
      split; [split; [discriminate | intros [E _]; discriminate]
             | reflexivity].
  - intros pre post p field o E.
    pose proof (run_reconstruction_array_read _ _ H) as Hall.
    exact (each_after_split _ _ _ _ _ Hall E).
Qed.
End DataRead.

(* ===================================================================== *)
(** ** Further facts about the driver                                     *)
(* ===================================================================== *)

(* --------------------------------------------------------------------- *)
(** *** Ranks other than the root                                         *)
(* --------------------------------------------------------------------- *)

(** X9.  When [mpi.COMM_WORLD] is a communicator of rank other than 0,
    the driver logs nothing, reads and writes no catalog, makes no
    directory and converts no coordinates; it constructs every
    reconstruction object on [None], feeds it with [None] positions and
    weights, and reads shifted positions by tag or for [None]. *)
Theorem driver_off_root_bystander (args : arguments) (comm : communicator)
    (tr : trace) (r : result unit) :
  runs (main args) tr r ->
  world_communicator tr = Some (Some comm) ->
  rank comm <> 0%Z ->
  Forall (fun e => bystander_call (ev_call e)) tr.
Proof.
  intros H Hc Hrank.
  assert (Hroot : is_root (Some comm) = false).
  { simpl. apply Z.eqb_neq. exact Hrank. }
  unfold main, mpi_COMM_WORLD, ext in H. cbn [bind] in H.
  apply world_communicator_do with (1 := H) in Hc as (tr' & -> & H').
  constructor; [exact I |].
  revert H'. apply everywhere_runs. rewrite Hroot.
  unfold resolve_zlims, run_zlim, run_region. rewrite Hroot.
  unfold_calls.
  repeat everywhere_step.
  apply run_reconstruction_bystander. exact Hroot.
Qed.

(* --------------------------------------------------------------------- *)
(** *** The regions                                                       *)
(* --------------------------------------------------------------------- *)

Lemma run_region_emits (args : arguments) (mpicomm : option communicator)
    (cls : reconstruction_class)
    (distance : callable) (bias f zmin zmax : pyfloat)
    (region : string) :
  emits driver_view (run_region args mpicomm cls distance bias f zmin zmax region)
    [Named region; Constructed].
Proof.
  unfold run_region.
  quiet_then. quiet_then. quiet_then.
  apply emits_bind with (L1 := [Named region]) (L2 := [Constructed]);
    [unfold catalog_fn; refine (@emits_ext _ driver_view (CatalogFn _)) |].
  intros data_rec_fn. quiet_then.
  apply run_reconstruction_constructs_once.
Qed.

Lemma main_emits_regions (args : arguments) :
  emits driver_view (main args)
    (flat_map (fun region => [Named region; Constructed]) (arg_region args)).
Proof.
  unfold main.
  quiet_then. quiet_then. quiet_then. quiet_then. quiet_then. quiet_then.
  apply emits_bind_when
    with (Q := fun zlims : list (pyfloat * pyfloat) => exists zr, zlims = [zr])
         (L1 := []).
  - intros tr zlims H.
    destruct (resolve_zlims_runs _ _ _ H) as (_ & _ & Hok).
    destruct (Hok zlims eq_refl) as (v & vs & _ & ->). eauto.
  - apply emits_quiet. unfold resolve_zlims. everywhere_auto.
  - intros zlims [[zmin zmax] ->]. quiet_then.
    cbn [for_each]. eapply emits_eq.
    + apply emits_bind; [| intros ?; apply emits_ret].
      unfold run_zlim.
      apply emits_bind with (L1 := []);
        [apply emits_quiet; everywhere_auto | intros f].
      apply emits_for_each. intros region []. apply run_region_emits.
    + cbn [app]. rewrite app_nil_r. reflexivity.
Qed.

(** X10.  The driver goes through the regions of [--region] in the order
    given, once each (a region given twice is processed twice): for each
    it asks for the names of the output catalogs of the region and then
    constructs one reconstruction object.  A run that raises stops along
    that order; with [--region] given without values nothing is named
    and nothing is constructed. *)
Theorem driver_regions_in_order (args : arguments) (tr : trace)
    (r : result unit) :
  runs (main args) tr r ->
  let steps :=
    flat_map (fun region => [Named region; Constructed]) (arg_region args) in
  (exists rest, steps = seen driver_view tr ++ rest)
  /\ (r = Ok tt -> seen driver_view tr = steps)
  /\ (arg_region args = [] -> seen driver_view tr = []).
Proof.
  intros H steps.
  destruct (main_emits_regions H) as [[rest Hpre] Hok].
  fold steps in Hpre, Hok.
  split; [exists rest; exact Hpre |].
  split; [intros ->; apply Hok; reflexivity |].
  intros Hnil. unfold steps in Hpre. rewrite Hnil in Hpre. cbn in Hpre.
  symmetry in Hpre. apply app_eq_nil in Hpre as [Hpre _]. exact Hpre.
Qed.

(* --------------------------------------------------------------------- *)
(** *** The growth rate                                                   *)
(* --------------------------------------------------------------------- *)

Lemma run_zlim_constructs_with_f (args : arguments)
    (mpicomm : option communicator) (cls : reconstruction_class)
    (distance : callable)
    (bias f zmin zmax : pyfloat) :
  everywhere (constructs_with_f f)
    (for_each (fun region _ =>
                 run_region args mpicomm cls distance bias f zmin zmax region)
       (arg_region args) tt).
Proof. unfold run_region. everywhere_auto. Qed.

Lemma run_zlim_growth_rate (args : arguments) (mpicomm : option communicator)
    (cls : reconstruction_class)
    (distance : callable) (bias zbox : pyfloat)
    (zr : pyfloat * pyfloat) (before tr : trace) (r : result unit) :
  In (Event (GetZCubicbox (arg_tracer args)) (Ok zbox)) before ->
  runs (run_zlim args mpicomm cls distance bias zbox zr) tr r ->
  each_after (growth_rate_resolved args) before tr.
Proof.
  intros Hbox H. destruct zr as [zmin zmax]. unfold run_zlim in H.
  destruct (arg_f args) as [f0 |] eqn:Hf; cbn [bind] in H.
  - apply each_after_from with (Q := fun e => constructs_with_f f0 (ev_call e));
      [| exact (everywhere_runs _ _
                  (run_zlim_constructs_with_f _ _ _ _ _ _ _ _) H)].
    intros h [c o] Hc. unfold growth_rate_resolved, growth_rate_from.
    rewrite Hf. destruct c; cbn in *; auto. contradiction.
  - unfold get_f_reconstruction, ext in H. cbn [bind] in H.
    apply runs_do_inv in H as [(e & -> & ->) | (f1 & tr' & -> & H)];
      cbn [each_after]; (split; [exact Hf |]); [exact I |].
    apply each_after_from with (Q := fun e => constructs_with_f f1 (ev_call e));
      [| exact (everywhere_runs _ _
                  (run_zlim_constructs_with_f _ _ _ _ _ _ _ _) H)].
    intros h [c o] Hc. unfold growth_rate_resolved, growth_rate_from.
    rewrite Hf. destruct c; cbn in *; auto; try contradiction.
    subst f1. exists zbox, (zmin, zmax).
    rewrite !in_app_iff. cbn [In]. auto.
Qed.

Lemma driver_tail_growth_rate (args : arguments)
    (mpicomm : option communicator) (cls : reconstruction_class)
    (bias zbox : pyfloat) (before tr : trace) (r : result unit) :
  In (Event (GetZCubicbox (arg_tracer args)) (Ok zbox)) before ->
  runs (zlims <- resolve_zlims args ;;
        Do DesiComovingRadialDistance
          (fun distance =>
             for_each (fun zlim _ =>
                         run_zlim args mpicomm cls distance bias zbox zlim)
               zlims tt)) tr r ->
  each_after (growth_rate_resolved args) before tr.
Proof.
  intros Hbox H.
  assert (Hquiet : forall tr1 r1, runs (resolve_zlims args) tr1 r1 ->
            forall h, each_after (growth_rate_resolved args) h tr1).
  { intros tr1 r1 H1 h. apply each_after_Forall.
    assert (E : everywhere (fun c => growth_view c = [] /\ lifecycle_step c = [])
                  (resolve_zlims args)).
    { unfold resolve_zlims. everywhere_auto. }
    eapply Forall_impl; [| exact (everywhere_runs _ _ E H1)].
    intros [c o] [Hg Hl] h'. destruct c; try exact I; discriminate. }
  apply runs_bind_inv in H
    as [(e & H & ->) | (zlims & tr1 & tr2 & H1 & H2 & ->)].
  - eapply Hquiet. exact H.
  - apply each_after_app; [eapply Hquiet; exact H1 |].
    destruct (resolve_zlims_runs _ _ _ H1) as (_ & _ & Hok).
    destruct (Hok zlims eq_refl) as (v & vs & _ & ->).
    apply runs_do_inv in H2 as [(e & -> & ->) | ([] & tr' & -> & H2)];
      cbn [each_after]; (split; [exact I |]); [exact I |].
    cbn [for_each] in H2.
    apply runs_bind_inv in H2
      as [(e & H2 & ->) | ([] & tr3 & tr4 & H3 & H4 & ->)].
    + eapply run_zlim_growth_rate; [| exact H2].
      rewrite !in_app_iff. auto.
    + apply runs_ret_inv in H4 as [-> _]. rewrite app_nil_r.
      eapply run_zlim_growth_rate; [| exact H3].
      rewrite !in_app_iff. auto.
Qed.

(** One step of the driver before the redshift limits are resolved. *)
Ltac prelude_step H :=
  lazymatch type of H with
  | runs (Do _ _) _ _ =>
      let e := fresh "e" in
      let a := fresh "a" in
      let tr := fresh "tr" in
      apply runs_do_inv in H as [(e & -> & ->) | (a & tr & -> & H)];
      cbn [each_after]; (split; [exact I |]); [exact I |]
  | runs (Throw _) _ _ => apply runs_throw_inv in H as [-> ->]; exact I
  | runs (bind (lift ?x) _) _ _ => destruct x eqn:?; cbn [lift bind] in H
  | runs (bind (if ?b then _ else _) _) _ _ => destruct b; cbn [bind] in H
  end.

Lemma main_growth_rate (args : arguments) (tr : trace) (r : result unit) :
  runs (main args) tr r -> each_after (growth_rate_resolved args) [] tr.
Proof.
  intros H. unfold main in H. unfold_calls. unfold ext in H.
  cbn [bind] in H.
  repeat prelude_step H;
    (eapply driver_tail_growth_rate; [| exact H]);
    rewrite !in_app_iff; cbn [In]; auto.
Qed.

Lemma main_supplied_growth_rate (args : arguments) (f : pyfloat) :
  arg_f args = Some f -> everywhere (fun c => growth_view c = []) (main args).
Proof.
  intros Hf. unfold main, resolve_zlims, run_zlim, run_region. rewrite Hf.
  everywhere_auto.
Qed.

(** X11.  The growth rate a reconstruction object of the driver is
    constructed with is [--f] when it is supplied, and no growth rate is
    looked up then; otherwise it is what [get_f_reconstruction] answered
    earlier in the run, when called with mock type ['cutsky'] and the
    redshift [get_z_cubicbox] had answered for the tracer. *)
Theorem driver_growth_rate (args : arguments) (tr : trace) (r : result unit)
    (pre post : trace) (cls : reconstruction_class) (a : constructor_args)
    (o : result unit) :
  runs (main args) tr r ->
  tr = pre ++ Event (Construct cls a) o :: post ->
  growth_rate_from args pre (ca_f a)
  /\ (forall f, arg_f args = Some f -> seen growth_view tr = []).
Proof.
  intros H E. split.
  - apply main_growth_rate in H.
    exact (each_after_split _ _ _ _ _ H E).
  - intros f Hf. apply seen_quiet.
    exact (everywhere_runs _ _ (main_supplied_growth_rate Hf) H).
Qed.

(* --------------------------------------------------------------------- *)
(** *** The conventions of the command line                               *)
(* --------------------------------------------------------------------- *)

(** X12.  [--convention] accepts ['reciso'] and ['recsym'] only, so the
    driver never reads positions with the field ['rsd']: every read of
    shifted positions carries ['disp+rsd'], or ['disp'] under
    ['reciso']. *)
Theorem driver_never_reads_rsd_field (args : arguments) (tr : trace)
    (r : result unit) :
  In (arg_convention args) ["reciso"; "recsym"] ->
  runs (main args) tr r ->
  Forall (fun e => reads_field_of (arg_convention args) (ev_call e)) tr.
Proof.
  intros Hc. apply everywhere_runs.
  unfold main, resolve_zlims, run_zlim, run_region. unfold_calls.
  repeat everywhere_step.
  apply run_reconstruction_reads_field. exact Hc.
Qed.

(* --------------------------------------------------------------------- *)
(** *** The names of the files                                            *)
(* --------------------------------------------------------------------- *)

Lemma named_input_intro (args : arguments) (before : trace) (fn : string)
    (a : catalog_fn_args) :
  In (Event (CatalogFn a) (Ok fn)) before
  \/ (exists names,
        In (Event (CatalogFnRandoms a) (Ok names)) before
        /\ In fn (randoms_fn_list names)) ->
  cf_tracer a = arg_tracer args -> cf_cat_dir a = None -> cf_region a = None ->
  named_input args before fn.
Proof. intros H H1 H2 H3. exists a. auto. Qed.

Lemma named_output_intro (args : arguments) (before : trace) (fn : string)
    (a : catalog_fn_args) (region : string) :
  In (Event (CatalogFn a) (Ok fn)) before
  \/ (exists names,
        In (Event (CatalogFnRandoms a) (Ok names)) before
        /\ In fn (py_iter names)) ->
  In region (arg_region args) ->
  cf_tracer a = arg_tracer args -> cf_cat_dir a = Some (arg_outdir args) ->
  cf_region a = Some region ->
  cf_rec_type a = Some (arg_algorithm args ++ arg_convention args)%string ->
  named_output args before fn.
Proof. intros H H0 H1 H2 H3 H4. exists a, region. auto 10. Qed.

(** The event looked for, among the events of a history. *)
Ltac find_disjunct :=
  lazymatch goal with
  | |- _ = _ => reflexivity
  | |- _ \/ _ => first [left; find_disjunct | right; find_disjunct]
  end.

Ltac find_event := rewrite !in_app_iff; cbn [In]; find_disjunct.

Ltac named_file Hregion :=
  lazymatch goal with
  | |- named_input _ _ _ =>
      eapply named_input_intro;
      [first [ left; find_event
             | right; eexists; split; [| eassumption]; find_event ]
      | reflexivity ..]
  | |- named_output _ _ _ =>
      eapply named_output_intro;
      [first [ left; find_event
             | right; eexists; split; [| eassumption]; find_event ]
      | exact Hregion | reflexivity ..]
  end.

Section FileNames.
Variable args : arguments.
Variable mpicomm : option communicator.
Variable cls : reconstruction_class.
Variable distance : callable.
Variables bias f zmin zmax : pyfloat.

Lemma run_region_files_named (region : string) (before tr : trace)
    (r : result unit) :
  In region (arg_region args) ->
  runs (run_region args mpicomm cls distance bias f zmin zmax region) tr r ->
  each_after (files_named args) before tr.
Proof.
  intros Hregion H. unfold run_region in H.
  unfold_calls. unfold ext in H.
  destruct (is_root mpicomm); cbn [bind] in H.
  all: repeat trace_step H.
  all: match type of H with
       | runs (run_reconstruction _ _ ?data_fn ?randoms_fn ?data_rec_fn
                 ?randoms_rec_fn _ _ _ _ _ _ _ _ _ _ _) _ _ =>
           pose proof (everywhere_runs _ _
                         (run_reconstruction_touches _ _ data_fn randoms_fn
                            data_rec_fn randoms_rec_fn _ _ _ _ _ _ _ _ _ _ _)
                         H) as Hall
       end.
  all: apply each_after_from with (2 := Hall).
  all: intros h [c o]; unfold files_named; cbn [ev_call];
       destruct c; cbn [touches]; try (intros; exact I).
  all: try (intros [<- | Hin]; named_file Hregion).
  all: intros (out & Hin & ->); destruct Hin as [<- | Hin];
       (eexists; split; [| reflexivity]; named_file Hregion).
Qed.

Lemma run_region_selected (region : string) (before tr : trace)
    (r : result unit) :
  runs (run_region args mpicomm cls distance bias f zmin zmax region) tr r ->
  each_after (selected_for_region args) before tr.
Proof.
  intros H. unfold run_region in H.
  unfold_calls. unfold ext in H.
  destruct (is_root mpicomm); cbn [bind] in H.
  all: repeat trace_step H.
  all: match type of H with
       | runs (run_reconstruction _ _ ?data_fn ?randoms_fn ?data_rec_fn
                 ?randoms_rec_fn _ _ _ _ _ _ _ _ _ _ _) _ _ =>
           pose proof (everywhere_runs _ _
                         (run_reconstruction_touches _ _ data_fn randoms_fn
                            data_rec_fn randoms_rec_fn _ _ _ _ _ _ _ _ _ _ _)
                         H) as Hall
       end.
  all: apply each_after_of_split; intros pre [c o] post E.
  all: unfold selected_for_region; cbn [ev_call];
       destruct c; try exact I.
  all: assert (Hsel : forall h,
                 last_selection (h ++ pre)
                 = Some (reader_kwargs args zmin zmax region))
         by (intros h; eapply write_after_selection; [exact H | exact E]).
  all: rewrite E in Hall; apply Forall_app in Hall as [_ Hall];
       inversion Hall as [| ? ? Hout _]; subst; cbn [ev_call touches] in Hout.
  all: unfold written_for_region.
  all: destruct Hout as [<- | Hin]; eexists _, region, zmin, zmax.
  all: split; [| split; [| apply Hsel]].
  all: try (left; find_event).
  all: try (right; eexists; split; [| exact Hin]; find_event).
  all: reflexivity.
Qed.
End FileNames.

(** A property [P] of the events of the driver, given the events
    before them, that holds in every region and says nothing of the
    events outside of [run_reconstruction]. *)
Section DriverHistory.
Variable args : arguments.
Variable P : trace -> event -> Prop.
Hypothesis P_quiet :
  forall h c o, io_view c = [] -> touches [] [] c -> P h (Event c o).
Hypothesis P_region :
  forall mpicomm cls distance bias f zmin zmax region before tr r,
    In region (arg_region args) ->
    runs (run_region args mpicomm cls distance bias f zmin zmax region) tr r ->
    each_after P before tr.

Lemma quiet_each_after (A : Type) (m : prog A) (tr : trace) (r : result A) :
  everywhere (fun c => io_view c = [] /\ touches [] [] c) m ->
  runs m tr r ->
  forall h, each_after P h tr.
Proof.
  intros E H h. apply each_after_Forall.
  eapply Forall_impl; [| exact (everywhere_runs _ _ E H)].
  intros [c o] [Hio Ht] h'. apply P_quiet; assumption.
Qed.

Lemma regions_each_after (mpicomm : option communicator)
    (cls : reconstruction_class)
    (distance : callable) (bias f zmin zmax : pyfloat)
    (l : list string) :
  incl l (arg_region args) ->
  forall (before tr : trace) (r : result unit),
    runs (for_each (fun region _ =>
                      run_region args mpicomm cls distance bias f zmin zmax region)
            l tt) tr r ->
    each_after P before tr.
Proof.
  induction l as [| region l IH]; cbn [for_each]; intros Hl before tr r H.
  - apply runs_ret_inv in H as [-> _]. exact I.
  - apply runs_bind_inv in H
      as [(e & H & _) | ([] & tr1 & tr2 & H1 & H2 & ->)].
    + eapply P_region; [| exact H]. apply Hl. left. reflexivity.
    + apply each_after_app.
      * eapply P_region; [| exact H1]. apply Hl. left. reflexivity.
      * eapply IH; [| exact H2]. intros x Hx. apply Hl. right. exact Hx.
Qed.

Lemma run_zlim_each_after (mpicomm : option communicator)
    (cls : reconstruction_class)
    (distance : callable) (bias zbox : pyfloat)
    (zr : pyfloat * pyfloat) (before tr : trace) (r : result unit) :
  runs (run_zlim args mpicomm cls distance bias zbox zr) tr r ->
  each_after P before tr.
Proof.
  intros H. destruct zr as [zmin zmax]. unfold run_zlim in H.
  assert (Hf : forall tr1 (r1 : result pyfloat) h,
            runs match arg_f args with
                 | Some f => Ret f
                 | None => get_f_reconstruction zbox (zmin, zmax) "cutsky"
                 end tr1 r1 ->
            each_after P h tr1).
  { intros tr1 r1 h H1. eapply quiet_each_after; [| exact H1].
    destruct (arg_f args); everywhere_auto; split; reflexivity. }
  apply runs_bind_inv in H
    as [(e & H & _) | (f & tr1 & tr2 & H1 & H2 & ->)].
  - eapply Hf. exact H.
  - apply each_after_app; [eapply Hf; exact H1 |].
    eapply regions_each_after; [| exact H2]. apply incl_refl.
Qed.

Lemma driver_tail_each_after (mpicomm : option communicator)
    (cls : reconstruction_class) (bias zbox : pyfloat)
    (before tr : trace) (r : result unit) :
  runs (zlims <- resolve_zlims args ;;
        Do DesiComovingRadialDistance
          (fun distance =>
             for_each (fun zlim _ =>
                         run_zlim args mpicomm cls distance bias zbox zlim)
               zlims tt)) tr r ->
  each_after P before tr.
Proof.
  intros H.
  assert (Hz : forall tr1 r1 h, runs (resolve_zlims args) tr1 r1 ->
                                each_after P h tr1).
  { intros tr1 r1 h H1. eapply quiet_each_after; [| exact H1].
    unfold resolve_zlims. everywhere_auto; split; reflexivity. }
  apply runs_bind_inv in H
    as [(e & H & ->) | (zlims & tr1 & tr2 & H1 & H2 & ->)].
  - eapply Hz. exact H.
  - apply each_after_app; [eapply Hz; exact H1 |].
    apply runs_do_inv in H2 as [(e & -> & ->) | ([] & tr' & -> & H2)];
      cbn [each_after];
      (split; [apply P_quiet; [reflexivity | exact I] |]); [exact I |].
    destruct (resolve_zlims_runs _ _ _ H1) as (_ & _ & Hok).
    destruct (Hok zlims eq_refl) as (v & vs & _ & ->).
    cbn [for_each] in H2.
    apply runs_bind_inv in H2
      as [(e & H2 & _) | ([] & tr3 & tr4 & H3 & H4 & ->)].
    + eapply run_zlim_each_after. exact H2.
    + apply runs_ret_inv in H4 as [-> _]. rewrite app_nil_r.
      eapply run_zlim_each_after. exact H3.
Qed.

Lemma main_each_after (tr : trace) (r : result unit) :
  runs (main args) tr r -> each_after P [] tr.
Proof.
  intros H. unfold main in H. unfold_calls. unfold ext in H.
  cbn [bind] in H.
  repeat
    lazymatch type of H with
    | runs (Do _ _) _ _ =>
        let e := fresh "e" in
        let a := fresh "a" in
        let tr := fresh "tr" in
        apply runs_do_inv in H as [(e & -> & ->) | (a & tr & -> & H)];
        cbn [each_after];
        (split; [apply P_quiet; [reflexivity | exact I] |]); [exact I |]
    | runs (Throw _) _ _ => apply runs_throw_inv in H as [-> ->]; exact I
    | runs (bind (lift ?x) _) _ _ => destruct x eqn:?; cbn [lift bind] in H
    | runs (bind (if ?b then _ else _) _) _ _ => destruct b; cbn [bind] in H
    end;
    eapply driver_tail_each_after; exact H.
Qed.
End DriverHistory.

Lemma main_files_named (args : arguments) (tr : trace) (r : result unit) :
  runs (main args) tr r -> each_after (files_named args) [] tr.
Proof.
  apply main_each_after.
  - intros h c o Hio Ht. unfold files_named. cbn [ev_call].
    destruct c; try exact I; try discriminate Hio.
    destruct Ht as (fn & [] & _).
  - intros. eapply run_region_files_named; eassumption.
Qed.

Lemma main_selected_for_region (args : arguments) (tr : trace)
    (r : result unit) :
  runs (main args) tr r -> each_after (selected_for_region args) [] tr.
Proof.
  apply main_each_after.
  - intros h c o Hio Ht. unfold selected_for_region. cbn [ev_call].
    destruct c; try exact I; discriminate Hio.
  - intros. eapply run_region_selected; eassumption.
Qed.

(** X13.  Every file name the driver uses was answered by [catalog_fn]
    earlier in the run.  A file it reads, as a table or through the
    reader, was named by a call that passes neither a directory nor a
    region; a file it writes, or makes the directory of, was named by a
    call that passes [--outdir], a region of [--region] and the
    algorithm followed by the convention as [rec_type]. *)
Theorem driver_file_names (args : arguments) (tr : trace) (r : result unit)
    (pre post : trace) (e : event) :
  runs (main args) tr r ->
  tr = pre ++ e :: post ->
  files_named args pre e.
Proof.
  intros H E. apply main_files_named in H.
  exact (each_after_split _ _ _ _ _ H E).
Qed.

(** X14.  Every catalog the driver writes belongs to one region: its
    name was answered by [catalog_fn] for that region, and the last
    selection the reader made before the write was made for that same
    region, with one redshift range and the [--weight_type],
    [--abs_maglim] and [--app_maglim] of the command line. *)
Theorem outputs_selected_for_their_region (args : arguments) (tr : trace)
    (r : result unit) (pre post : trace) (T : table) (out format : string)
    (overwrite : bool) (o : result unit) :
  runs (main args) tr r ->
  tr = pre ++ Event (TableWrite T out format overwrite) o :: post ->
  written_for_region args pre out.
Proof.
  intros H E. apply main_selected_for_region in H.
  exact (each_after_split _ _ _ _ _ H E).
Qed.

(* --------------------------------------------------------------------- *)
(** *** Options without effect                                            *)
(* --------------------------------------------------------------------- *)

Lemma relog_other (dir : string) (tr : trace) :
  Forall (fun e => logs_input_directory (ev_call e) = false) tr ->
  map (relog dir) tr = tr.
Proof.
  induction 1 as [| [c o] tr He _ IH]; [reflexivity |].
  cbn [map]. rewrite IH. f_equal.
  destruct c; try reflexivity. destruct msg; try reflexivity.
  discriminate He.
Qed.

Ltac relog_step H :=
  lazymatch type of H with
  | runs (Do _ _) _ _ =>
      let e := fresh "e" in
      let a := fresh "a" in
      let tr := fresh "tr" in
      apply runs_do_inv in H as [(e & -> & ->) | (a & tr & -> & H)];
      cbn [map relog];
      [left; exists e; split; reflexivity
      |right; do 2 eexists; split; [reflexivity |]]
  | runs (Throw _) _ _ =>
      apply runs_throw_inv in H as [-> ->]; split; reflexivity
  | runs (bind (lift ?x) _) _ _ => destruct x eqn:?; cbn [lift bind] in H |- *
  end.

(** X15.  [--indir] has no effect but on one log message: with another
    input directory the driver makes the same calls and receives the
    same answers, but for the directory named in the message
    ['Input directory is {}.']; the names of the input catalogs are
    asked for without it. *)
Theorem indir_only_logged (args : arguments) (dir : string) (tr : trace)
    (r : result unit) :
  runs (main args) tr r ->
  runs (main (with_indir dir args)) (map (relog dir) tr) r.
Proof.
  intros H.
  unfold main in H |- *. unfold_calls. unfold ext in H |- *.
  cbn [bind] in H |- *.
  cbn [with_indir arg_algorithm arg_indir] in *.
  do 3 relog_step H.
  all: destruct (is_root a); cbn [bind] in H |- *.
  1: relog_step H.
  all: match type of H with
       | runs ?m _ _ =>
           assert (Hq : everywhere (fun c => logs_input_directory c = false) m)
       end.
  all: try (rewrite (relog_other dir (everywhere_runs _ _ Hq H)); exact H).
  all: unfold resolve_zlims, run_zlim, run_region; unfold_stages;
       repeat first [apply everywhere_do; [reflexivity | intros ?]
                    | everywhere_step].
Qed.

(** X16.  Under MPI [--nthreads] has no effect: when [mpi.COMM_WORLD] is
    a communicator, a run of the driver is a run of the driver with any
    other number of threads. *)
Theorem nthreads_unused_under_mpi (args : arguments) (n : Z)
    (comm : communicator) (tr : trace) (r : result unit) :
  runs (main args) tr r ->
  world_communicator tr = Some (Some comm) ->
  runs (main (with_nthreads n args)) tr r.
Proof.
  intros H Hc.
  unfold main, mpi_COMM_WORLD, ext in H. cbn [bind] in H.
  apply world_communicator_do with (1 := H) in Hc as (tr' & -> & H').
  unfold main, mpi_COMM_WORLD, ext. cbn [bind].
  right. exists (Some comm), tr'. split; [reflexivity |]. exact H'.
Qed.

(* ===================================================================== *)
(** ** The theorems at work on runs in the simulated world                *)
(* ===================================================================== *)

Lemma run_reconstruction_lifecycle_order_witness :
  let prog :=
    Sim.program IterativeFFTReconstruction Sim.two_randoms Sim.two_outputs
      "reciso" None in
  let out := interp Sim.world prog (Sim.initial None 0%float) in
  runs prog (snd (fst out)) (fst (fst out))
  /\ fst (fst out) = Ok tt
  /\ seen lifecycle_step (snd (fst out))
     = [SConstruct; SAssignData; SAssignRandoms; SAssignRandoms;
        SSetDensityContrast; SRun; SReadShifted; SSerialize;
        SReadShifted; SSerialize; SReadShifted; SSerialize].
Proof.
  intros prog out.
  assert (H : runs prog (snd (fst out)) (fst (fst out))) by apply sim_runs.
  split; [exact H |]. split; [reflexivity |].
  exact (proj1 (proj2 (@run_reconstruction_lifecycle_order
                         _ _ _ _ _ _ _ _ _ _ _ _ _ _ _ _ _ _ _ H)) eq_refl).
Defined.

Lemma run_reconstruction_fields_witness :
  let prog :=
    Sim.program IterativeFFTReconstruction Sim.two_randoms Sim.two_outputs
      "reciso" None in
  let out := interp Sim.world prog (Sim.initial None 0%float) in
  runs prog (snd (fst out)) (fst (fst out))
  /\ nth_error (seen read_view (snd (fst out))) 1 = Some (None, "disp")
  /\ (0 < 1 -> "reciso" = "reciso" -> "disp" = "disp").
Proof.
  intros prog out.
  assert (H : runs prog (snd (fst out)) (fst (fst out))) by apply sim_runs.
  assert (Hi : nth_error (seen read_view (snd (fst out))) 1
               = Some (None, "disp")) by reflexivity.
  split; [exact H |]. split; [exact Hi |].
  exact (proj1 (proj2 (proj2 (proj2
           (@run_reconstruction_fields
              _ _ _ _ _ _ _ _ _ _ _ _ _ _ _ _ _ _ _ _ _ _ H Hi))))).
Defined.

Lemma algorithm_selects_class_and_data_tag_witness :
  let prog :=
    Sim.program IterativeFFTParticleReconstruction Sim.two_randoms
      Sim.two_outputs "recsym" None in
  let out := interp Sim.world prog (Sim.initial None 0%float) in
  let tr := snd (fst out) in
  let q := [(0.5%float, 11%float, 4%float); (1%float, 21%float, 5%float)] in
  runs prog tr (fst (fst out))
  /\ fst (fst out) = Ok tt
  /\ reconstruction_of_algorithm "IFTP" = Ok IterativeFFTParticleReconstruction
  /\ seen read_view tr
     = [(Some "data", "disp+rsd"); (None, "disp+rsd"); (None, "disp+rsd")]
  /\ tr = firstn 30 tr
            ++ Event (ReadShiftedPositions (Array (Some q)) "disp+rsd")
                 (Ok (Some q))
            :: skipn 31 tr
  /\ array_from "f8" true (firstn 30 tr) (Some q).
Proof.
  intros prog out tr q.
  assert (H : runs prog tr (fst (fst out))) by apply sim_runs.
  assert (Hok : fst (fst out) = Ok tt) by reflexivity.
  assert (E : tr = firstn 30 tr
                     ++ Event (ReadShiftedPositions (Array (Some q)) "disp+rsd")
                          (Ok (Some q))
                     :: skipn 31 tr) by (vm_compute; reflexivity).
  destruct (@algorithm_selects_class_and_data_tag
              _ _ _ _ _ _ _ _ _ _ _ _ _ _ _ _ _ _ _ H)
    as (_ & _ & Hmap & _ & _ & _ & Hreads & _ & Harray).
  split; [exact H |]. split; [exact Hok |]. split; [exact Hmap |].
  split; [exact (Hreads Hok) |]. split; [exact E |].
  exact (Harray _ _ _ _ _ E).
Defined.

Lemma rsd_skips_randoms_output_witness :
  let prog :=
    Sim.program IterativeFFTReconstruction Sim.two_randoms Sim.two_outputs
      "rsd" None in
  let out := interp Sim.world prog (Sim.initial None 0%float) in
  "rsd" = "rsd"
  /\ runs prog (snd (fst out)) (fst (fst out))
  /\ fst (fst out) = Ok tt
  /\ seen read_view (snd (fst out)) = [(None, "rsd")]
  /\ seen write_view (snd (fst out)) = ["out/data_rec.fits"].
Proof.
  intros prog out.
  assert (H : runs prog (snd (fst out)) (fst (fst out))) by apply sim_runs.
  split; [reflexivity |]. split; [exact H |]. split; [reflexivity |].
  exact (proj2 (proj2 (proj2
           (@rsd_skips_randoms_output
              _ _ _ _ _ _ _ _ _ _ _ _ _ _ _ _ _ _ _ eq_refl H))) eq_refl).
Defined.

Lemma off_root_no_catalog_io_witness :
  let comm := Communicator 1 in
  let prog :=
    Sim.program IterativeFFTReconstruction Sim.two_randoms Sim.two_outputs
      "reciso" (Some comm) in
  let out := interp Sim.world prog (Sim.initial (Some comm) 0%float) in
  Some comm = Some comm
  /\ rank comm <> 0%Z
  /\ runs prog (snd (fst out)) (fst (fst out))
  /\ Forall (fun e => off_root_call (ev_call e)) (snd (fst out))
  /\ length (snd (fst out)) = 10.
Proof.
  intros comm prog out.
  assert (Hr : rank comm <> 0%Z) by discriminate.
  assert (H : runs prog (snd (fst out)) (fst (fst out))) by apply sim_runs.
  split; [reflexivity |]. split; [exact Hr |]. split; [exact H |].
  split; [| reflexivity].
  eapply off_root_no_catalog_io; [| | exact H]; [reflexivity | exact Hr].
Defined.

Lemma written_catalog_frame_witness :
  let prog :=
    Sim.program IterativeFFTReconstruction Sim.two_randoms Sim.two_outputs
      "reciso" None in
  let out := interp Sim.world prog (Sim.initial None 1%float) in
  let tr := snd (fst out) in
  let T : table :=
    [ ("RA", FloatCol [10%float; 30%float]);
      ("DEC", FloatCol [1%float; 3%float]);
      ("Z", FloatCol [1%float; 1.5%float]);
      ("TARGETID", IntCol [7%Z; 9%Z]);
      ("SEL", BoolCol [true; true]) ] in
  runs prog tr (fst (fst out))
  /\ tr = firstn 25 tr
            ++ Event (TableWrite T "out/data_rec.fits" "fits" true) (Ok tt)
            :: skipn 26 tr
  /\ (exists earlier,
        firstn 25 tr = earlier ++ [Event (Mkdir "out") (Ok tt)])
  /\ (exists cv,
        written_from Sim.distance Sim.kw "f8" (firstn 25 tr) T
          "out/data_rec.fits" cv
        /\ (exists c, get_column "RA" T = Some c /\ holds (cv_ra_rec cv) c)
        /\ forall name, name <> "RA" -> name <> "DEC" -> name <> "Z" ->
             get_column name T
             = option_map (select_column (cv_mask cv))
                 (get_column name (cv_table cv)))
  /\ seen write_view tr = ["out/data_rec.fits"; "out/r0.fits"; "out/r1.fits"].
Proof.
  intros prog out tr T.
  assert (H : runs prog tr (fst (fst out))) by apply sim_runs.
  assert (E : tr = firstn 25 tr
                     ++ Event (TableWrite T "out/data_rec.fits" "fits" true)
                          (Ok tt)
                     :: skipn 26 tr) by (vm_compute; reflexivity).
  assert (Hok : fst (fst out) = Ok tt) by reflexivity.
  split; [exact H |]. split; [exact E |].
  destruct (@written_catalog_frame
              _ _ _ _ _ _ _ _ _ _ _ _ _ _ _ _ _ _ _ _ _ _ _ _ _ _ H E)
    as (_ & _ & Hdir
        & (cv & selected & Hfrom & _ & Hra & _ & _ & _ & Hother & _)
        & _ & Hall).
  split; [exact Hdir |]. split; [| exact (Hall Hok)].
  exists cv. split; [exact Hfrom |]. split; [exact Hra | exact Hother].
Defined.



(* ===================================================================== *)
(** ** The further facts at work on runs in the simulated world           *)
(* ===================================================================== *)

Lemma catalog_accesses_in_order_witness :
  let prog :=
    Sim.program IterativeFFTReconstruction Sim.two_randoms Sim.two_outputs
      "reciso" None in
  let out := interp Sim.world prog (Sim.initial None 0%float) in
  is_root None = true
  /\ runs prog (snd (fst out)) (fst (fst out))
  /\ fst (fst out) = Ok tt
  /\ seen io_view (snd (fst out))
     = [ Opened "data.fits"; Selected "data.fits" true Sim.kw;
         Selected "ran0.fits" false Sim.kw; Selected "ran1.fits" false Sim.kw;
         Written "out/data_rec.fits";
         Opened "ran0.fits"; Selected "ran0.fits" true Sim.kw;
         Written "out/r0.fits";
         Opened "ran1.fits"; Selected "ran1.fits" true Sim.kw;
         Written "out/r1.fits" ].
Proof.
  intros prog out.
  assert (Hroot : is_root None = true) by reflexivity.
  assert (H : runs prog (snd (fst out)) (fst (fst out))) by apply sim_runs.
  split; [exact Hroot |]. split; [exact H |]. split; [reflexivity |].
  exact (proj2 (@catalog_accesses_in_order
                  _ _ _ _ _ _ _ _ _ _ _ _ _ _ _ _ _ _ _ Hroot H) eq_refl).
Defined.

Lemma scalar_randoms_rec_fn_by_character_witness :
  let prog :=
    Sim.program IterativeFFTReconstruction (PyStr "ran0.fits")
      (PyStr "out/r0.fits") "reciso" None in
  let out := interp Sim.world prog (Sim.initial None 0%float) in
  is_root None = true
  /\ "reciso" <> "rsd"
  /\ runs prog (snd (fst out)) (Ok tt)
  /\ seen write_view (snd (fst out)) = ["out/data_rec.fits"; "o"].
Proof.
  intros prog out.
  assert (Hroot : is_root None = true) by reflexivity.
  assert (Hc : "reciso" <> "rsd") by discriminate.
  assert (Hs : PyStr "out/r0.fits" = PyStr "out/r0.fits") by reflexivity.
  assert (H : runs prog (snd (fst out)) (Ok tt))
    by exact (sim_runs prog (Sim.initial None 0%float)).
  split; [exact Hroot |]. split; [exact Hc |]. split; [exact H |].
  exact (proj1 (@scalar_randoms_rec_fn_by_character
                  _ _ _ _ _ _ _ _ _ _ _ _ _ _ _ _ _ _ _
                  Hroot Hc Hs H)).
Defined.

Lemma unknown_convention_is_reciso_witness :
  let under conv :=
    Sim.program IterativeFFTReconstruction Sim.two_randoms Sim.two_outputs
      conv None in
  let out := interp Sim.world (under "iso") (Sim.initial None 0%float) in
  "iso" <> "rsd"
  /\ "iso" <> "recsym"
  /\ runs (under "iso") (snd (fst out)) (fst (fst out))
  /\ seen read_view (snd (fst out))
     = [(None, "disp+rsd"); (None, "disp"); (None, "disp")]
  /\ runs (under "reciso") (snd (fst out)) (fst (fst out)).
Proof.
  intros under out.
  assert (H1 : "iso" <> "rsd") by discriminate.
  assert (H2 : "iso" <> "recsym") by discriminate.
  assert (H : runs (under "iso") (snd (fst out)) (fst (fst out)))
    by apply sim_runs.
  split; [exact H1 |]. split; [exact H2 |]. split; [exact H |].
  split; [reflexivity |].
  exact (proj1 (@unknown_convention_is_reciso
                  _ _ _ _ _ _ _ _ _ _ _ _ _ _ _ _ _ _ _ H1 H2) H).
Defined.

Lemma ranks_stay_in_step_witness :
  let on_rank c :=
    Sim.program IterativeFFTParticleReconstruction Sim.two_randoms
      Sim.two_outputs "recsym" c in
  let root := Some (Communicator 0) in
  let other := Some (Communicator 3) in
  let out1 := interp Sim.world (on_rank root) (Sim.initial root 0%float) in
  let out2 := interp Sim.world (on_rank other) (Sim.initial other 0%float) in
  runs (on_rank root) (snd (fst out1)) (fst (fst out1))
  /\ runs (on_rank other) (snd (fst out2)) (fst (fst out2))
  /\ fst (fst out1) = Ok tt
  /\ fst (fst out2) = Ok tt
  /\ length (snd (fst out1)) = 46
  /\ length (snd (fst out2)) = 10
  /\ seen collective_view (snd (fst out1))
     = seen collective_view (snd (fst out2)).
Proof.
  intros on_rank root other out1 out2.
  assert (H1 : runs (on_rank root) (snd (fst out1)) (fst (fst out1)))
    by apply sim_runs.
  assert (H2 : runs (on_rank other) (snd (fst out2)) (fst (fst out2)))
    by apply sim_runs.
  assert (E1 : fst (fst out1) = Ok tt) by reflexivity.
  assert (E2 : fst (fst out2) = Ok tt) by reflexivity.
  split; [exact H1 |]. split; [exact H2 |]. split; [exact E1 |].
  split; [exact E2 |]. split; [reflexivity |]. split; [reflexivity |].
  exact (proj2 (@ranks_stay_in_step
                  _ _ _ _ _ _ _ _ _ _ _ _ _ _ _ _ _ _ _ _ _ _ H1 H2 E1) E2).
Defined.

Lemma assign_data_gets_constructor_positions_witness :
  let prog :=
    Sim.program IterativeFFTReconstruction Sim.two_randoms Sim.two_outputs
      "reciso" None in
  let out := interp Sim.world prog (Sim.initial None 0%float) in
  let tr := snd (fst out) in
  let p := [(1%float, 10%float, 1%float); (2%float, 30%float, 3%float)] in
  let w := [1%float; 1%float] in
  runs prog tr (fst (fst out))
  /\ tr = firstn 6 tr ++ Event (AssignData (Some p) (Some w)) (Ok tt)
            :: skipn 7 tr
  /\ data_assigned_from Sim.distance Sim.kw "f8" "data.fits"
       IterativeFFTReconstruction
       true (firstn 6 tr) (Some p) (Some w).
Proof.
  intros prog out tr p w.
  assert (H : runs prog tr (fst (fst out))) by apply sim_runs.
  assert (E : tr = firstn 6 tr ++ Event (AssignData (Some p) (Some w)) (Ok tt)
                     :: skipn 7 tr) by (vm_compute; reflexivity).
  split; [exact H |]. split; [exact E |].
  exact (@assign_data_gets_constructor_positions
           _ _ _ _ _ _ _ _ _ _ _ _ _ _ _ _ _ _ _ _ _ _ _ _ H E).
Defined.

Lemma assign_randoms_gets_file_positions_witness :
  let prog :=
    Sim.program IterativeFFTReconstruction Sim.two_randoms Sim.two_outputs
      "reciso" None in
  let out := interp Sim.world prog (Sim.initial None 0%float) in
  let tr := snd (fst out) in
  let p := [(0.5%float, 11%float, 4%float); (1%float, 21%float, 5%float)] in
  let w := [1%float; 1%float] in
  is_root None = true
  /\ runs prog tr (fst (fst out))
  /\ tr = firstn 16 tr ++ Event (AssignRandoms (Some p) (Some w)) (Ok tt)
            :: skipn 17 tr
  /\ length (seen assign_view (firstn 16 tr)) = 1
  /\ randoms_assigned_from Sim.distance Sim.kw "f8" ["ran0.fits"; "ran1.fits"]
       (firstn 16 tr) (Some p) (Some w).
Proof.
  intros prog out tr p w.
  assert (Hroot : is_root None = true) by reflexivity.
  assert (H : runs prog tr (fst (fst out))) by apply sim_runs.
  assert (E : tr = firstn 16 tr
                     ++ Event (AssignRandoms (Some p) (Some w)) (Ok tt)
                     :: skipn 17 tr) by (vm_compute; reflexivity).
  split; [exact Hroot |]. split; [exact H |]. split; [exact E |].
  split; [reflexivity |].
  exact (@assign_randoms_gets_file_positions
           _ _ _ _ _ _ _ _ _ _ _ _ _ _ _ _ _ _ _ _ _ _ _ _ Hroot H E).
Defined.

Lemma exceptions_come_from_calls_or_tables_witness :
  let short_mask : table :=
    [ ("RA", FloatCol [10%float; 20%float]);
      ("DEC", FloatCol [1%float; 2%float]);
      ("Z", FloatCol [0.5%float; 0.75%float]);
      ("SEL", BoolCol [true]) ] in
  let prog :=
    Sim.program IterativeFFTReconstruction Sim.two_randoms Sim.two_outputs
      "reciso" None in
  let out :=
    interp Sim.world prog
      (Sim.with_files (Sim.initial None 0%float) [("data.fits", short_mask)]) in
  let tr := snd (fst out) in
  runs prog tr (Raised "IndexError")
  /\ forallb answered tr = true
  /\ length tr = 3
  /\ raised_where true tr "IndexError".
Proof.
  intros short_mask prog out tr.
  assert (H : runs prog tr (Raised "IndexError"))
    by exact (sim_runs prog _).
  split; [exact H |]. split; [reflexivity |]. split; [reflexivity |].
  exact (@exceptions_come_from_calls_or_tables
           _ _ _ _ _ _ _ _ _ _ _ _ _ _ _ _ _ _ _ H).
Defined.

Lemma directory_made_for_output_witness :
  let prog :=
    Sim.program IterativeFFTReconstruction Sim.two_randoms Sim.two_outputs
      "reciso" None in
  let out := interp Sim.world prog (Sim.initial None 0%float) in
  let tr := snd (fst out) in
  let T : table :=
    [ ("RA", FloatCol [10%float; 30%float]);
      ("DEC", FloatCol [1%float; 3%float]);
      ("Z", FloatCol [0.5%float; 1%float]);
      ("TARGETID", IntCol [7%Z; 9%Z]);
      ("SEL", BoolCol [true; true]) ] in
  runs prog tr (fst (fst out))
  /\ tr = firstn 25 tr
            ++ Event (TableWrite T "out/data_rec.fits" "fits" true) (Ok tt)
            :: skipn 26 tr
  /\ "out/data_rec.fits" = ("out" ++ "/" ++ "data_rec.fits")%string
  /\ has_sep "data_rec.fits" = false
  /\ exists earlier, firstn 25 tr = earlier ++ [Event (Mkdir "out") (Ok tt)].
Proof.
  intros prog out tr T.
  assert (H : runs prog tr (fst (fst out))) by apply sim_runs.
  assert (E : tr = firstn 25 tr
                     ++ Event (TableWrite T "out/data_rec.fits" "fits" true)
                          (Ok tt)
                     :: skipn 26 tr) by (vm_compute; reflexivity).
  assert (Hp : "out/data_rec.fits" = ("out" ++ "/" ++ "data_rec.fits")%string)
    by reflexivity.
  assert (Hb : has_sep "data_rec.fits" = false) by reflexivity.
  split; [exact H |]. split; [exact E |]. split; [exact Hp |].
  split; [exact Hb |].
  exact (proj2 (@directory_made_for_output
                  _ _ _ _ _ _ _ _ _ _ _ _ _ _ _ _ _ _ _ _ _ _ _ _ _ _ H E)
           "out" "data_rec.fits" Hp Hb).
Defined.

Lemma driver_off_root_bystander_witness :
  let comm := Communicator 1 in
  let args := Sim.cli None None "IFT" "reciso" in
  let out := Sim.run_main args (Some comm) in
  let tr := snd (fst out) in
  runs (main args) tr (fst (fst out))
  /\ world_communicator tr = Some (Some comm)
  /\ rank comm <> 0%Z
  /\ fst (fst out) = Ok tt
  /\ length tr = 20
  /\ Forall (fun e => bystander_call (ev_call e)) tr.
Proof.
  intros comm args out tr.
  assert (H : runs (main args) tr (fst (fst out))) by apply sim_runs.
  assert (Hc : world_communicator tr = Some (Some comm)) by reflexivity.
  assert (Hr : rank comm <> 0%Z) by discriminate.
  split; [exact H |]. split; [exact Hc |]. split; [exact Hr |].
  split; [reflexivity |]. split; [reflexivity |].
  exact (@driver_off_root_bystander _ _ _ _ H Hc Hr).
Defined.

Lemma driver_regions_in_order_witness :
  let args := with_region ["SGC"; "NGC"] (Sim.cli None None "IFT" "reciso") in
  let out := Sim.run_main args None in
  let tr := snd (fst out) in
  runs (main args) tr (fst (fst out))
  /\ fst (fst out) = Ok tt
  /\ seen driver_view tr
     = [Named "SGC"; Constructed; Named "NGC"; Constructed].
Proof.
  intros args out tr.
  assert (H : runs (main args) tr (fst (fst out))) by apply sim_runs.
  split; [exact H |]. split; [reflexivity |].
  exact (proj1 (proj2 (@driver_regions_in_order _ _ _ H)) eq_refl).
Defined.

Lemma driver_growth_rate_witness :
  let args := Sim.cli None None "IFT" "reciso" in
  let out := Sim.run_main args None in
  let tr := snd (fst out) in
  let a :=
    {| ca_f := 0.9%float; ca_bias := 1.2%float; ca_boxsize := None;
       ca_nmesh := None; ca_cellsize := 7%float; ca_los := "local";
       ca_positions :=
         Some [(1%float, 10%float, 1%float); (2%float, 30%float, 3%float)];
       ca_boxpad := 1.2%float; ca_dtype := "f8";
       ca_rec_kwargs := FftKwargs "fftw" 64 |} in
  runs (main args) tr (fst (fst out))
  /\ tr = firstn 18 tr
            ++ Event (Construct IterativeFFTReconstruction a) (Ok tt)
            :: skipn 19 tr
  /\ exists zbox zlim,
       In (Event (GetZCubicbox "ELG") (Ok zbox)) (firstn 18 tr)
       /\ In (Event (GetFReconstruction zbox zlim "cutsky") (Ok 0.9%float))
            (firstn 18 tr).
Proof.
  intros args out tr a.
  assert (H : runs (main args) tr (fst (fst out))) by apply sim_runs.
  assert (E : tr = firstn 18 tr
                     ++ Event (Construct IterativeFFTReconstruction a) (Ok tt)
                     :: skipn 19 tr) by (vm_compute; reflexivity).
  split; [exact H |]. split; [exact E |].
  exact (proj1 (@driver_growth_rate _ _ _ _ _ _ _ _ H E)).
Defined.

Lemma driver_never_reads_rsd_field_witness :
  let args := Sim.cli None None "IFTP" "recsym" in
  let out := Sim.run_main args None in
  let tr := snd (fst out) in
  In "recsym" ["reciso"; "recsym"]
  /\ runs (main args) tr (fst (fst out))
  /\ seen read_view tr
     = [(Some "data", "disp+rsd"); (None, "disp+rsd"); (None, "disp+rsd")]
  /\ Forall (fun e => reads_field_of "recsym" (ev_call e)) tr.
Proof.
  intros args out tr.
  assert (Hc : In (arg_convention args) ["reciso"; "recsym"])
    by (right; left; reflexivity).
  assert (H : runs (main args) tr (fst (fst out))) by apply sim_runs.
  split; [exact Hc |]. split; [exact H |]. split; [reflexivity |].
  exact (@driver_never_reads_rsd_field _ _ _ Hc H).
Defined.

Lemma driver_file_names_witness :
  let args := Sim.cli None None "IFT" "reciso" in
  let out := Sim.run_main args None in
  let tr := snd (fst out) in
  let e := nth 38 tr (Event Run (Ok tt)) in
  runs (main args) tr (fst (fst out))
  /\ tr = firstn 38 tr ++ e :: skipn 39 tr
  /\ write_view (ev_call e) = ["out/ELG_data_NGC_IFTreciso.fits"]
  /\ named_output args (firstn 38 tr) "out/ELG_data_NGC_IFTreciso.fits".
Proof.
  intros args out tr e.
  assert (H : runs (main args) tr (fst (fst out))) by apply sim_runs.
  assert (E : tr = firstn 38 tr ++ e :: skipn 39 tr)
    by (vm_compute; reflexivity).
  split; [exact H |]. split; [exact E |]. split; [reflexivity |].
  exact (@driver_file_names _ _ _ _ _ _ H E).
Defined.

Lemma outputs_selected_for_their_region_witness :
  let args :=
    with_region ["SGC"; "NGC"] (Sim.cli None None "IFT" "reciso") in
  let out := Sim.run_main args None in
  let tr := snd (fst out) in
  let T : table :=
    [ ("RA", FloatCol [11%float; 21%float]);
      ("DEC", FloatCol [4%float; 5%float]);
      ("Z", FloatCol [0.25%float; 0.5%float]);
      ("TARGETID", IntCol [1%Z; 2%Z]) ] in
  let fn := "out/ELG_randoms_NGC_IFTreciso_1.fits" in
  runs (main args) tr (fst (fst out))
  /\ tr = firstn 109 tr ++ Event (TableWrite T fn "fits" true) (Ok tt)
            :: skipn 110 tr
  /\ last_selection (firstn 109 tr)
     = Some (reader_kwargs args 0.8%float 1.6%float "NGC")
  /\ written_for_region args (firstn 109 tr) fn.
Proof.
  intros args out tr T fn.
  assert (H : runs (main args) tr (fst (fst out))) by apply sim_runs.
  assert (E : tr = firstn 109 tr ++ Event (TableWrite T fn "fits" true) (Ok tt)
                     :: skipn 110 tr) by (vm_compute; reflexivity).
  split; [exact H |]. split; [exact E |]. split; [vm_compute; reflexivity |].
  exact (@outputs_selected_for_their_region _ _ _ _ _ _ _ _ _ _ H E).
Defined.

Lemma indir_only_logged_witness :
  let args := Sim.cli None None "IFT" "reciso" in
  let out := Sim.run_main args None in
  let tr := snd (fst out) in
  runs (main args) tr (fst (fst out))
  /\ nth_error (map ev_call tr) 2 = Some (LoggerInfo (InputDirectory "in"))
  /\ nth_error (map ev_call (map (relog "elsewhere") tr)) 2
     = Some (LoggerInfo (InputDirectory "elsewhere"))
  /\ seen io_view (map (relog "elsewhere") tr) = seen io_view tr
  /\ runs (main (with_indir "elsewhere" args)) (map (relog "elsewhere") tr)
       (fst (fst out)).
Proof.
  intros args out tr.
  assert (H : runs (main args) tr (fst (fst out))) by apply sim_runs.
  split; [exact H |]. split; [reflexivity |]. split; [reflexivity |].
  split; [vm_compute; reflexivity |].
  exact (@indir_only_logged _ "elsewhere" _ _ H).
Defined.

Lemma nthreads_unused_under_mpi_witness :
  let comm := Communicator 0 in
  let args := Sim.cli None None "IFT" "reciso" in
  let out := Sim.run_main args (Some comm) in
  let tr := snd (fst out) in
  runs (main args) tr (fst (fst out))
  /\ world_communicator tr = Some (Some comm)
  /\ arg_nthreads args = 64%Z
  /\ runs (main (with_nthreads 1 args)) tr (fst (fst out)).
Proof.
  intros comm args out tr.
  assert (H : runs (main args) tr (fst (fst out))) by apply sim_runs.
  assert (Hc : world_communicator tr = Some (Some comm)) by reflexivity.
  split; [exact H |]. split; [exact Hc |]. split; [reflexivity |].
  exact (@nthreads_unused_under_mpi _ 1%Z _ _ _ H Hc).
Defined.
